(** * vibe-game: terrain streaming, resource nodes, units and the wave director

    A shallow embedding of the game core (World, Tree/Rock, EnemyUnit,
    AnimalUnit, the Objective and EnemySystem) and the properties of its
    specification; then of InventorySystem, EventBus, GameContext, the combat
    and the motion of the Player, UnitSystem.spawnUnit, the interaction that
    ends a frame of the game loop and the clouds, with further properties of
    the code.

    Conventions of the embedding:
    - JavaScript numbers that only ever hold integers (wave counters, chunk
      coordinates, the health of a Tree, inventory counts) are [Z]; the
      others (positions, heights, times, the health of units) are exact
      rationals [Qc], so the arithmetic is the real-number reading of the
      floating-point code;
    - where the rounding decides an integer, the model rounds as the code
      does: the counters of the chunk loops, which stop advancing at 2^53
      ([Js.toDouble]), and the floors of the attributes that [spawnEnemy]
      scales ([Js.double]);
    - objects that are shared by reference have an identity: a Tree pushed
      to both [world.objects] and [chunk.objects] lives in a store indexed by
      its identity, and the arrays hold the identity; an enemy carries its
      identity in the roster, and what a method does to it is written to
      every place of the roster that holds it;
    - [setTimeout]/[clearTimeout] are a queue of pending callbacks, each an
      element of an inductive type of closures;
    - [Math.random()], the three.js geometry and the simplex noise are inputs
      of the model. *)

From Stdlib Require Import ZArith QArith Qcanon Qround Lia Lqa.
From stdpp Require Import gmap list numbers strings.

(* stdpp's set_solver clears hypotheses by name; silence its notices *)
#[local] Set Warnings "-clear-no-such-hyp".

Local Open Scope Z_scope.

(** ** JavaScript numbers *)
Module Js.

Definition num (z : Z) : Qc := Q2Qc (inject_Z z).

(** a decimal literal such as 0.05 = 5/100 *)
Definition frac (n : Z) (d : positive) : Qc := Q2Qc (n # d).

(** [Math.floor] *)
Definition floor (q : Qc) : Z := Qfloor (this q).

Definition ltb (a b : Qc) : bool :=
  match (a ?= b)%Qc with Lt => true | _ => false end.

Definition leb (a b : Qc) : bool :=
  match (a ?= b)%Qc with Gt => false | _ => true end.

Definition min (a b : Qc) : Qc := if leb a b then a else b.

(** A number that may be [NaN] ([None]): reading past the end of an array
    gives [undefined], and arithmetic on it gives [NaN]. *)
Definition Num : Type := option Qc.

Definition fin (q : Qc) : Num := Some q.

Definition add (a b : Num) : Num :=
  match a, b with Some p, Some q => Some (p + q)%Qc | _, _ => None end.

Definition sub (a b : Num) : Num :=
  match a, b with Some p, Some q => Some (p - q)%Qc | _, _ => None end.

Definition mul (a b : Num) : Num :=
  match a, b with Some p, Some q => Some (p * q)%Qc | _, _ => None end.

(** [a < b] on possibly-NaN numbers: false as soon as one side is NaN *)
Definition nlt (a b : Num) : bool :=
  match a, b with Some p, Some q => ltb p q | _, _ => false end.


(** [k * 2^u] *)
Definition scale2 (k u : Z) : Qc :=
  if 0 <=? u then num (k * 2 ^ u) else Q2Qc (k # Z.to_pos (2 ^ (- u))).

(** The number that holds a result: the double nearest to it, a tie going to
    the even significand. A double has 53 bits of significand and its last
    place is worth 2^-1074 at least; results too large for a double do not
    occur where this is used. *)
Definition double (q : Qc) : Qc :=
  let n := Qnum (this q) in
  let d := Z.pos (Qden (this q)) in
  let a := Z.abs n in
  if a =? 0 then 0%Qc
  else
    (* 2^e <= a/d < 2^(e+1) *)
    let e0 := Z.log2 a - Z.log2 d in
    let reached := if 0 <=? e0 then d * 2 ^ e0 <=? a else d <=? a * 2 ^ (- e0) in
    let e := if reached then e0 else e0 - 1 in
    let u := Z.max (e - 52) (-1074) in
    (* a/d = (nu/de) * 2^u *)
    let nu := if 0 <=? u then a else a * 2 ^ (- u) in
    let de := if 0 <=? u then d * 2 ^ u else d in
    let k := nu / de in
    let r := nu mod de in
    let k' := if 2 * r <? de then k
              else if de <? 2 * r then k + 1
              else if Z.even k then k else k + 1 in
    scale2 (Z.sgn n * k') u.

End Js.

(** ** THREE.Vector3

    [x] and [z] always come from finite arithmetic on finite inputs; [y] is
    snapped to [World.getHeightAt], which is the one place a NaN can enter. *)
Record Vector3 : Type := mkVector3 { vx : Qc; vy : Js.Num; vz : Qc }.

Definition vec (x y z : Qc) : Vector3 := mkVector3 x (Js.fin y) z.

(** square of [a.distanceTo(b)] *)
Definition distanceSq (a b : Vector3) : Js.Num :=
  let dx := (vx a - vx b)%Qc in
  let dz := (vz a - vz b)%Qc in
  let dy := Js.sub (vy a) (vy b) in
  Js.add (Js.add (Js.fin (dx * dx)%Qc) (Js.mul dy dy)) (Js.fin (dz * dz)%Qc).

(** [a.distanceTo(b) < r]: the distance is the non-negative square root, so
    the test holds exactly when [r] is positive and the squares compare. *)
Definition distanceLt (a b : Vector3) (r : Qc) : bool :=
  match distanceSq a b with
  | Some d => Js.ltb 0%Qc r && Js.ltb d (r * r)%Qc
  | None => false
  end.

(** [a.distanceTo(b) <= r] *)
Definition distanceLe (a b : Vector3) (r : Qc) : bool :=
  match distanceSq a b with
  | Some d => Js.leb 0%Qc r && Js.leb d (r * r)%Qc
  | None => false
  end.

(** ** setTimeout / clearTimeout *)
Module Timers.

Record Timer (A : Type) : Type :=
  mkTimer { timerId : nat; due : Qc; callback : A }.
Arguments mkTimer {A}.
Arguments timerId {A}.
Arguments due {A}.
Arguments callback {A}.

Record Queue (A : Type) : Type :=
  mkQueue { pending : list (Timer A); nextTimerId : nat }.
Arguments mkQueue {A}.
Arguments pending {A}.
Arguments nextTimerId {A}.

(** timer handles are positive integers, so a handle is always truthy *)
Definition empty {A} : Queue A := mkQueue [] 1%nat.

(** [setTimeout(cb, delay)] called at time [now] (milliseconds) *)
Definition setTimeout {A} (cb : A) (now delay : Qc) (q : Queue A)
  : nat * Queue A :=
  (nextTimerId q,
   mkQueue (pending q ++ [mkTimer (nextTimerId q) (now + delay)%Qc cb])
           (S (nextTimerId q))).

Definition clearTimeout {A} (id : nat) (q : Queue A) : Queue A :=
  mkQueue (filter (λ t, timerId t ≠ id) (pending q)) (nextTimerId q).

Definition lookup {A} (id : nat) (q : Queue A) : option (Timer A) :=
  List.find (λ t, Nat.eqb (timerId t) id) (pending q).

(** the timers that may fire at time [now] *)
Definition dueAt {A} (now : Qc) (q : Queue A) : list (Timer A) :=
  filter (λ t, Js.leb (due t) now = true) (pending q).

End Timers.

(** ** InteractiveObject, Tree and Rock *)
Module Resources.

Inductive ResourceType : Type := wood | stone.

Inductive NodeClass : Type := Tree | Rock.

Record Reward : Type := mkReward { type : ResourceType; amount : Z }.

Record Node : Type := mkNode {
  class : NodeClass;
  position : Vector3;
  health : Z;
  resourceType : ResourceType;
  resourceAmount : Z;
  respawnTime : Z;               (* seconds *)
  interactionEnabled : bool;
  visible : bool;                (* this.object.visible *)
  scale : Qc                     (* this.object.scale.x *)
}.

(** the constructors of Tree and Rock (on top of InteractiveObject's) *)
Definition new (c : NodeClass) (p : Vector3) : Node :=
  match c with
  | Tree => mkNode Tree p 100 wood 3 30 true true 1%Qc
  | Rock => mkNode Rock p 150 stone 5 45 true true 1%Qc
  end.

Definition getPosition (n : Node) : Vector3 := position n.

Definition canInteract (n : Node) : bool := interactionEnabled n.

(** [interact()]: the reward (or [null]), the node afterwards, and the
    delay in milliseconds of the respawn timer it sets, if any *)
Definition interact (n : Node) : option Reward * Node * option Z :=
  if negb (canInteract n) then (None, n, None)
  else
    let h := health n - 25 in
    let n1 := mkNode (class n) (position n) h (resourceType n)
                     (resourceAmount n) (respawnTime n)
                     (interactionEnabled n) (visible n) (Js.frac 95 100) in
    if h <=? 0 then
      let n2 := mkNode (class n1) (position n1) (health n1) (resourceType n1)
                       (resourceAmount n1) (respawnTime n1)
                       false false (scale n1) in
      (Some (mkReward (resourceType n) (resourceAmount n)), n2,
       Some (respawnTime n * 1000))
    else (Some (mkReward (resourceType n) 1), n1, None).

(** [respawn()]: Tree resets to 100, Rock to 150 *)
Definition respawn (n : Node) : Node :=
  mkNode (class n) (position n)
         (match class n with Tree => 100 | Rock => 150 end)
         (resourceType n) (resourceAmount n) (respawnTime n)
         true true 1%Qc.

(** [update(deltaTime, player)]: the cosmetic grow-back of the scale *)
Definition update (deltaTime : Qc) (n : Node) : Node :=
  if visible n && Js.ltb (scale n) 1%Qc then
    let growFactor :=
      match class n with
      | Tree => Js.min (deltaTime * Js.frac 5 10)%Qc (Js.frac 5 100)
      | Rock => Js.min (deltaTime * Js.frac 3 10)%Qc (Js.frac 3 100)
      end in
    let s := (scale n + growFactor)%Qc in
    mkNode (class n) (position n) (health n) (resourceType n)
           (resourceAmount n) (respawnTime n) (interactionEnabled n)
           (visible n) (if Js.leb 1%Qc s then 1%Qc else s)
  else n.

(** No class of the hierarchy (InteractiveObject, Tree, Rock) defines a
    [dispose] method: [typeof object.dispose === 'function'] is false. *)
Definition hasDispose (c : NodeClass) : bool := false.

End Resources.

(** ** World: chunk streaming, height queries, the object registry *)
Module World.
Import Resources.

(** fields of the constructor that are never reassigned *)
Definition chunkSize : Z := 50.
Definition viewDistance : Z := 2.
Definition heightScale : Z := 5.

(** [const resolution = 32] / [const terrainResolution = 32] *)
Definition terrainResolution : Z := 32.

(** What the World reaches outside this repository. *)
Class Environment : Type := mkEnvironment {
  noise : Qc → Qc → Qc;            (* SimplexNoise.noise(x, y) *)
  random : nat → Qc;               (* the n-th result of Math.random() *)
  planeVertices : list (Qc * Qc);  (* (x, z) of each vertex of
                                      PlaneGeometry(50, 50, 32, 32) after
                                      rotateX(-PI/2), in buffer order *)
  hasPhysics : bool                (* context.systems.physics is set *)
}.

(** A chunk key is the string [`${x},${z}`] built from two integers; it is
    kept as the pair it encodes. *)
Abbreviation ChunkKey := (Z * Z)%type.

Record Mesh : Type := mkMesh {
  meshId : nat;
  meshPosition : Vector3;
  vertexHeights : list Qc          (* the y of each vertex *)
}.

Inductive SceneObject : Type :=
| TerrainMesh (id : nat)
| NodeObject (id : nat).

Inductive GpuResource : Type :=
| Geometry (mesh : nat)
| Material (mesh : nat).

Record Chunk : Type := mkChunk {
  terrain : option Mesh;
  chunkObjects : list nat;         (* chunk.objects *)
  heightMap : option (list Qc);
  chunkX : Z;
  chunkZ : Z;
  sizeX : option Z;
  sizeZ : option Z
}.

(** the closures handed to [setTimeout] by Tree and Rock *)
Inductive Closure : Type := Respawn (node : nat).

Record State : Type := mkState {
  chunks : gmap (Z * Z) Chunk;
  lastPlayerChunkCoords : option ChunkKey;
  objects : list nat;                       (* this.objects *)
  physicsEnabled : bool;
  terrainBodies : gmap (option (Z * Z)) nat; (* keyed by chunk.key: a key
                                               string, or undefined (None) *)
  (* what the references point to *)
  nodes : gmap nat Node;                    (* the Tree and Rock instances *)
  nextId : nat;                             (* next fresh identity *)
  scene : list SceneObject;                 (* children of the THREE.Scene *)
  disposed : list GpuResource;              (* dispose() calls made so far *)
  physicsBodies : list nat;                 (* bodies held by the physics system *)
  timers : Timers.Queue Closure;
  rng : nat                                 (* Math.random() calls made so far *)
}.

Definition setChunks (f : gmap (Z * Z) Chunk → gmap (Z * Z) Chunk) (w : State) : State :=
  mkState (f (chunks w)) (lastPlayerChunkCoords w) (objects w)
          (physicsEnabled w) (terrainBodies w) (nodes w) (nextId w) (scene w)
          (disposed w) (physicsBodies w) (timers w) (rng w).

Definition setLastPlayerChunkCoords (k : option ChunkKey) (w : State) : State :=
  mkState (chunks w) k (objects w)
          (physicsEnabled w) (terrainBodies w) (nodes w) (nextId w) (scene w)
          (disposed w) (physicsBodies w) (timers w) (rng w).

Definition setObjects (f : list nat → list nat) (w : State) : State :=
  mkState (chunks w) (lastPlayerChunkCoords w) (f (objects w))
          (physicsEnabled w) (terrainBodies w) (nodes w) (nextId w) (scene w)
          (disposed w) (physicsBodies w) (timers w) (rng w).

Definition setPhysicsEnabled (b : bool) (w : State) : State :=
  mkState (chunks w) (lastPlayerChunkCoords w) (objects w)
          b (terrainBodies w) (nodes w) (nextId w) (scene w)
          (disposed w) (physicsBodies w) (timers w) (rng w).

Definition setTerrainBodies (f : gmap (option (Z * Z)) nat → gmap (option (Z * Z)) nat)
  (w : State) : State :=
  mkState (chunks w) (lastPlayerChunkCoords w) (objects w)
          (physicsEnabled w) (f (terrainBodies w)) (nodes w) (nextId w) (scene w)
          (disposed w) (physicsBodies w) (timers w) (rng w).

Definition setNodes (f : gmap nat Node → gmap nat Node) (w : State) : State :=
  mkState (chunks w) (lastPlayerChunkCoords w) (objects w)
          (physicsEnabled w) (terrainBodies w) (f (nodes w)) (nextId w) (scene w)
          (disposed w) (physicsBodies w) (timers w) (rng w).

Definition setNextId (n : nat) (w : State) : State :=
  mkState (chunks w) (lastPlayerChunkCoords w) (objects w)
          (physicsEnabled w) (terrainBodies w) (nodes w) n (scene w)
          (disposed w) (physicsBodies w) (timers w) (rng w).

Definition setScene (f : list SceneObject → list SceneObject) (w : State) : State :=
  mkState (chunks w) (lastPlayerChunkCoords w) (objects w)
          (physicsEnabled w) (terrainBodies w) (nodes w) (nextId w) (f (scene w))
          (disposed w) (physicsBodies w) (timers w) (rng w).

Definition setDisposed (f : list GpuResource → list GpuResource) (w : State) : State :=
  mkState (chunks w) (lastPlayerChunkCoords w) (objects w)
          (physicsEnabled w) (terrainBodies w) (nodes w) (nextId w) (scene w)
          (f (disposed w)) (physicsBodies w) (timers w) (rng w).

Definition setPhysicsBodies (f : list nat → list nat) (w : State) : State :=
  mkState (chunks w) (lastPlayerChunkCoords w) (objects w)
          (physicsEnabled w) (terrainBodies w) (nodes w) (nextId w) (scene w)
          (disposed w) (f (physicsBodies w)) (timers w) (rng w).

Definition setTimers (q : Timers.Queue Closure) (w : State) : State :=
  mkState (chunks w) (lastPlayerChunkCoords w) (objects w)
          (physicsEnabled w) (terrainBodies w) (nodes w) (nextId w) (scene w)
          (disposed w) (physicsBodies w) q (rng w).

Definition setRng (n : nat) (w : State) : State :=
  mkState (chunks w) (lastPlayerChunkCoords w) (objects w)
          (physicsEnabled w) (terrainBodies w) (nodes w) (nextId w) (scene w)
          (disposed w) (physicsBodies w) (timers w) n.

(** the constructor: no chunk, nothing in the registry *)
Definition new : State :=
  mkState ∅ None [] false ∅ ∅ 0%nat [] [] [] Timers.empty 0%nat.

#[global] Instance SceneObject_eq_dec : EqDecision SceneObject.
Proof. solve_decision. Defined.

(** [getNoiseHeight(x, z)] *)
Definition getNoiseHeight `{Environment} (x z : Qc) : Qc :=
  let scaledX := (x * Js.frac 5 100)%Qc in
  let scaledZ := (z * Js.frac 5 100)%Qc in
  let largeScale :=
    (noise (scaledX * Js.frac 2 10) (scaledZ * Js.frac 2 10) * Js.frac 8 10)%Qc in
  let mediumScale :=
    (noise (scaledX * Js.frac 4 10) (scaledZ * Js.frac 4 10) * Js.frac 3 10)%Qc in
  let smallScale :=
    (noise (scaledX * 1) (scaledZ * 1) * Js.frac 1 10)%Qc in
  ((largeScale + mediumScale + smallScale) * Js.num heightScale)%Qc.

(** [heightMap[i]] for an integer index *)
Definition sample (hm : list Qc) (i : Z) : Js.Num :=
  if i <? 0 then None else hm !! Z.to_nat i.

(** [getHeightAt(x, z)] *)
Definition getHeightAt (w : State) (x z : Qc) : Js.Num :=
  let chunkX := Js.floor (x / Js.num chunkSize) in
  let chunkZ := Js.floor (z / Js.num chunkSize) in
  match chunks w !! (chunkX, chunkZ) with
  | None => Js.fin 0
  | Some chunk =>
    match heightMap chunk with
    | None => Js.fin 0
    | Some hm =>
      let localX := (x - Js.num (chunkX * chunkSize))%Qc in
      let localZ := (z - Js.num (chunkZ * chunkSize))%Qc in
      let gridX := (localX / Js.num chunkSize * Js.num terrainResolution)%Qc in
      let gridZ := (localZ / Js.num chunkSize * Js.num terrainResolution)%Qc in
      let x0 := Js.floor gridX in
      let z0 := Js.floor gridZ in
      let x1 := Z.min (x0 + 1) (terrainResolution - 1) in
      let z1 := Z.min (z0 + 1) (terrainResolution - 1) in
      if (x0 <? 0) || (terrainResolution <=? x0)
         || (z0 <? 0) || (terrainResolution <=? z0)
      then Js.fin 0
      else
        let fracX := (gridX - Js.num x0)%Qc in
        let fracZ := (gridZ - Js.num z0)%Qc in
        let h00 := sample hm (x0 + z0 * terrainResolution) in
        let h10 := sample hm (x1 + z0 * terrainResolution) in
        let h01 := sample hm (x0 + z1 * terrainResolution) in
        let h11 := sample hm (x1 + z1 * terrainResolution) in
        let hx0 := Js.add (Js.mul h00 (Js.fin (1 - fracX)))
                          (Js.mul h10 (Js.fin fracX)) in
        let hx1 := Js.add (Js.mul h01 (Js.fin (1 - fracX)))
                          (Js.mul h11 (Js.fin fracX)) in
        Js.add (Js.mul hx0 (Js.fin (1 - fracZ))) (Js.mul hx1 (Js.fin fracZ))
    end
  end.

(** [generateTerrainForChunk(chunk)]: the heights are written into the
    vertices of the mesh and pushed to the local array [heightMap], which is
    dropped when the function returns; [chunk.heightMap] is not assigned. *)
Definition generateTerrainForChunk `{Environment} (chunk : Chunk) (w : State)
  : Chunk * State :=
  let offsetX := Js.num (chunkX chunk * chunkSize) in
  let offsetZ := Js.num (chunkZ chunk * chunkSize) in
  let heights :=
    (λ v, getNoiseHeight (v.1 + offsetX)%Qc (v.2 + offsetZ)%Qc) <$> planeVertices in
  let terrainMesh := mkMesh (nextId w) (vec offsetX 0 offsetZ) heights in
  (* applyGroundTexture: one Math.random() for each vertex *)
  let w1 := setRng (rng w + length planeVertices)%nat (setNextId (S (nextId w)) w) in
  let w2 := setScene (λ s, s ++ [TerrainMesh (meshId terrainMesh)]) w1 in
  let chunk1 := mkChunk (Some terrainMesh) (chunkObjects chunk) (heightMap chunk)
                        (chunkX chunk) (chunkZ chunk)
                        (Some chunkSize) (Some chunkSize) in
  if hasPhysics then
    let body := nextId w2 in
    let w3 := setNextId (S body) (setPhysicsEnabled true w2) in
    let w4 := setPhysicsBodies (λ l, l ++ [body]) w3 in
    (* this.terrainBodies.set(chunk.key, terrainBody), chunk.key undefined *)
    (chunk1, setTerrainBodies (<[None := body]>) w4)
  else (chunk1, w2).

(** one iteration of a placement loop of [populateChunk]: two draws for the
    position, then the constructor (its [init] adds the object to the scene
    and draws a rotation) and the two [push] *)
Definition placeObject `{Environment} (c : NodeClass) (st : Chunk * State)
  : Chunk * State :=
  let '(chunk, w) := st in
  let worldX := Js.num (chunkX chunk * chunkSize) in
  let worldZ := Js.num (chunkZ chunk * chunkSize) in
  let x := (worldX + random (rng w) * Js.num chunkSize)%Qc in
  let z := (worldZ + random (S (rng w)) * Js.num chunkSize)%Qc in
  let y := getHeightAt w x z in
  let id := nextId w in
  let w1 := setRng (rng w + 3)%nat (setNextId (S id) w) in
  let w2 := setNodes (<[id := Resources.new c (mkVector3 x y z)]>) w1 in
  let w3 := setScene (λ s, s ++ [NodeObject id]) w2 in
  let w4 := setObjects (λ l, l ++ [id]) w3 in
  (mkChunk (terrain chunk) (chunkObjects chunk ++ [id]) (heightMap chunk)
           (chunkX chunk) (chunkZ chunk) (sizeX chunk) (sizeZ chunk), w4).

(** [populateChunk(chunk)] *)
Definition populateChunk `{Environment} (chunk : Chunk) (w : State)
  : Chunk * State :=
  let treeCount := 5 + Js.floor (random (rng w) * Js.num 5)%Qc in
  let rockCount := 3 + Js.floor (random (S (rng w)) * Js.num 3)%Qc in
  let w1 := setRng (rng w + 2)%nat w in
  let st1 := Nat.iter (Z.to_nat treeCount) (placeObject Tree) (chunk, w1) in
  Nat.iter (Z.to_nat rockCount) (placeObject Rock) st1.

(** [generateChunk(chunkX, chunkZ)] *)
Definition generateChunk `{Environment} (k : ChunkKey) (w : State) : State :=
  let chunk := mkChunk None [] None k.1 k.2 None None in
  let '(chunk1, w1) := generateTerrainForChunk chunk w in
  let '(chunk2, w2) := populateChunk chunk1 w1 in
  setChunks (<[k := chunk2]>) w2.

(** the loop of [removeChunk] over [chunk.objects]: the call is guarded by
    [typeof object.dispose === 'function'] *)
Definition disposeObject (id : nat) (w : State) : State :=
  match nodes w !! id with
  | Some n => if hasDispose (class n) then setNodes (delete id) w else w
  | None => w
  end.

(** [removeChunk(chunkKey)] *)
Definition removeChunk (k : ChunkKey) (w : State) : State :=
  match chunks w !! k with
  | None => w
  | Some chunk =>
    let w1 :=
      match terrain chunk with
      | Some m =>
        setDisposed (λ d, d ++ [Geometry (meshId m); Material (meshId m)])
          (setScene (filter (λ o, o ≠ TerrainMesh (meshId m))) w)
      | None => w
      end in
    let w2 := foldl (λ acc id, disposeObject id acc) w1 (chunkObjects chunk) in
    let w3 :=
      if physicsEnabled w2 then
        match terrainBodies w2 !! Some k with
        | Some body =>
          setTerrainBodies (delete (Some k))
            (setPhysicsBodies (filter (λ b, b ≠ body)) w2)
        | None => w2
        end
      else w2 in
    setChunks (delete k) w3
  end.




(** The keys visited by the two nested loops of [updateChunksAroundPlayer]
    when they end, which they do as long as the counters stay below 2^53
    ([loopKeys]); [updateChunksAroundPlayer] and [update] below are the calls
    that return. *)
Definition activeKeys (playerChunkX playerChunkZ : Z) : list ChunkKey :=
  x ← seqZ (playerChunkX - viewDistance) (2 * viewDistance + 1);
  z ← seqZ (playerChunkZ - viewDistance) (2 * viewDistance + 1);
  [(x, z)].

(** [updateChunksAroundPlayer(playerChunkX, playerChunkZ)] *)
Definition updateChunksAroundPlayer `{Environment}
  (playerChunkX playerChunkZ : Z) (w : State) : State :=
  let keys := activeKeys playerChunkX playerChunkZ in
  let activeChunks : gset (Z * Z) := list_to_set keys in
  let w1 :=
    foldl (λ acc k,
             match chunks acc !! k with
             | Some _ => acc
             | None => generateChunk k acc
             end) w keys in
  foldl (λ acc k, if decide (k ∈ activeChunks) then acc else removeChunk k acc)
        w1 (map_to_list (chunks w1)).*1.

(** the chunk that contains a position *)
Definition chunkOf (p : Vector3) : ChunkKey :=
  (Js.floor (vx p / Js.num chunkSize), Js.floor (vz p / Js.num chunkSize)).

(** [update(deltaTime, player)], with the player's position for the player;
    the clouds it also moves are scenery and are left out *)
Definition update `{Environment} (deltaTime : Qc) (playerPosition : Vector3)
  (w : State) : State :=
  let current := chunkOf playerPosition in
  let w1 :=
    if decide (lastPlayerChunkCoords w = Some current) then w
    else updateChunksAroundPlayer current.1 current.2
           (setLastPlayerChunkCoords (Some current) w) in
  foldl (λ acc id, setNodes (alter (Resources.update deltaTime) id) acc)
        w1 (objects w1).

(** [checkInteraction(position, radius)]: the first object in range that
    can be interacted with, or [null] *)
Definition checkInteraction (w : State) (position : Vector3) (radius : Qc)
  : option nat :=
  List.find
    (λ id, match nodes w !! id with
           | Some n => distanceLt position (getPosition n) radius && canInteract n
           | None => false
           end)
    (objects w).

(** [getObjectsNear(position, radius)] *)
Definition getObjectsNear (w : State) (position : Vector3) (radius : Qc)
  : list nat :=
  List.filter
    (λ id, match nodes w !! id with
           | Some n => distanceLt position (getPosition n) radius
           | None => false
           end)
    (objects w).

(** [object.interact()] on the object of identity [id], called at time [now]
    (milliseconds): the reward and the world afterwards *)
Definition interact (now : Qc) (id : nat) (w : State) : option Reward * State :=
  match nodes w !! id with
  | None => (None, w)
  | Some n =>
    let '(reward, n', timeout) := Resources.interact n in
    let w1 := setNodes (<[id := n']>) w in
    match timeout with
    | Some delay =>
      (reward,
       setTimers (Timers.setTimeout (Respawn id) now (Js.num delay) (timers w1)).2 w1)
    | None => (reward, w1)
    end
  end.

(** running a closure *)
Definition run (c : Closure) (w : State) : State :=
  match c with
  | Respawn id => setNodes (alter Resources.respawn id) w
  end.

(** a pending timer fires: it leaves the queue and its closure runs *)
Definition fire (t : Timers.Timer Closure) (w : State) : State :=
  run (Timers.callback t)
      (setTimers (Timers.clearTimeout (Timers.timerId t) (timers w)) w).

(** the event loop at time [now]: every timer that is due fires; a respawn
    sets no new timer, so one pass over the queue is enough, and respawns
    commute, so the order of the pass is that of the queue *)
Definition runDueTimers (now : Qc) (w : State) : State :=
  foldl (λ acc t, fire t acc) w (Timers.dueAt now (timers w)).

(** The worlds the game can be in: built by the constructor, then driven by
    [update], by interactions and by timers. *)
Inductive reachable `{Environment} : State → Prop :=
| reach_new : reachable new
| reach_update dt p w : reachable w → reachable (update dt p w)
| reach_interact now id w : reachable w → reachable (interact now id w).2
| reach_timers now w : reachable w → reachable (runDueTimers now w).

End World.

(** ** The damage-receiving entities: EnemyUnit, AnimalUnit, the Objective *)
Module Units.
Import Resources.

(** What a unit needs from vector geometry (square roots, sines) and from
    the scene: its placement, its distance test and its motion. *)
Class Kinematics : Type := mkKinematics {
  Body : Type;                      (* position, velocity and meshes of a unit *)
  spawnBody : Qc → Body;            (* on the spawn circle at the drawn angle,
                                       with a first velocity toward the objective *)
  inReach : Body → bool;            (* position.distanceTo(targetPos) <= 2 *)
  advance : Qc → Qc → Body → Body   (* one frame of steering toward the target,
                                       terrain snap and stuck recovery:
                                       [advance now deltaTime body] *)
}.

Inductive EnemyType : Type := goblin | orc | troll | demon | warlock.

Inductive Variation : Type := normal | large | huge | quick.

(** [this.state] of an EnemyUnit: 'chase', 'attack', 'wander', 'die' *)
Inductive EnemyState : Type := Chase | Attack | Wander | Die.

Record Attributes : Type := mkAttributes {
  attrHealth : Qc;
  attrDamage : Qc;
  attrSpeed : Qc;
  attrVision : Qc;
  attrExperience : option Qc;       (* never set by EnemySystem: undefined *)
  attrVariation : Variation;
  attrScale : Qc
}.

(** the payload returned by [die()] *)
Record Loot : Type := mkLoot { experience : Qc; resources : Reward }.

Section Enemy.
Context `{Kinematics}.

Record EnemyUnit : Type := mkEnemyUnit {
  identity : nat;                   (* which object this is *)
  enemyType : EnemyType;
  attributes : Attributes;
  health : Qc;
  maxHealth : Qc;
  damage : Qc;
  lastAttackTime : Qc;              (* seconds *)
  isAlive : bool;
  state : EnemyState;
  speed : Qc;
  body : Body
}.

(** [new EnemyUnit(scene, player, world, type, position, attributes)] *)
Definition newEnemyUnit (id : nat) (t : EnemyType) (a : Attributes) (b : Body)
  : EnemyUnit :=
  mkEnemyUnit id t a (attrHealth a) (attrHealth a) (attrDamage a) 0 true Chase
              (attrSpeed a) b.

Definition setCombat (h : Qc) (alive : bool) (st : EnemyState) (e : EnemyUnit)
  : EnemyUnit :=
  mkEnemyUnit (identity e) (enemyType e) (attributes e) h (maxHealth e)
              (damage e) (lastAttackTime e) alive st (speed e) (body e).

(** [die()]: the loot (or [undefined]), the unit afterwards, and whether
    [notifyDeath()] was reached. [r1] and [r2] are its two [Math.random()].
    The death animation it starts only concerns the scene. *)
Definition die (r1 r2 : Qc) (e : EnemyUnit) : option Loot * EnemyUnit * bool :=
  if negb (isAlive e) then (None, e, false)   (* Prevent double calls *)
  else
    let e' := setCombat (health e) false Die e in
    let exp := match attrExperience (attributes e) with
               | Some x => if Qc_eq_bool x 0 then Js.num 10 else x
               | None => Js.num 10
               end in
    (Some (mkLoot exp
             (mkReward (if Js.ltb r1 (Js.frac 6 10) then wood else stone)
                       (Js.floor (r2 * Js.num 3)%Qc + 1))),
     e', true).

(** [takeDamage(amount)]: the unit afterwards, the value returned, and
    whether [notifyDeath()] was reached through [die()] *)
Definition takeDamage (amount : Qc) (r1 r2 : Qc) (e : EnemyUnit)
  : EnemyUnit * Qc * bool :=
  if negb (isAlive e) then (e, 0%Qc, false)
  else
    let e1 := setCombat (health e - amount)%Qc (isAlive e) (state e) e in
    if Js.leb (health e1) 0%Qc then
      let e2 := setCombat (health e1) false Die e1 in
      let '(_, e3, notified) := die r1 r2 e2 in
      (e3, amount, notified)
    else (e1, amount, false).

(** [update(deltaTime)] of a unit whose target is the objective: the unit
    afterwards and the damage it deals to the target this frame, if any.
    [now] is [performance.now()], in milliseconds. *)
Definition updateUnit (now deltaTime : Qc) (e : EnemyUnit)
  : EnemyUnit * option Qc :=
  if negb (isAlive e) then (e, None)
  else
    let st := if inReach (body e) then Attack else Chase in
    let nowS := (now / Js.num 1000)%Qc in
    (* attackTarget: attack on cooldown (attackCooldown = 1.0) *)
    let strikes := match st with
                   | Attack => Js.leb 1%Qc (nowS - lastAttackTime e)%Qc
                   | _ => false
                   end in
    let e' := mkEnemyUnit (identity e) (enemyType e) (attributes e) (health e)
                          (maxHealth e) (damage e)
                          (if strikes then nowS else lastAttackTime e)
                          (isAlive e) st (speed e)
                          (advance now deltaTime (body e)) in
    (e', if strikes then Some (damage e) else None).

(** A run of [update] calls on one unit, each with its [performance.now()]
    and its [deltaTime]: the unit afterwards and the strikes it dealt, each
    with the time of the call in seconds, oldest first. *)
Definition updateLogged (acc : EnemyUnit * list (Qc * Qc)) (call : Qc * Qc)
  : EnemyUnit * list (Qc * Qc) :=
  let '(e', blow) := updateUnit call.1 call.2 acc.1 in
  (e', match blow with
       | Some d => acc.2 ++ [((call.1 / Js.num 1000)%Qc, d)]
       | None => acc.2
       end).

Definition updates (calls : list (Qc * Qc)) (e : EnemyUnit)
  : EnemyUnit * list (Qc * Qc) :=
  foldl updateLogged (e, []) calls.

End Enemy.

(** *** AnimalUnit (the allied unit) *)
Inductive AnimalState : Type := seeking | attacking | wandering.

Record AnimalUnit : Type := mkAnimalUnit {
  animalHealth : Qc;
  animalMaxHealth : Qc;
  animalDamage : Qc;
  animalState : AnimalState
}.

(** [AnimalUnit.takeDamage(amount)]; the health bar it redraws is display *)
Definition animalTakeDamage (amount : Qc) (u : AnimalUnit) : AnimalUnit :=
  let h := (animalHealth u - amount)%Qc in
  mkAnimalUnit (if Js.leb h 0%Qc then 0%Qc else h)
               (animalMaxHealth u) (animalDamage u) (animalState u).

(** [AnimalUnit.isDead()] *)
Definition animalIsDead (u : AnimalUnit) : bool := Js.leb (animalHealth u) 0%Qc.

(** *** The Objective, as created by [Game.createObjective] *)
Record Objective : Type := mkObjective {
  objectiveHealth : Qc;
  objectiveMaxHealth : Qc;
  gameOverShown : nat     (* calls of Game.objectiveDestroyed() so far, each
                             of which puts a GAME OVER panel on the page *)
}.

Definition newObjective : Objective := mkObjective (Js.num 1000) (Js.num 1000) 0.

(** [Math.max(0, h)] *)
Definition clamp0 (h : Qc) : Qc := if Js.leb 0%Qc h then h else 0%Qc.

(** [context.objective.takeDamage(amount)] *)
Definition objectiveTakeDamage (amount : Qc) (o : Objective) : Objective :=
  let h := clamp0 (objectiveHealth o - amount)%Qc in
  mkObjective h (objectiveMaxHealth o)
              (if Js.leb h 0%Qc then S (gameOverShown o) else gameOverShown o).

(** [isDestroyed()] and [isDead()] *)
Definition isDestroyed (o : Objective) : bool := Js.leb (objectiveHealth o) 0%Qc.

End Units.

(** ** EnemySystem: the wave director *)
Module EnemySystem.
Import Resources Units.

(** [context.events.emit(name, enemy)] *)
Inductive Event : Type :=
| enemySpawned (id : nat)
| enemyRemoved (id : nat).

(** the closures EnemySystem hands to [setTimeout] *)
Inductive Closure : Type :=
| BurstSpawn     (* () => this.spawnWaveEnemies(1), from startNextWave *)
| SpawnOne       (* the staggered spawn of spawnWaveEnemies *)
| NextBatch.     (* the batch stored in this.nextSpawnTimeout *)

(** InventorySystem.inventory *)
Record Inventory : Type := mkInventory { woodCount : Z; stoneCount : Z }.

(** [addItem(type, amount)] *)
Definition addItem (t : ResourceType) (n : Z) (inv : Inventory) : Inventory :=
  match t with
  | wood => mkInventory (woodCount inv + n) (stoneCount inv)
  | stone => mkInventory (woodCount inv) (stoneCount inv + n)
  end.

(** InventorySystem has no method [addResource]: calling it throws a
    TypeError, so it never returns an inventory. *)
Definition addResource (t : ResourceType) (n : Z) (inv : Inventory)
  : option Inventory := None.

(** the [Math.random()] results and the failures one [spawnEnemy()] meets *)
Record SpawnDraws : Type := mkSpawnDraws {
  typeDraw : Qc;
  specialDraw : Qc;
  variationDraw : Qc;
  angleDraw : Qc;
  constructionThrows : bool   (* an exception inside the try block, before
                                 the new unit registers itself: a tower
                                 position that is not set, a mesh that
                                 cannot be built *)
}.

(** [this.enemyTypes] *)
Definition enemyTypes (t : EnemyType) : Attributes :=
  match t with
  | goblin => mkAttributes (Js.num 50) (Js.num 5) (Js.num 4) (Js.num 100) None normal 1
  | orc => mkAttributes (Js.num 100) (Js.num 10) (Js.num 3) (Js.num 100) None normal 1
  | troll => mkAttributes (Js.num 200) (Js.num 15) (Js.num 2) (Js.num 100) None normal 1
  | demon => mkAttributes (Js.num 150) (Js.num 20) (Js.num 4) (Js.num 100) None normal 1
  | warlock => mkAttributes (Js.num 80) (Js.num 25) (Js.frac 25 10) (Js.num 100) None normal 1
  end.

(** [this.enemyVariations]: scale, healthMod, damageMod, speedMod *)
Definition enemyVariations (v : Variation) : Qc * Qc * Qc * Qc :=
  match v with
  | normal => (1%Qc, 1%Qc, 1%Qc, 1%Qc)
  | large => (Js.frac 15 10, Js.num 2, Js.frac 15 10, Js.frac 8 10)
  | huge => (Js.num 2, Js.num 3, Js.num 2, Js.frac 7 10)
  | quick => (Js.frac 8 10, Js.frac 7 10, Js.frac 8 10, Js.frac 13 10)
  end.

(** [array[Math.floor(r * array.length)]] *)
Definition pick {A} (r : Qc) (l : list A) : option A :=
  let i := Js.floor (r * Js.num (Z.of_nat (length l)))%Qc in
  if i <? 0 then None else l !! Z.to_nat i.

Section Director.
Context `{Kinematics}.

Record State : Type := mkState {
  enemies : list EnemyUnit;        (* this.enemies, which context.enemies and
                                      window.enemies alias *)
  waveNumber : Z;
  enemiesRemaining : Z;
  waveInProgress : bool;
  timeUntilNextWave : Qc;          (* seconds *)
  waveStartTime : option Qc;       (* this._waveStartTime, seconds *)
  lastSpawnTime : option Qc;       (* this._lastSpawnTime, seconds *)
  nextSpawnTimeout : option nat;   (* a timer handle, or null *)
  (* the collaborators *)
  objective : Objective;
  inventory : Inventory;
  events : list Event;             (* what was emitted, oldest first *)
  timers : Timers.Queue Closure;
  nextIdentity : nat
}.

Definition setEnemies (l : list EnemyUnit) (s : State) : State :=
  mkState l (waveNumber s) (enemiesRemaining s) (waveInProgress s)
          (timeUntilNextWave s) (waveStartTime s) (lastSpawnTime s)
          (nextSpawnTimeout s) (objective s) (inventory s) (events s)
          (timers s) (nextIdentity s).

Definition setWaveNumber (n : Z) (s : State) : State :=
  mkState (enemies s) n (enemiesRemaining s) (waveInProgress s)
          (timeUntilNextWave s) (waveStartTime s) (lastSpawnTime s)
          (nextSpawnTimeout s) (objective s) (inventory s) (events s)
          (timers s) (nextIdentity s).

Definition setEnemiesRemaining (n : Z) (s : State) : State :=
  mkState (enemies s) (waveNumber s) n (waveInProgress s)
          (timeUntilNextWave s) (waveStartTime s) (lastSpawnTime s)
          (nextSpawnTimeout s) (objective s) (inventory s) (events s)
          (timers s) (nextIdentity s).

Definition setWaveInProgress (b : bool) (s : State) : State :=
  mkState (enemies s) (waveNumber s) (enemiesRemaining s) b
          (timeUntilNextWave s) (waveStartTime s) (lastSpawnTime s)
          (nextSpawnTimeout s) (objective s) (inventory s) (events s)
          (timers s) (nextIdentity s).

Definition setTimeUntilNextWave (t : Qc) (s : State) : State :=
  mkState (enemies s) (waveNumber s) (enemiesRemaining s) (waveInProgress s)
          t (waveStartTime s) (lastSpawnTime s)
          (nextSpawnTimeout s) (objective s) (inventory s) (events s)
          (timers s) (nextIdentity s).

Definition setWaveStartTime (t : option Qc) (s : State) : State :=
  mkState (enemies s) (waveNumber s) (enemiesRemaining s) (waveInProgress s)
          (timeUntilNextWave s) t (lastSpawnTime s)
          (nextSpawnTimeout s) (objective s) (inventory s) (events s)
          (timers s) (nextIdentity s).

Definition setLastSpawnTime (t : option Qc) (s : State) : State :=
  mkState (enemies s) (waveNumber s) (enemiesRemaining s) (waveInProgress s)
          (timeUntilNextWave s) (waveStartTime s) t
          (nextSpawnTimeout s) (objective s) (inventory s) (events s)
          (timers s) (nextIdentity s).

Definition setNextSpawnTimeout (t : option nat) (s : State) : State :=
  mkState (enemies s) (waveNumber s) (enemiesRemaining s) (waveInProgress s)
          (timeUntilNextWave s) (waveStartTime s) (lastSpawnTime s)
          t (objective s) (inventory s) (events s)
          (timers s) (nextIdentity s).

Definition setObjective (o : Objective) (s : State) : State :=
  mkState (enemies s) (waveNumber s) (enemiesRemaining s) (waveInProgress s)
          (timeUntilNextWave s) (waveStartTime s) (lastSpawnTime s)
          (nextSpawnTimeout s) o (inventory s) (events s)
          (timers s) (nextIdentity s).

Definition setInventory (i : Inventory) (s : State) : State :=
  mkState (enemies s) (waveNumber s) (enemiesRemaining s) (waveInProgress s)
          (timeUntilNextWave s) (waveStartTime s) (lastSpawnTime s)
          (nextSpawnTimeout s) (objective s) i (events s)
          (timers s) (nextIdentity s).

Definition emit (e : Event) (s : State) : State :=
  mkState (enemies s) (waveNumber s) (enemiesRemaining s) (waveInProgress s)
          (timeUntilNextWave s) (waveStartTime s) (lastSpawnTime s)
          (nextSpawnTimeout s) (objective s) (inventory s) (events s ++ [e])
          (timers s) (nextIdentity s).

Definition setTimers (q : Timers.Queue Closure) (s : State) : State :=
  mkState (enemies s) (waveNumber s) (enemiesRemaining s) (waveInProgress s)
          (timeUntilNextWave s) (waveStartTime s) (lastSpawnTime s)
          (nextSpawnTimeout s) (objective s) (inventory s) (events s)
          q (nextIdentity s).

Definition setNextIdentity (n : nat) (s : State) : State :=
  mkState (enemies s) (waveNumber s) (enemiesRemaining s) (waveInProgress s)
          (timeUntilNextWave s) (waveStartTime s) (lastSpawnTime s)
          (nextSpawnTimeout s) (objective s) (inventory s) (events s)
          (timers s) n.

(** the constructor, the inventory holding the starting resources *)
Definition new : State :=
  mkState [] 0 0 false (Js.num 5) None None None newObjective
          (mkInventory 25 15) [] Timers.empty 0%nat.

(** a number used as a condition: [undefined] and 0 are falsy *)
Definition truthy (t : option Qc) : bool :=
  match t with
  | Some x => negb (Qc_eq_bool x 0)
  | None => false
  end.

(** [setTimeout(cb, delay)] at time [now]; the handle and the state *)
Definition setTimeout (cb : Closure) (now delay : Qc) (s : State) : nat * State :=
  let '(id, q) := Timers.setTimeout cb now delay (timers s) in
  (id, setTimers q s).

Definition clearTimeout (id : nat) (s : State) : State :=
  setTimers (Timers.clearTimeout id (timers s)) s.

(** the enemy types unlocked at wave [w] *)
Definition availableTypes (w : Z) : list EnemyType :=
  let unlocked :=
    (if 1 <=? w then [goblin] else [])
    ++ (if 3 <=? w then [orc] else [])
    ++ (if 5 <=? w then [troll] else [])
    ++ (if 7 <=? w then [demon] else [])
    ++ (if 9 <=? w then [warlock] else []) in
  match unlocked with
  | [] => [goblin]
  | _ => unlocked
  end.

(** The roster holds references, and an enemy that is in it twice is one
    object: what a method does to it shows at every place that holds it. *)
Definition mutate (e' : EnemyUnit) (l : list EnemyUnit) : list EnemyUnit :=
  (λ e, if decide (identity e = identity e') then e' else e) <$> l.

(** [spawnEnemy()]: the identity of the enemy created, or [null]. The
    constructor of EnemyUnit ends [createMesh] with
    [context.registerEnemy(this)]: the context is found (Game sets
    [scene.userData.context]), its [enemies] is the array [this.enemies]
    (registered in the constructor of EnemySystem), and [indexOf] does not
    find the new object there, so the unit is pushed and 'enemySpawned'
    emitted. [spawnEnemy] then pushes it and emits the event itself. *)
Definition spawnEnemy (d : SpawnDraws) (s : State) : option nat * State :=
  let variation :=
    if Js.ltb (specialDraw d) (Js.frac 15 100)
    then pick (variationDraw d) [large; huge; quick]
    else Some normal in
  match pick (typeDraw d) (availableTypes (waveNumber s)), variation with
  | Some enemyType, Some v =>
    if constructionThrows d then (None, s)
    else
      let base := enemyTypes enemyType in
      (* The scaled health and damage are floors of products that exact
         arithmetic makes integers (50 * 2.3 = 115), so the rounding of each
         operation decides them (114): every step is rounded as the code
         rounds it. *)
      let waveScaling :=
        Js.double (1 + Js.double (Js.num (waveNumber s - 1)
                                  * Js.double (Js.frac 1 10)))%Qc in
      let '(scale, healthMod, damageMod, speedMod) := enemyVariations v in
      let scaled (attribute modifier : Qc) : Qc :=
        Js.double (Js.double (attribute * waveScaling) * Js.double modifier)%Qc in
      let attributes :=
        mkAttributes
          (Js.num (Js.floor (scaled (attrHealth base) healthMod)))
          (Js.num (Js.floor (scaled (attrDamage base) damageMod)))
          (Js.double (attrSpeed base * Js.double speedMod))%Qc
          (attrVision base) (attrExperience base) v (Js.double scale) in
      let id := nextIdentity s in
      let enemy := newEnemyUnit id enemyType attributes (spawnBody (angleDraw d)) in
      let s1 := setNextIdentity (S id) s in
      (* new EnemyUnit(...): context.registerEnemy(this) *)
      let s2 := emit (enemySpawned id) (setEnemies (enemies s1 ++ [enemy]) s1) in
      (* this.enemies.push(enemy); events.emit('enemySpawned', enemy) *)
      let s3 := emit (enemySpawned id) (setEnemies (enemies s2 ++ [enemy]) s2) in
      (Some id, s3)
  | _, _ => (None, s)        (* a lookup on undefined throws: caught *)
  end.

(** the staggered callback of [spawnWaveEnemies]: one spawn attempt, then
    [this.enemiesRemaining--] whether it succeeded or not *)
Definition spawnOne (d : SpawnDraws) (s : State) : State :=
  let s1 := (spawnEnemy d s).2 in
  setEnemiesRemaining (enemiesRemaining s1 - 1) s1.

(** the body of the two scheduling loops: closure [c] is handed to
    [setTimeout] with delay [i * gap] if enemies remain to spawn *)
Definition schedule (c : Closure) (now : Qc) (gap : Z) (acc : State) (i : Z)
  : State :=
  if 0 <? enemiesRemaining acc
  then (setTimeout c now (Js.num (i * gap)) acc).2
  else acc.

(** [spawnWaveEnemies(count)] at time [now]; [r] is the [Math.random()] of
    the delay of the next batch *)
Definition spawnWaveEnemies (now : Qc) (r : Qc) (count : Z) (s : State) : State :=
  let s1 := setLastSpawnTime (Some (now / Js.num 1000)%Qc) s in
  let actualCount := Z.min count (enemiesRemaining s1) in
  let s2 := foldl (schedule SpawnOne now 800) s1 (seqZ 0 actualCount) in
  if 0 <? enemiesRemaining s2 then
    let s3 := match nextSpawnTimeout s2 with
              | Some id => clearTimeout id s2
              | None => s2
              end in
    let '(id, s4) :=
      setTimeout NextBatch now (Js.num 4000 + r * Js.num 4000)%Qc s3 in
    setNextSpawnTimeout (Some id) s4
  else s2.

(** the callback stored in [nextSpawnTimeout] *)
Definition nextBatch (now : Qc) (r : Qc) (s : State) : State :=
  let s1 := setNextSpawnTimeout None s in
  let spawnCount :=
    Z.min (1 + waveNumber s1 / 3) (Z.min (enemiesRemaining s1) 3) in
  spawnWaveEnemies now r spawnCount s1.

(** [startNextWave()] at time [now] *)
Definition startNextWave (now : Qc) (s : State) : State :=
  let s1 := setWaveInProgress true (setWaveNumber (waveNumber s + 1) s) in
  let s2 := setLastSpawnTime (Some (now / Js.num 1000)%Qc)
              (setWaveStartTime (Some (now / Js.num 1000)%Qc) s1) in
  let s3 := setEnemiesRemaining (Z.min (5 + waveNumber s2 * 2) 30) s2 in
  let initialSpawns := Z.min (3 + waveNumber s3 / 2) 10 in
  foldl (schedule BurstSpawn now 500) s3 (seqZ 0 initialSpawns).

(** [completeWave()] *)
Definition completeWave (s : State) : State :=
  let s1 := match nextSpawnTimeout s with
            | Some id => setNextSpawnTimeout None (clearTimeout id s)
            | None => s
            end in
  let s2 := setEnemies [] s1 in    (* every enemy left is disposed and removed *)
  let woodReward := waveNumber s2 * 3 + enemiesRemaining s2 * 2 in
  let stoneReward := waveNumber s2 + enemiesRemaining s2 in
  let s3 := setInventory
              (addItem stone stoneReward (addItem wood woodReward (inventory s2)))
              s2 in
  setEnemiesRemaining 0
    (setTimeUntilNextWave (Js.num (20 + waveNumber s3 * 2))
       (setWaveInProgress false s3)).

(** what [notifyDeath()] does to the director when [die()] reaches it: the
    event, then the unit is spliced out of each of the three names of the
    roster array *)
Definition removeFirst (id : nat) (l : list EnemyUnit) : list EnemyUnit :=
  match list_find (λ e, identity e = id) l with
  | Some (i, _) => delete i l
  | None => l
  end.

Definition notifyDeath (id : nat) (s : State) : State :=
  let s1 := emit (enemyRemoved id) s in
  setEnemies (removeFirst id (removeFirst id (removeFirst id (enemies s1)))) s1.

(** an attack on the enemy of identity [id] (the player's blow, an allied
    unit's bite): [enemy.takeDamage(amount)] *)
Definition damageEnemy (id : nat) (amount r1 r2 : Qc) (s : State) : State :=
  match list_find (λ e, identity e = id) (enemies s) with
  | None => s
  | Some (i, e) =>
    let '(e', _, notified) := takeDamage amount r1 r2 e in
    let s1 := setEnemies (mutate e' (enemies s)) s in
    if notified then notifyDeath id s1 else s1
  end.

(** The first loop of [update]: the enemies that are not alive are disposed
    and spliced out; the others keep their order. *)
Definition cleanUp (s : State) : State :=
  setEnemies (filter (λ e, isAlive e = true) (enemies s)) s.

(** One iteration of the second loop of [update], at index [i]. *)
Definition updateEnemyAt (now deltaTime r1 r2 : Qc) (i : nat) (s : State)
  : State :=
  match enemies s !! i with
  | None => s                          (* nothing at this index any more *)
  | Some enemy =>
    if negb (isAlive enemy) then
      (* the loot of enemy.die(), under try/catch *)
      let '(loot, enemy', notified) := die r1 r2 enemy in
      let s1 := setEnemies (mutate enemy' (enemies s)) s in
      let s2 := if notified then notifyDeath (identity enemy) s1 else s1 in
      let s3 := match loot with
                | Some l =>
                  match addResource (type (resources l)) (amount (resources l))
                                    (inventory s2) with
                  | Some inv => setInventory inv s2
                  | None => s2       (* the TypeError is caught and logged *)
                  end
                | None => s2
                end in
      emit (enemyRemoved (identity enemy))
           (setEnemies (delete i (enemies s3)) s3)
    else
      (* enemy.target = this.objective; enemy.update(deltaTime) *)
      let '(enemy', blow) := updateUnit now deltaTime enemy in
      let s1 := setEnemies (mutate enemy' (enemies s)) s in
      match blow with
      | Some amount => setObjective (objectiveTakeDamage amount (objective s1)) s1
      | None => s1
      end
  end.

(** the second loop, from the last index down to 0 *)
Fixpoint updateEnemies (now deltaTime r1 r2 : Qc) (n : nat) (s : State) : State :=
  match n with
  | O => s
  | S i => updateEnemies now deltaTime r1 r2 i
             (updateEnemyAt now deltaTime r1 r2 i s)
  end.

(** The blocks of [update(deltaTime)], in the order of the source; [now] is
    [performance.now()], in milliseconds. *)

(** "if a wave has been going for over 60 seconds, ensure it progresses" *)
Definition waveWatchdog (now : Qc) (s : State) : State :=
  match waveStartTime s with
  | Some start =>
    if waveInProgress s && truthy (waveStartTime s)
       && Js.ltb (Js.num 60) (now / Js.num 1000 - start)%Qc
       && bool_decide (enemies s = [])
    then setEnemiesRemaining 0 s
    else s
  | None => s
  end.

(** "Handle wave mechanics" *)
Definition waveMechanics (now deltaTime : Qc) (s : State) : State :=
  if waveInProgress s then
    if bool_decide (enemies s = []) && (enemiesRemaining s =? 0)
    then completeWave s
    else s
  else
    let s' := setTimeUntilNextWave (timeUntilNextWave s - deltaTime)%Qc s in
    if Js.leb (timeUntilNextWave s') 0%Qc then startNextWave now s' else s'.

(** "if countdown is at 0 but we're not progressing" *)
Definition stuckCountdown (now : Qc) (s : State) : State :=
  if Js.leb (timeUntilNextWave s) 0%Qc && negb (waveInProgress s)
  then startNextWave now s
  else s.

(** "Cancel any excessively delayed spawns (over 30 seconds old)"; [r] is
    the random delay drawn when the batch is scheduled again *)
Definition spawnWatchdog (now r : Qc) (s : State) : State :=
  match nextSpawnTimeout s, lastSpawnTime s with
  | Some id, Some last =>
    if waveInProgress s && truthy (lastSpawnTime s)
       && Js.ltb (Js.num 30) (now / Js.num 1000 - last)%Qc
    then
      let s' := setNextSpawnTimeout None (clearTimeout id s) in
      if 0 <? enemiesRemaining s' then
        spawnWaveEnemies now r (enemiesRemaining s') s'
      else if bool_decide (enemies s' = []) then completeWave s'
      else s'
    else s
  | _, _ => s
  end.

(** [update(deltaTime)]; [r1 r2] are the draws of a [die()] that runs *)
Definition update (now deltaTime r r1 r2 : Qc) (s : State) : State :=
  let s1 := waveWatchdog now s in
  let s2 := waveMechanics now deltaTime s1 in
  let s3 := stuckCountdown now s2 in
  let s4 := spawnWatchdog now r s3 in
  let s5 := cleanUp s4 in
  updateEnemies now deltaTime r1 r2 (length (enemies s5)) s5.

(** a pending timer fires at time [now] *)
Definition fire (now r : Qc) (d : SpawnDraws) (t : Timers.Timer Closure)
  (s : State) : State :=
  let s1 := clearTimeout (Timers.timerId t) s in
  match Timers.callback t with
  | BurstSpawn => spawnWaveEnemies now r 1 s1
  | SpawnOne => spawnOne d s1
  | NextBatch => nextBatch now r s1
  end.

(** What can happen to the director, one event at a time. *)
Inductive step : State → State → Prop :=
| step_update now deltaTime r r1 r2 s :
    step s (update now deltaTime r r1 r2 s)
| step_fire now r d t s :
    t ∈ Timers.pending (timers s) →
    (Timers.due t ≤ now)%Qc →
    step s (fire now r d t s)
| step_damage id amount r1 r2 s :
    step s (damageEnemy id amount r1 r2 s).

End Director.

End EnemySystem.

(** ** Vocabulary for the properties of the World *)
Module WorldSpec.
Import Resources World.

(** a chunk as [generateChunk] stores it: its key is its coordinates, and it
    carries no height grid *)
Definition fresh (k : Z * Z) (c : Chunk) : Prop :=
  heightMap c = None ∧ (chunkX c, chunkZ c) = k.

Definition allFresh (w : State) : Prop :=
  ∀ k c, chunks w !! k = Some c → fresh k c.

(** the body of the first loop of [updateChunksAroundPlayer] *)
Definition generateMissing `{Environment} (acc : State) (k : Z * Z) : State :=
  match chunks acc !! k with
  | Some _ => acc
  | None => generateChunk k acc
  end.

(** the body of its second loop *)
Definition removeInactive (active : gset (Z * Z)) (acc : State) (k : Z * Z)
  : State :=
  if decide (k ∈ active) then acc else removeChunk k acc.

(** [updateChunksAroundPlayer] for any list of active keys *)
Definition reconcile `{Environment} (keys : list (Z * Z)) (w : State) : State :=
  let active : gset (Z * Z) := list_to_set keys in
  let w1 := foldl generateMissing w keys in
  foldl (removeInactive active) w1 (map_to_list (chunks w1)).*1.

(** what holds of the chunk map in every reachable world *)
Definition streamed (w : State) : Prop :=
  allFresh w
  ∧ match lastPlayerChunkCoords w with
    | Some c => dom (chunks w) = list_to_set (activeKeys c.1 c.2)
    | None => chunks w = ∅
    end.

(** the node after an interaction that does not deplete it, and after the
    one that does *)
Definition hit (n : Node) : Node :=
  mkNode (class n) (position n) (health n - 25) (resourceType n)
         (resourceAmount n) (respawnTime n) (interactionEnabled n) (visible n)
         (Js.frac 95 100).

Definition deplete (n : Node) : Node :=
  mkNode (class n) (position n) (health n - 25) (resourceType n)
         (resourceAmount n) (respawnTime n) false false (Js.frac 95 100).

(** no pending timer refers to an object of the chunk [evicted] *)
Definition noDanglingTimers (evicted : Chunk) (w : State) : Prop :=
  ∀ t id, t ∈ Timers.pending (timers w) → Timers.callback t = Respawn id →
          id ∉ chunkObjects evicted.

End WorldSpec.

(** ** Vocabulary for the properties of the wave director *)
Module DirectorSpec.
Import Units EnemySystem.

Section Director.
Context `{Kinematics}.

(** [k] timers of closure [c], the first with handle [n0] and due at [now],
    the next ones [gap] milliseconds apart *)
Definition staggered (c : Closure) (now : Qc) (gap : Z) (n0 : nat) (k : Z)
  : list (Timers.Timer Closure) :=
  (λ i, Timers.mkTimer (n0 + Z.to_nat i)%nat (now + Js.num (i * gap))%Qc c)
    <$> seqZ 0 k.

(** the enemies of a wave: [Math.min(5 + this.waveNumber * 2, 30)] *)
Definition waveTotal (w : Z) : Z := Z.min (5 + 2 * w) 30.

(** [enemies.length] plus the enemies still to spawn *)
Definition accounted (s : State) : Z :=
  Z.of_nat (length (enemies s)) + enemiesRemaining s.

(** the enemies in the roster, each once however often the array holds it *)
Definition fielded (s : State) : list nat :=
  remove_dups (identity <$> enemies s).

(** enemies in the roster, each counted once, plus enemies still to spawn *)
Definition outstanding (s : State) : Z :=
  Z.of_nat (length (fielded s)) + enemiesRemaining s.

(** the draws of a spawn are results of [Math.random()] *)
Definition drawn (d : SpawnDraws) : Prop :=
  (0 ≤ typeDraw d)%Qc ∧ (typeDraw d < 1)%Qc
  ∧ (0 ≤ specialDraw d)%Qc ∧ (specialDraw d < 1)%Qc
  ∧ (0 ≤ variationDraw d)%Qc ∧ (variationDraw d < 1)%Qc
  ∧ (0 ≤ angleDraw d)%Qc ∧ (angleDraw d < 1)%Qc.

(** the identity of the next unit is not in use *)
Definition freshIdentities (s : State) : Prop :=
  ∀ e, e ∈ enemies s → (identity e < nextIdentity s)%nat.

(** from [s] to [s'] no enemy has joined the roster and no identity was
    handed out *)
Definition thinned (s s' : State) : Prop :=
  identity <$> enemies s' ⊆ identity <$> enemies s
  ∧ nextIdentity s' = nextIdentity s.

(** from [s] to [s'] the wave number does not go back, and as long as it
    stays the same the outstanding enemies do not grow (above 0) *)
Definition calm (s s' : State) : Prop :=
  waveNumber s ≤ waveNumber s'
  ∧ (waveNumber s' = waveNumber s → outstanding s' ≤ Z.max (outstanding s) 0).

(** [during w s s']: [s'] is reached from [s] by events of the director, all
    of them within wave [w] *)
Inductive during (w : Z) : State → State → Prop :=
| during_start s : waveNumber s = w → during w s s
| during_step s s' s'' :
    during w s s' → step s' s'' → waveNumber s'' = w → during w s s''.

(** the part of the state that paces the waves *)
Definition pacing (s : State)
  : Z * Z * bool * Qc * option Qc * option Qc * option nat * Timers.Queue Closure :=
  (waveNumber s, enemiesRemaining s, waveInProgress s, timeUntilNextWave s,
   waveStartTime s, lastSpawnTime s, nextSpawnTimeout s, timers s).

(** every enemy of the roster is alive *)
Definition allAlive (s : State) : Prop :=
  Forall (λ e, isAlive e = true) (enemies s).

(** a queue once the timer of handle [o], if any, is cleared *)
Definition withoutHandle (o : option nat) (l : list (Timers.Timer Closure))
  : list (Timers.Timer Closure) :=
  match o with
  | Some old => filter (λ t, Timers.timerId t ≠ old) l
  | None => l
  end.

(** the handle kept in [nextSpawnTimeout] is one that was handed out *)
Definition handleIssued (s : State) : Prop :=
  ∀ id, nextSpawnTimeout s = Some id → (id < Timers.nextTimerId (timers s))%nat.

End Director.
End DirectorSpec.

(** ** A concrete collaborator set, for running the model *)
Module Scenario.
Import World.

(** The vertices of three.js [PlaneGeometry(50, 50, 32, 32)] after
    [rotateX(-Math.PI / 2)]: 33 rows of 33 vertices, each coordinate running
    from -25 to 25 in steps of 50/32, x fastest. *)
Definition planeGeometry : list (Qc * Qc) :=
  iz ← seqZ 0 33;
  ix ← seqZ 0 33;
  [((Js.num ix * Js.frac 50 32 - Js.num 25)%Qc,
    (Js.num iz * Js.frac 50 32 - Js.num 25)%Qc)].

(** flat noise of value 1, [Math.random()] always 0, physics present *)
Definition flat : Environment :=
  mkEnvironment (λ _ _, 1%Qc) (λ _, 0%Qc) planeGeometry true.

Definition origin : Vector3 := vec 0 0 0.

(** the world after the first frame, the player standing at the origin *)
Definition firstFrame : State := update (H := flat) 0 origin new.

(** In [firstFrame] the first chunk generated is (-2,-2): its mesh has
    identity 0, its physics body 1, its trees 2 to 6 and its rocks 7 to 9.
    The player harvests tree 2 with four interactions at time 0. *)
Definition harvested : State :=
  let w1 := (interact 0 2 firstFrame).2 in
  let w2 := (interact 0 2 w1).2 in
  let w3 := (interact 0 2 w2).2 in
  (interact 0 2 w3).2.

(** then walks 1000 units east, which evicts every chunk of [firstFrame] *)
Definition farAway : Vector3 := vec (Js.num 1000) 0 0.

Definition movedAway : State := update (H := flat) 0 farAway harvested.

(** the heights held by the terrain mesh of the chunk under key [k] *)
Definition terrainHeights (w : State) (k : Z * Z) : option (list Q) :=
  chunk ← chunks w !! k;
  mesh ← terrain chunk;
  Some (this <$> vertexHeights mesh).

(** The grid of the specification's example, 32 rows of 32 samples: the
    corners of cell (0,0) are 1 and 3 on the first row, 5 and 7 on the
    second; every other sample is 0. *)
Definition exampleGrid : list Qc :=
  [Js.num 1; Js.num 3] ++ replicate 30 0%Qc
  ++ [Js.num 5; Js.num 7] ++ replicate 30 0%Qc
  ++ replicate (30 * 32) 0%Qc.

(** a world whose chunk (0,0) carries that grid *)
Definition exampleWorld : State :=
  setChunks (<[(0, 0) := mkChunk None [] (Some exampleGrid) 0 0 None None]>) new.

(** one grid cell is 50/32 world units wide *)
Definition cell : Qc := Js.frac 50 32.

(** *** The director *)

(** units that stand still, out of reach of the objective *)
Definition still : Units.Kinematics :=
  Units.mkKinematics unit (λ _, tt) (λ _, false) (λ _ _ b, b).

(** units that stand within reach of the objective *)
Definition atTheGate : Units.Kinematics :=
  Units.mkKinematics unit (λ _, tt) (λ _, true) (λ _ _ b, b).

(** a spawn with all its draws at 0 that goes through, and one that throws *)
Definition spawnOk : EnemySystem.SpawnDraws :=
  EnemySystem.mkSpawnDraws (Js.frac 1 2) (Js.frac 1 2) 0 0 false.

Definition spawnFails : EnemySystem.SpawnDraws :=
  EnemySystem.mkSpawnDraws (Js.frac 1 2) (Js.frac 1 2) 0 0 true.

(** the first frame of the director, 5 seconds into the game: the countdown
    reaches 0 and wave 1 starts, at time 5000 ms *)
Definition waveOne : EnemySystem.State (H := still) :=
  EnemySystem.update (Js.num 5000) (Js.num 5) 0 0 0 EnemySystem.new.

(** the first timer of the burst, handle 1 *)
Definition burstTimer : Timers.Timer EnemySystem.Closure :=
  Timers.mkTimer 1 (Js.num 5000 + Js.num (0 * 500))%Qc EnemySystem.BurstSpawn.

(** it fires: [spawnWaveEnemies(1)] queues one spawn (handle 4) and the next
    batch (handle 5) *)
Definition burstFired : EnemySystem.State (H := still) :=
  EnemySystem.fire (Js.num 5000) (Js.frac 1 2) spawnOk burstTimer waveOne.

Definition spawnTimer : Timers.Timer EnemySystem.Closure :=
  Timers.mkTimer 4 (Js.num 5000 + Js.num (0 * 800))%Qc EnemySystem.SpawnOne.

(** the queued spawn fires and succeeds: a goblin of identity 0, which the
    roster array then holds twice *)
Definition goblinSpawned : EnemySystem.State (H := still) :=
  EnemySystem.fire (Js.num 5000) (Js.frac 1 2) spawnOk spawnTimer burstFired.

(** the queued spawn fires and fails *)
Definition spawnFailed : EnemySystem.State (H := still) :=
  EnemySystem.fire (Js.num 5000) (Js.frac 1 2) spawnFails spawnTimer burstFired.

(** the player kills the goblin (health 50) with one blow of 60 *)
Definition goblinKilled : EnemySystem.State (H := still) :=
  EnemySystem.damageEnemy 0 (Js.num 60) 0 0 goblinSpawned.

(** the next frame of the director *)
Definition afterCleanup : EnemySystem.State (H := still) :=
  EnemySystem.update (Js.num 5016) (Js.frac 16 1000) 0 0 0 goblinKilled.

(** a wave whose batch timeout never fired: 31 seconds after [burstFired],
    with the spawn and the batch still pending *)
Definition stalled : EnemySystem.State (H := still) :=
  EnemySystem.update (Js.num 36000) (Js.frac 16 1000) (Js.frac 1 2) 0 0 burstFired.

(** a wave left with nothing alive: [spawnFailed] seen again after 61 s *)
Definition abandoned : EnemySystem.State (H := still) :=
  EnemySystem.update (Js.num 66000) (Js.frac 16 1000) (Js.frac 1 2) 0 0 spawnFailed.

(** the timer of handle [e.2] fires at time [e.1]; the spawns go through and
    the delay of a batch is drawn at 1/2, which makes it 6 seconds *)
Definition fireAt (s : EnemySystem.State (H := still)) (e : Z * nat)
  : EnemySystem.State (H := still) :=
  match list_find (λ t, Timers.timerId t = e.2)
                  (Timers.pending (EnemySystem.timers s)) with
  | Some (_, t) => EnemySystem.fire (Js.num e.1) (Js.frac 1 2) spawnOk t s
  | None => s
  end.

(** Wave 1 with every timer firing when it is due: the three closures of the
    burst (handles 1, 2, 3), each followed by the spawn it queues, then four
    batches of one spawn, 6 seconds apart. After the seventh spawn, at 30 s,
    nothing remains to spawn, and the batch timeout set by the last batch
    (handle 17, due at 36 s) is pending. *)
Definition allSpawned : EnemySystem.State (H := still) :=
  foldl fireAt waveOne
    [(5000, 1%nat); (5000, 4%nat); (5500, 2%nat); (5500, 6%nat);
     (6000, 3%nat); (6000, 8%nat); (12000, 9%nat); (12000, 10%nat);
     (18000, 11%nat); (18000, 12%nat); (24000, 13%nat); (24000, 14%nat);
     (30000, 15%nat); (30000, 16%nat)].

(** that last batch fires on time *)
Definition lastBatch : EnemySystem.State (H := still) :=
  fireAt allSpawned (36000, 17%nat).

(** or it does not fire, and the director sees it pending at 61 s, more than
    30 seconds after the last spawn call *)
Definition batchOverdue : EnemySystem.State (H := still) :=
  EnemySystem.update (Js.num 61000) (Js.frac 16 1000) (Js.frac 1 2) 0 0 allSpawned.

End Scenario.

(** ** InventorySystem *)
Module InventorySystem.

(** [this.inventory]: an object used as a map from item names to counts;
    [hasOwnProperty(type)] is a lookup that succeeds. The counters shown on
    the page and the "+n" animation of [addItem] are display. *)
Definition new : gmap string Z := <["wood" := 0]> (<["stone" := 0]> ∅).

(** [addItem(type, amount)]: the value returned and the inventory afterwards *)
Definition addItem (type : string) (amount : Z) (inventory : gmap string Z)
  : bool * gmap string Z :=
  match inventory !! type with
  | Some count => (true, <[type := count + amount]> inventory)
  | None => (false, inventory)
  end.

(** [removeItem(type, amount)] *)
Definition removeItem (type : string) (amount : Z) (inventory : gmap string Z)
  : bool * gmap string Z :=
  match inventory !! type with
  | Some count =>
    if amount <=? count then (true, <[type := count - amount]> inventory)
    else (false, inventory)
  | None => (false, inventory)
  end.

(** [getItemCount(type)] *)
Definition getItemCount (type : string) (inventory : gmap string Z) : Z :=
  match inventory !! type with
  | Some count => count
  | None => 0
  end.

(** the calls a client can make *)
Inductive Call : Type :=
| AddItem (type : string) (amount : Z)
| RemoveItem (type : string) (amount : Z).

Definition call (c : Call) (inventory : gmap string Z) : gmap string Z :=
  match c with
  | AddItem type amount => (addItem type amount inventory).2
  | RemoveItem type amount => (removeItem type amount inventory).2
  end.

Definition amountOf (c : Call) : Z :=
  match c with AddItem _ a => a | RemoveItem _ a => a end.

End InventorySystem.

(** ** EventBus

    Callbacks are function objects, compared by reference: each one is an
    identity in [nat]. *)
Module EventBus.

(** [this.listeners], a Map from event names to arrays of callbacks *)
Definition new : gmap string (list nat) := ∅.


(** [off(event, callback)]: [indexOf] finds the first occurrence *)
Definition off (event : string) (callback : nat) (listeners : gmap string (list nat))
  : gmap string (list nat) :=
  match listeners !! event with
  | None => listeners
  | Some callbacks =>
    match list_find (λ c, c = callback) callbacks with
    | Some (index, _) => <[event := delete index callbacks]> listeners
    | None => listeners
    end
  end.

(** [emit(event, data)]: the calls made, in order, for callbacks that do not
    subscribe or unsubscribe while they run *)
Definition emit {D : Type} (event : string) (data : D)
  (listeners : gmap string (list nat)) : list (nat * D) :=
  match listeners !! event with
  | None => []
  | Some callbacks => (λ callback, (callback, data)) <$> callbacks
  end.

(** the callbacks subscribed to an event *)
Definition subscribers (event : string) (listeners : gmap string (list nat))
  : list nat :=
  match listeners !! event with Some callbacks => callbacks | None => [] end.

End EventBus.

(** ** GameContext: the registry of systems and the shared enemy roster *)
Module GameContext.

Record State : Type := mkState {
  systems : gmap string nat;        (* this.systems, the systems by identity *)
  enemies : option (list nat);      (* this.enemies: null, or the registered
                                       array, here the identities it holds *)
  emitted : list (string * nat)     (* what went through this.events.emit *)
}.

(** the constructor; [systems] starts with four names bound to [null], which
    reads the same as an unbound name *)
Definition new : State := mkState ∅ None [].

(** [registerSystem(name, system)] *)
Definition registerSystem (name : string) (system : nat) (c : State) : State :=
  mkState (<[name := system]> (systems c)) (enemies c) (emitted c).

(** [getSystem(name)] *)
Definition getSystem (name : string) (c : State) : option nat := systems c !! name.

(** [registerEnemies(enemiesCollection)] *)
Definition registerEnemies (enemiesCollection : list nat) (c : State) : State :=
  mkState (systems c) (Some enemiesCollection) (emitted c).

(** [registerEnemy(enemy)] *)
Definition registerEnemy (enemy : nat) (c : State) : State :=
  let roster := match enemies c with Some l => l | None => [] end in
  if decide (enemy ∈ roster) then c
  else mkState (systems c) (Some (roster ++ [enemy]))
               (emitted c ++ [("enemySpawned"%string, enemy)]).

(** [getEnemies()] *)
Definition getEnemies (c : State) : list nat :=
  match enemies c with Some l => l | None => [] end.

(** What [EnemySystem.spawnEnemy] does to the roster array, which is the one
    [registerEnemies] made [context.enemies]: [new EnemyUnit(...)] ends
    [createMesh] with [context.registerEnemy(this)], and [spawnEnemy] then
    runs [this.enemies.push(enemy)] and emits 'enemySpawned'. [createMesh]
    finds the context through [scene.userData.context], which Game sets, or
    through [window.gameContext], which the constructor of GameContext sets. *)
Definition constructEnemyUnit (enemy : nat) (c : State) : State :=
  registerEnemy enemy c.

Definition trackSpawned (enemy : nat) (c : State) : State :=
  mkState (systems c) (Some (getEnemies c ++ [enemy]))
          (emitted c ++ [("enemySpawned"%string, enemy)]).

End GameContext.

(** ** Player: combat and motion *)
Module Player.

(** the closures Player hands to [setTimeout] *)
Inductive Closure : Type :=
| EndAttack      (* () => { this.isAttacking = false }, from startAttack *)
| Revive.        (* the reset of die() *)

Record State : Type := mkState {
  health : Qc;
  maxHealth : Qc;
  damage : Qc;
  isAttacking : bool;
  lastAttackTime : Qc;             (* seconds *)
  isInvulnerable : bool;
  lastDamageTime : Qc;             (* seconds *)
  x : Qc;                          (* this.position *)
  y : Qc;
  z : Qc;
  verticalVelocity : Qc;
  isOnGround : bool;
  timers : Timers.Queue Closure
}.

(** fields of the constructor that are never reassigned *)
Definition moveSpeed : Qc := Js.num 5.
Definition gravity : Qc := Js.frac (-98) 10.
Definition jumpForce : Qc := Js.num 5.
Definition attackCooldown : Qc := Js.frac 5 10.
Definition invulnerabilityTime : Qc := Js.frac 5 10.

(** the constructor *)
Definition new : State :=
  mkState (Js.num 100) (Js.num 100) (Js.num 15) false 0 false 0
          0 1 0 0 true Timers.empty.

Definition getPosition (p : State) : Vector3 := vec (x p) (y p) (z p).

Definition setHealth (h : Qc) (p : State) : State :=
  mkState h (maxHealth p) (damage p) (isAttacking p) (lastAttackTime p)
          (isInvulnerable p) (lastDamageTime p) (x p) (y p) (z p)
          (verticalVelocity p) (isOnGround p) (timers p).

Definition setAttack (attacking : bool) (t : Qc) (p : State) : State :=
  mkState (health p) (maxHealth p) (damage p) attacking t
          (isInvulnerable p) (lastDamageTime p) (x p) (y p) (z p)
          (verticalVelocity p) (isOnGround p) (timers p).

Definition setInvulnerable (b : bool) (t : Qc) (p : State) : State :=
  mkState (health p) (maxHealth p) (damage p) (isAttacking p) (lastAttackTime p)
          b t (x p) (y p) (z p)
          (verticalVelocity p) (isOnGround p) (timers p).

Definition setMotion (x' y' z' v : Qc) (g : bool) (p : State) : State :=
  mkState (health p) (maxHealth p) (damage p) (isAttacking p) (lastAttackTime p)
          (isInvulnerable p) (lastDamageTime p) x' y' z' v g (timers p).

Definition setTimers (q : Timers.Queue Closure) (p : State) : State :=
  mkState (health p) (maxHealth p) (damage p) (isAttacking p) (lastAttackTime p)
          (isInvulnerable p) (lastDamageTime p) (x p) (y p) (z p)
          (verticalVelocity p) (isOnGround p) q.

(** [die()], called at time [now] (milliseconds) *)
Definition die (now : Qc) (p : State) : State :=
  setTimers (Timers.setTimeout Revive now (Js.num 1000) (timers p)).2 p.

(** [takeDamage(amount)] at time [now]: the value returned ([undefined] while
    invulnerable) and the player afterwards. The transparency of the mesh and
    the damage indicator are display. *)
Definition takeDamage (now amount : Qc) (p : State) : option Qc * State :=
  if isInvulnerable p then (None, p)
  else
    let h := Units.clamp0 (health p - amount)%Qc in
    let p1 := setInvulnerable true (now / Js.num 1000)%Qc (setHealth h p) in
    let p2 := if Js.leb h 0%Qc then die now p1 else p1 in
    (Some h, p2).

(** [heal(amount)] *)
Definition heal (amount : Qc) (p : State) : Qc * State :=
  let h := Js.min (health p + amount)%Qc (maxHealth p) in
  (h, setHealth h p).

(** [updateInvulnerability(deltaTime)] at time [now] *)
Definition updateInvulnerability (now : Qc) (p : State) : State :=
  if isInvulnerable p
     && Js.ltb invulnerabilityTime (now / Js.num 1000 - lastDamageTime p)%Qc
  then setInvulnerable false (lastDamageTime p) p
  else p.

(** [startAttack()] at time [now]: the player afterwards, and whether the
    blow is struck ([attackNearbyEnemies] runs) *)
Definition startAttack (now : Qc) (p : State) : State * bool :=
  if isAttacking p
     || Js.ltb (now / Js.num 1000 - lastAttackTime p)%Qc attackCooldown
  then (p, false)
  else
    let p1 := setAttack true (now / Js.num 1000)%Qc p in
    (setTimers (Timers.setTimeout EndAttack now (Js.num 300) (timers p1)).2 p1,
     true).

(** the damage of one blow of [attackNearbyEnemies]; [r] is its
    [Math.random()] *)
Definition actualDamage (r : Qc) (p : State) : Z :=
  Js.floor (damage p * (Js.frac 9 10 + r * Js.frac 3 10))%Qc.

(** whether [attackNearbyEnemies] reaches an enemy at [enemyPosition]:
    [distance <= attackRange], with [attackRange = 2.5] *)
Definition inAttackRange (enemyPosition : Vector3) (p : State) : bool :=
  distanceLe (getPosition p) enemyPosition (Js.frac 25 10).

(** a pending timer fires *)
Definition fire (t : Timers.Timer Closure) (p : State) : State :=
  let p1 := setTimers (Timers.clearTimeout (Timers.timerId t) (timers p)) p in
  match Timers.callback t with
  | EndAttack => setAttack false (lastAttackTime p1) p1
  | Revive =>
    setMotion 0 (Js.num 5) 0 0 (isOnGround p1) (setHealth (maxHealth p1) p1)
  end.

(** [Math.abs] and [<=] on possibly-NaN numbers *)
Definition nabs (a : Js.Num) : Js.Num :=
  match a with
  | Some q => Some (if Js.leb 0%Qc q then q else (- q)%Qc)
  | None => None
  end.

Definition nle (a b : Js.Num) : bool :=
  match a, b with Some p, Some q => Js.leb p q | _, _ => false end.

(** [update(deltaTime, inputController)] at time [now]. [action] and [jump]
    are the keys held; [dir] is the movement direction on the ground, that
    is the direction of the keys held, normalised and turned by the player's
    rotation. The result says whether a blow was struck. *)
Definition update (now deltaTime : Qc) (action jump : bool) (dir : Qc * Qc)
  (w : World.State) (p : State) : State * bool :=
  let '(p1, struck) := if action then startAttack now p else (p, false) in
  let p2 := updateInvulnerability now p1 in
  let jumping := jump && isOnGround p2 in
  let v0 := if jumping then jumpForce else verticalVelocity p2 in
  let g0 := if jumping then false else isOnGround p2 in
  let v1 := (v0 + gravity * deltaTime)%Qc in
  let newPositionX := (x p2 + dir.1 * moveSpeed * deltaTime)%Qc in
  let newPositionZ := (z p2 + dir.2 * moveSpeed * deltaTime)%Qc in
  let groundHeightAtNewPos := World.getHeightAt w newPositionX newPositionZ in
  let currentGroundHeight := World.getHeightAt w (x p2) (z p2) in
  let heightDifference := nabs (Js.sub groundHeightAtNewPos currentGroundHeight) in
  let moves := nle heightDifference (Js.fin (Js.num 2))
               || Js.nlt groundHeightAtNewPos currentGroundHeight in
  let x1 := if moves then newPositionX else x p2 in
  let z1 := if moves then newPositionZ else z p2 in
  let y1 := (y p2 + v1 * deltaTime)%Qc in
  match World.getHeightAt w x1 z1 with
  | Some groundHeight =>
    if Js.ltb y1 (groundHeight + 1)%Qc
    then (setMotion x1 (groundHeight + 1)%Qc z1 0 true p2, struck)
    else (setMotion x1 y1 z1 v1 g0 p2, struck)
  | None => (setMotion x1 y1 z1 v1 g0 p2, struck)
  end.

End Player.

(** ** The allied units: AnimalUnit.heal, UnitSystem *)
Module UnitSystem.
Import Units.

(** [AnimalUnit.heal(amount)] *)
Definition heal (amount : Qc) (u : AnimalUnit) : AnimalUnit :=
  mkAnimalUnit (Js.min (animalMaxHealth u) (animalHealth u + amount)%Qc)
               (animalMaxHealth u) (animalDamage u) (animalState u).

(** an entry of [this.unitTypes] *)
Record UnitType : Type := mkUnitType {
  unitHealth : Qc; unitDamage : Qc; unitSpeed : Qc;
  attackRange : Qc; attackSpeed : Qc; cost : Z
}.

(** [this.unitTypes] *)
Definition unitTypes : gmap string UnitType :=
  <["wolf" := mkUnitType (Js.num 100) (Js.num 15) (Js.num 6)
                         (Js.frac 15 10) (Js.frac 12 10) 10]>
  (<["bear" := mkUnitType (Js.num 200) (Js.num 25) (Js.num 4)
                          (Js.num 2) (Js.frac 8 10) 20]>
  (<["eagle" := mkUnitType (Js.num 80) (Js.num 12) (Js.num 8)
                           (Js.num 1) (Js.frac 15 10) 15]>
  (<["fox" := mkUnitType (Js.num 90) (Js.num 10) (Js.num 7)
                         (Js.frac 12 10) (Js.frac 14 10) 12]>
  (<["deer" := mkUnitType (Js.num 120) (Js.num 8) (Js.num 9)
                          (Js.num 1) (Js.num 1) 10]> ∅)))).

(** [new AnimalUnit(scene, player, world, type, position, attributes)] with
    the attributes [spawnUnit] copies from the unit type: a health or damage
    of 0 is replaced by the default *)
Definition newAnimalUnit (t : UnitType) : AnimalUnit :=
  let h := if Qc_eq_bool (unitHealth t) 0 then Js.num 100 else unitHealth t in
  let d := if Qc_eq_bool (unitDamage t) 0 then Js.num 10 else unitDamage t in
  mkAnimalUnit h h d wandering.

(** The names every object inherits from [Object.prototype]: methods, and
    under [__proto__] the prototype itself. [this.unitTypes] is an object
    literal, so [this.unitTypes[name]] finds them. *)
Definition objectPrototype : list string :=
  ["constructor"; "hasOwnProperty"; "isPrototypeOf"; "propertyIsEnumerable";
   "toLocaleString"; "toString"; "valueOf"; "__defineGetter__";
   "__defineSetter__"; "__lookupGetter__"; "__lookupSetter__";
   "__proto__"]%string.

(** what [this.unitTypes[unitType]] evaluates to *)
Inductive Found : Type :=
| Own (t : UnitType)   (* an entry of the table *)
| Inherited            (* a property of Object.prototype: truthy, and its
                          [cost], [health] and [damage] are undefined *)
| Missing.             (* undefined *)

Definition lookupUnitType (unitType : string) : Found :=
  match unitTypes !! unitType with
  | Some t => Own t
  | None => if bool_decide (unitType ∈ objectPrototype) then Inherited else Missing
  end.

(** the methods of an inventory object that [spawnUnit] calls, where the
    object has them; the amount they are given is a number or [undefined] *)
Record InventoryMethods : Type := mkInventoryMethods {
  hasItem : option (string → option Z → gmap string Z → bool);
  removeItem : option (string → option Z → gmap string Z → bool * gmap string Z)
}.

(** the methods InventorySystem has: [addItem], [removeItem], [getItemCount],
    and the display ones; it has no [hasItem]. In [removeItem] a count
    compared with [undefined] is not enough. *)
Definition inventorySystem : InventoryMethods :=
  mkInventoryMethods None
    (Some (λ type amount inv,
             match amount with
             | Some n => InventorySystem.removeItem type n inv
             | None => (false, inv)
             end)).

Record State : Type := mkState {
  units : list AnimalUnit;          (* this.units *)
  inventory : gmap string Z         (* this.inventorySystem.inventory *)
}.

(** how a call of [spawnUnit] ends *)
Inductive Outcome : Type :=
| Returned (unit : option AnimalUnit)   (* the unit, or null *)
| Threw.                                (* a TypeError leaves the function *)

(** [spawnUnit(unitType, position)] on an inventory object with the methods
    [m]; [constructionThrows] is an exception inside the try block *)
Definition spawnUnit (m : InventoryMethods) (constructionThrows : bool)
  (unitType : string) (s : State) : Outcome * State :=
  match lookupUnitType unitType with
  | Missing => (Returned None, s)
  | found =>
    let cost := match found with Own t => Some (cost t) | _ => None end in
    match hasItem m with
    | None => (Threw, s)
    | Some has =>
      if negb (has "wood"%string cost (inventory s)) then (Returned None, s)
      else
        match removeItem m with
        | None => (Threw, s)
        | Some remove =>
          let inventory' := (remove "wood"%string cost (inventory s)).2 in
          if constructionThrows then (Returned None, mkState (units s) inventory')
          else
            (* undefined attributes are replaced by the defaults, as 0 is *)
            let unit := match found with
                        | Own t => newAnimalUnit t
                        | _ => newAnimalUnit (mkUnitType 0 0 0 0 0 0)
                        end in
            (Returned (Some unit), mkState (units s ++ [unit]) inventory')
        end
    end
  end.

End UnitSystem.

(** ** Game: the interaction of the player with the world *)
Module Game.
Import Resources.

(** the name of a resource, as the rewards carry it *)
Definition typeName (t : ResourceType) : string :=
  match t with wood => "wood" | stone => "stone" end.

Record State : Type := mkState {
  world : World.State;
  inventory : gmap string Z
}.

(** [addStartingResources()] *)
Definition addStartingResources (inventory : gmap string Z) : gmap string Z :=
  (InventorySystem.addItem "stone" 15
     (InventorySystem.addItem "wood" 25 inventory).2).2.

(** the block "Check for interactions" that ends a frame of [gameLoop], at
    time [now], with the action key held or not and the player at
    [playerPos] *)
Definition checkInteractions (now : Qc) (actionPressed : bool)
  (playerPos : Vector3) (g : State) : State :=
  if actionPressed then
    match World.checkInteraction (world g) playerPos (Js.num 2) with
    | Some interactedObject =>
      let '(reward, w) := World.interact now interactedObject (world g) in
      match reward with
      | Some r =>
        mkState w (InventorySystem.addItem (typeName (type r)) (amount r)
                     (inventory g)).2
      | None => mkState w (inventory g)
      end
    | None => g
    end
  else g.

End Game.

(** ** Cloud, and the clouds of the World *)
Module Clouds.

Record Cloud : Type := mkCloud {
  cloudX : Qc; cloudY : Qc; cloudZ : Qc;   (* this.object.position *)
  cloudSpeed : Qc                           (* this.moveSpeed *)
}.

(** [worldSize] of the World *)
Definition worldSize : Qc := Js.num 100.

(** one iteration of [generateClouds]: the three draws of the position, then
    the draw of the speed in the constructor of Cloud *)
Definition newCloud (rx ry rz rs : Qc) : Cloud :=
  mkCloud ((rx - Js.frac 5 10) * worldSize * Js.frac 15 10)%Qc
          (Js.num 20 + ry * Js.num 10)%Qc
          ((rz - Js.frac 5 10) * worldSize * Js.frac 15 10)%Qc
          (Js.frac 5 10 + rs * Js.frac 5 10)%Qc.

(** [generateClouds(count)]: a cloud takes six draws, the last two for its
    scale and its rotation *)
Definition generateClouds (random : nat → Qc) (count : nat) : list Cloud :=
  (λ i, newCloud (random (6 * i)%nat) (random (6 * i + 1)%nat)
                 (random (6 * i + 2)%nat) (random (6 * i + 3)%nat))
  <$> seq 0 count.

(** [Cloud.update(deltaTime)]: the cloud moves along x and wraps *)
Definition update (deltaTime : Qc) (c : Cloud) : Cloud :=
  let x := (cloudX c + 1 * (cloudSpeed c * deltaTime))%Qc in
  mkCloud (if Js.ltb (Js.num 100) x then Js.num (-100) else x)
          (cloudY c) (cloudZ c) (cloudSpeed c).

(** [World.updateClouds(deltaTime)] *)
Definition updateClouds (deltaTime : Qc) (clouds : list Cloud) : list Cloud :=
  update deltaTime <$> clouds.

(** a cloud where [generateClouds] puts it, or where [update] takes it; the
    height and the speed are sums that stay below 30 and 1 and may be rounded
    to them *)
Definition inTheSky (c : Cloud) : Prop :=
  (Js.num (-100) ≤ cloudX c ≤ Js.num 100)%Qc
  ∧ (Js.num 20 ≤ cloudY c ≤ Js.num 30)%Qc
  ∧ (Js.num (-75) ≤ cloudZ c < Js.num 75)%Qc
  ∧ (Js.frac 5 10 ≤ cloudSpeed c ≤ 1)%Qc.

End Clouds.

(** ** Vocabulary for the registry of the World and its nodes *)
Module RegistrySpec.
Import Resources World.

(** the health a Tree or a Rock is built with, and respawns with *)
Definition fullHealth (c : NodeClass) : Z :=
  match c with Tree => 100 | Rock => 150 end.

(** a node as the constructors and the methods of Tree and Rock keep it *)
Definition standing (n : Node) : Prop :=
  vy (position n) = Js.fin 0
  ∧ resourceType n = match class n with Tree => wood | Rock => stone end
  ∧ resourceAmount n = match class n with Tree => 3 | Rock => 5 end
  ∧ respawnTime n = match class n with Tree => 30 | Rock => 45 end
  ∧ visible n = interactionEnabled n
  ∧ (scale n ≤ 1)%Qc
  ∧ if interactionEnabled n
    then ∃ hits, 0 ≤ hits ∧ health n = fullHealth (class n) - 25 * hits
                 ∧ 0 < health n
    else health n = 0.

(** the registry and the store of nodes agree, and every chunk owns
    registered objects *)
Definition registered (w : State) : Prop :=
  NoDup (objects w)
  ∧ (∀ id, id ∈ objects w ↔ is_Some (nodes w !! id))
  ∧ (∀ id, id ∈ objects w → (id < nextId w)%nat)
  ∧ (∀ k c id, chunks w !! k = Some c → id ∈ chunkObjects c → id ∈ objects w)
  ∧ (∀ k, terrainBodies w !! Some k = None).

(** a position over the square of a chunk, its edges included: a sum that
    stays below the far edge may be rounded to it *)
Definition inChunk (chunk : Chunk) (p : Vector3) : Prop :=
  (Js.num (chunkX chunk * chunkSize) ≤ vx p)%Qc
  ∧ (vx p ≤ Js.num (chunkX chunk * chunkSize) + Js.num chunkSize)%Qc
  ∧ (Js.num (chunkZ chunk * chunkSize) ≤ vz p)%Qc
  ∧ (vz p ≤ Js.num (chunkZ chunk * chunkSize) + Js.num chunkSize)%Qc.

(** the object the [i]-th iteration of a placement loop builds, the loop
    starting in the world [w] *)
Definition placed `{Environment} (c : NodeClass) (chunk : Chunk) (w : State)
  (i : nat) : Node :=
  let x := (Js.num (chunkX chunk * chunkSize)
            + random (rng w + 3 * i)%nat * Js.num chunkSize)%Qc in
  let z := (Js.num (chunkZ chunk * chunkSize)
            + random (S (rng w + 3 * i))%nat * Js.num chunkSize)%Qc in
  Resources.new c (mkVector3 x (getHeightAt w x z) z).

(** a node that a placement loop built for [chunk] in a world with the
    chunks of [w] *)
Definition builtBy `{Environment} (c : NodeClass) (chunk : Chunk) (w : State)
  (n : Node) : Prop :=
  n = Resources.new c (position n)
  ∧ vy (position n) = getHeightAt w (vx (position n)) (vz (position n))
  ∧ ((∀ j, 0 ≤ random j < 1)%Qc → inChunk chunk (position n)).

(** the numbers of trees and rocks [populateChunk] draws in the world [w] *)
Definition treeCount `{Environment} (w : State) : Z :=
  5 + Js.floor (random (rng w) * Js.num 5)%Qc.

Definition rockCount `{Environment} (w : State) : Z :=
  3 + Js.floor (random (S (rng w)) * Js.num 3)%Qc.

(** what holds of the registry and of the nodes in every world the game
    builds *)
Definition sound (w : State) : Prop :=
  WorldSpec.allFresh w ∧ registered w
  ∧ (∀ id n, nodes w !! id = Some n → standing n).

End RegistrySpec.

(** * Facts *)

(** ** Rational arithmetic *)
Module JsFacts.

Lemma leb_le (a b : Qc) : Js.leb a b = true ↔ (a ≤ b)%Qc.
Proof.
  unfold Js.leb, Qcle, Qccompare. rewrite Qle_alt.
  destruct (this a ?= this b)%Q; split; congruence.
Qed.

Lemma ltb_lt (a b : Qc) : Js.ltb a b = true ↔ (a < b)%Qc.
Proof.
  unfold Js.ltb, Qclt, Qccompare. rewrite Qlt_alt.
  destruct (this a ?= this b)%Q; split; congruence.
Qed.

Lemma this_plus (a b : Qc) : (this (a + b)%Qc == this a + this b)%Q.
Proof. apply Qred_correct. Qed.

Lemma this_mult (a b : Qc) : (this (a * b)%Qc == this a * this b)%Q.
Proof. apply Qred_correct. Qed.

Lemma this_opp (a : Qc) : (this (- a)%Qc == - this a)%Q.
Proof. apply Qred_correct. Qed.

Lemma this_minus (a b : Qc) : (this (a - b)%Qc == this a - this b)%Q.
Proof. unfold Qcminus. rewrite this_plus, this_opp. reflexivity. Qed.

Lemma this_num (z : Z) : (this (Js.num z) == inject_Z z)%Q.
Proof. apply Qred_correct. Qed.

Lemma this_frac n d : (this (Js.frac n d) == n # d)%Q.
Proof. apply Qred_correct. Qed.

(** dividing by a positive integer constant is multiplying by its inverse *)
Lemma this_div_num (a : Qc) (z : Z) :
  0 < z → (this (a / Js.num z)%Qc == this a * (1 # Z.to_pos z))%Q.
Proof.
  intros Hz. unfold Qcdiv. rewrite this_mult.
  assert (E : (this (/ Js.num z)%Qc == / inject_Z z)%Q).
  { unfold Qcinv, Q2Qc. cbn [this]. rewrite Qred_correct.
    apply Qinv_comp, this_num. }
  rewrite E. destruct z as [|p|p]; try lia. reflexivity.
Qed.

End JsFacts.

(** moves an (in)equation of [Qc] to [Q], where [lra] applies *)
Ltac qc2q :=
  unfold Qcle, Qclt in *;
  repeat (rewrite JsFacts.this_plus in * || rewrite JsFacts.this_mult in *
          || rewrite JsFacts.this_minus in * || rewrite JsFacts.this_opp in *
          || (rewrite JsFacts.this_div_num in * by lia)
          || rewrite JsFacts.this_num in * || rewrite JsFacts.this_frac in *);
  rewrite ?inject_Z_plus, ?inject_Z_mult in *;
  change (this 0%Qc) with 0%Q in *; change (this 1%Qc) with 1%Q in *.

Module FloorFacts.

Lemma floor_spec (q : Qc) :
  (Js.num (Js.floor q) ≤ q)%Qc ∧ (q < Js.num (Js.floor q + 1))%Qc.
Proof.
  unfold Js.floor. qc2q. split; [apply Qfloor_le|].
  pose proof (Qlt_floor q) as H. rewrite inject_Z_plus in H. exact H.
Qed.

Lemma floor_num (z : Z) : Js.floor (Js.num z) = z.
Proof.
  unfold Js.floor. rewrite (Qfloor_comp _ _ (JsFacts.this_num z)).
  apply Qfloor_Z.
Qed.

(** an integer squeezed by a rational interval *)
Lemma floor_range (g : Qc) (lo hi : Z) :
  (Js.num lo ≤ g)%Qc → (g < Js.num hi)%Qc → lo ≤ Js.floor g < hi.
Proof.
  intros Hlo Hhi. destruct (floor_spec g) as [H1 H2]. split.
  - destruct (Z_lt_le_dec (Js.floor g) lo) as [Hn|]; [|lia]. exfalso.
    assert (Hc : (Js.num (Js.floor g + 1) ≤ Js.num lo)%Qc).
    { unfold Qcle. rewrite !JsFacts.this_num, <- Zle_Qle. lia. }
    unfold Qcle, Qclt in *. lra.
  - destruct (Z_lt_le_dec (Js.floor g) hi) as [|Hn]; [lia|]. exfalso.
    assert (Hc : (Js.num hi ≤ Js.num (Js.floor g))%Qc).
    { unfold Qcle. rewrite !JsFacts.this_num, <- Zle_Qle. lia. }
    unfold Qcle, Qclt in *. lra.
Qed.

(** the grid coordinate of a point of a chunk lies in [0, 32) *)
Lemma grid_index_bounds (x : Qc) :
  let c := Js.floor (x / Js.num World.chunkSize) in
  let g := ((x - Js.num (c * World.chunkSize)) / Js.num World.chunkSize
            * Js.num World.terrainResolution)%Qc in
  0 ≤ Js.floor g < World.terrainResolution.
Proof.
  intros c g. unfold World.chunkSize, World.terrainResolution in *.
  destruct (floor_spec (x / Js.num 50)) as [H1 H2]. fold c in H1, H2.
  apply floor_range; subst g; generalize dependent c; intros c; qc2q;
    generalize (inject_Z c); intros q; unfold inject_Z; cbn; intros; lra.
Qed.

End FloorFacts.

(** ** World *)
Module WorldFacts.
Import Resources World.

Section Streaming.
Context `{Environment}.

(** *** What generating a chunk changes *)

Lemma placeObject_chunk c st :
  heightMap (placeObject c st).1 = heightMap st.1
  ∧ chunkX (placeObject c st).1 = chunkX st.1
  ∧ chunkZ (placeObject c st).1 = chunkZ st.1
  ∧ terrain (placeObject c st).1 = terrain st.1.
Proof. destruct st as [chunk w]. done. Qed.

Lemma placeObject_state c st :
  chunks (placeObject c st).2 = chunks st.2
  ∧ lastPlayerChunkCoords (placeObject c st).2 = lastPlayerChunkCoords st.2
  ∧ timers (placeObject c st).2 = timers st.2.
Proof. destruct st as [chunk w]. done. Qed.

Lemma iter_placeObject n c st :
  let st' := Nat.iter n (placeObject c) st in
  (heightMap st'.1 = heightMap st.1 ∧ chunkX st'.1 = chunkX st.1
   ∧ chunkZ st'.1 = chunkZ st.1 ∧ terrain st'.1 = terrain st.1)
  ∧ (chunks st'.2 = chunks st.2
     ∧ lastPlayerChunkCoords st'.2 = lastPlayerChunkCoords st.2
     ∧ timers st'.2 = timers st.2).
Proof.
  induction n as [|n IH]; [done|]. cbv zeta in *. rewrite Nat.iter_succ.
  destruct IH as [(?&?&?&?) (?&?&?)].
  destruct (placeObject_chunk c (Nat.iter n (placeObject c) st)) as (?&?&?&?).
  destruct (placeObject_state c (Nat.iter n (placeObject c) st)) as (?&?&?).
  repeat split; congruence.
Qed.

Lemma populateChunk_spec chunk w :
  let st' := populateChunk chunk w in
  (heightMap st'.1 = heightMap chunk ∧ chunkX st'.1 = chunkX chunk
   ∧ chunkZ st'.1 = chunkZ chunk ∧ terrain st'.1 = terrain chunk)
  ∧ (chunks st'.2 = chunks w
     ∧ lastPlayerChunkCoords st'.2 = lastPlayerChunkCoords w
     ∧ timers st'.2 = timers w).
Proof.
  unfold populateChunk. cbv zeta.
  set (w1 := setRng _ w).
  set (n1 := Z.to_nat (5 + _)). set (n2 := Z.to_nat (3 + _)).
  destruct (iter_placeObject n1 Tree (chunk, w1)) as [(?&?&?&?) (?&?&?)].
  destruct (iter_placeObject n2 Rock (Nat.iter n1 (placeObject Tree) (chunk, w1)))
    as [(?&?&?&?) (?&?&?)].
  cbn in *. repeat split; congruence.
Qed.

Lemma generateTerrainForChunk_spec chunk w :
  let st' := generateTerrainForChunk chunk w in
  (heightMap st'.1 = heightMap chunk ∧ chunkX st'.1 = chunkX chunk
   ∧ chunkZ st'.1 = chunkZ chunk)
  ∧ (chunks st'.2 = chunks w
     ∧ lastPlayerChunkCoords st'.2 = lastPlayerChunkCoords w
     ∧ timers st'.2 = timers w).
Proof. unfold generateTerrainForChunk. cbv zeta. by destruct hasPhysics. Qed.

(** The chunk stored by [generateChunk] carries its own coordinates and no
    height grid. *)
Lemma generateChunk_spec k w :
  ∃ c, chunks (generateChunk k w) = <[k := c]> (chunks w)
       ∧ heightMap c = None ∧ (chunkX c, chunkZ c) = k
       ∧ lastPlayerChunkCoords (generateChunk k w) = lastPlayerChunkCoords w
       ∧ timers (generateChunk k w) = timers w.
Proof.
  unfold generateChunk.
  set (chunk := mkChunk None [] None k.1 k.2 None None).
  pose proof (generateTerrainForChunk_spec chunk w) as Hg. cbv zeta in Hg.
  destruct (generateTerrainForChunk chunk w) as [chunk1 w1].
  pose proof (populateChunk_spec chunk1 w1) as Hp. cbv zeta in Hp.
  destruct (populateChunk chunk1 w1) as [chunk2 w2]. cbn in *.
  destruct Hg as [(?&?&?) (?&?&?)], Hp as [(?&?&?&?) (?&?&?)].
  exists chunk2. destruct k as [kx kz]. cbn in *.
  repeat split; congruence.
Qed.

(** *** What evicting a chunk changes *)

Lemma disposeObject_id id w : disposeObject id w = w.
Proof. unfold disposeObject. by destruct (nodes w !! id). Qed.

Lemma foldl_disposeObject l w :
  foldl (λ acc id, disposeObject id acc) w l = w.
Proof.
  revert w. induction l as [|id l IH]; intros w; [done|].
  cbn. by rewrite disposeObject_id.
Qed.

Lemma removeChunk_chunks k w : chunks (removeChunk k w) = delete k (chunks w).
Proof.
  unfold removeChunk. destruct (chunks w !! k) as [chunk|] eqn:Hk.
  - rewrite foldl_disposeObject.
    destruct (terrain chunk); cbn;
      repeat (match goal with |- context [if ?b then _ else _] => destruct b
                         | |- context [match ?o with Some _ => _ | None => _ end] =>
                             destruct o end; cbn); done.
  - by rewrite delete_id.
Qed.

(** Eviction touches neither the registry, the stored nodes, the timers nor
    the remembered observer chunk. *)
Lemma removeChunk_frame k w :
  objects (removeChunk k w) = objects w
  ∧ nodes (removeChunk k w) = nodes w
  ∧ timers (removeChunk k w) = timers w
  ∧ lastPlayerChunkCoords (removeChunk k w) = lastPlayerChunkCoords w.
Proof.
  unfold removeChunk. destruct (chunks w !! k) as [chunk|]; [|done].
  rewrite foldl_disposeObject.
  destruct (terrain chunk); cbn;
    repeat (match goal with |- context [if ?b then _ else _] => destruct b
                       | |- context [match ?o with Some _ => _ | None => _ end] =>
                           destruct o end; cbn); done.
Qed.

End Streaming.
End WorldFacts.

Module ResidencyFacts.
Import Resources World WorldSpec WorldFacts.

(** *** The loop counters *)







Section Residency.
Context `{Environment}.

(** *** The active square *)





(** *** The two passes of [updateChunksAroundPlayer] *)

Lemma generateMissing_spec w k :
  dom (chunks (generateMissing w k)) = dom (chunks w) ∪ {[k]}
  ∧ (allFresh w → allFresh (generateMissing w k))
  ∧ lastPlayerChunkCoords (generateMissing w k) = lastPlayerChunkCoords w
  ∧ timers (generateMissing w k) = timers w.
Proof.
  unfold generateMissing. destruct (chunks w !! k) as [c|] eqn:Hk.
  - split_and!; try done. apply elem_of_dom_2 in Hk. set_solver.
  - destruct (generateChunk_spec k w) as (c & Hc & Hh & Hxz & Hl & Ht).
    split_and!; try done.
    + rewrite Hc, dom_insert_L. set_solver.
    + intros Hw k' c'. rewrite Hc. intros [[<- <-]|[_ ?]]%lookup_insert_Some.
      * done.
      * by apply Hw.
Qed.

Lemma foldl_generateMissing keys w :
  let w1 := foldl generateMissing w keys in
  dom (chunks w1) = dom (chunks w) ∪ list_to_set keys
  ∧ (allFresh w → allFresh w1)
  ∧ lastPlayerChunkCoords w1 = lastPlayerChunkCoords w
  ∧ timers w1 = timers w.
Proof.
  revert w. induction keys as [|k keys IH]; intros w; cbn.
  - split_and!; try done. set_solver.
  - destruct (IH (generateMissing w k)) as (Hd & Hf & Hl & Ht).
    destruct (generateMissing_spec w k) as (Hd' & Hf' & Hl' & Ht').
    split_and!; [|by auto|congruence|congruence].
    rewrite Hd, Hd'. set_solver.
Qed.

Lemma foldl_removeInactive active l w :
  let w2 := foldl (removeInactive active) w l in
  (∀ k, chunks w2 !! k =
        if decide (k ∈ l ∧ k ∉ active) then None else chunks w !! k)
  ∧ lastPlayerChunkCoords w2 = lastPlayerChunkCoords w
  ∧ timers w2 = timers w.
Proof.
  revert w. induction l as [|k0 l IH]; intros w; cbn.
  - split_and!; [|done|done]. intros k. case_decide as Hk; [|done].
    destruct Hk as [Hk _]. by apply not_elem_of_nil in Hk.
  - destruct (IH (removeInactive active w k0)) as (Hc & Hl & Ht).
    unfold removeInactive in *. split_and!.
    + intros k. rewrite Hc. destruct (decide (k0 ∈ active)) as [Ha|Ha].
      * repeat case_decide; try done; set_solver.
      * rewrite removeChunk_chunks.
        destruct (decide (k = k0)) as [->|Hne].
        -- rewrite lookup_delete_eq. repeat case_decide; try done; set_solver.
        -- rewrite lookup_delete_ne by done.
           repeat case_decide; try done; set_solver.
    + rewrite Hl. case_decide; [done|]. apply removeChunk_frame.
    + rewrite Ht. case_decide; [done|]. apply removeChunk_frame.
Qed.

Lemma updateChunksAroundPlayer_reconcile px pz w :
  updateChunksAroundPlayer px pz w = reconcile (activeKeys px pz) w.
Proof. reflexivity. Qed.

Lemma reconcile_spec keys w :
  let w' := reconcile keys w in
  dom (chunks w') = list_to_set keys
  ∧ (allFresh w → allFresh w')
  ∧ lastPlayerChunkCoords w' = lastPlayerChunkCoords w
  ∧ timers w' = timers w.
Proof.
  unfold reconcile. cbv zeta.
  set (active := list_to_set keys : gset (Z * Z)).
  set (w1 := foldl generateMissing w keys).
  destruct (foldl_generateMissing keys w) as (Hd & Hf & Hl & Ht).
  fold w1 in Hd, Hf, Hl, Ht. fold active in Hd.
  destruct (foldl_removeInactive active (map_to_list (chunks w1)).*1 w1)
    as (Hc & Hl' & Ht').
  clearbody active w1.
  split_and!; [| |congruence|congruence].
  - apply set_eq. intros k. rewrite elem_of_dom, Hc.
    case_decide as Hk.
    + split; [by intros [? ?]|]. intros Hin. by destruct Hk as [_ Hk].
    + rewrite <- elem_of_dom, Hd. split; [|set_solver].
      intros Hin. destruct (decide (k ∈ active)) as [|Hna]; [done|].
      exfalso. apply Hk. split; [|done].
      assert (Hdom : k ∈ dom (chunks w1)) by (rewrite Hd; done).
      apply elem_of_dom in Hdom as [c Hc'].
      apply list_elem_of_fmap. exists (k, c). split; [done|].
      by apply elem_of_map_to_list.
  - intros Hw k c. rewrite Hc. case_decide; [done|]. by apply Hf.
Qed.

(** After a reconciliation pass the resident chunks are exactly those of the
    active square. *)
Lemma updateChunksAroundPlayer_spec px pz w :
  let w' := updateChunksAroundPlayer px pz w in
  dom (chunks w') = list_to_set (activeKeys px pz)
  ∧ (allFresh w → allFresh w')
  ∧ lastPlayerChunkCoords w' = lastPlayerChunkCoords w
  ∧ timers w' = timers w.
Proof. rewrite updateChunksAroundPlayer_reconcile. apply reconcile_spec. Qed.

End Residency.
End ResidencyFacts.

Module HeightFacts.
Import Resources World WorldSpec Scenario WorldFacts ResidencyFacts.

(** *** [getHeightAt] on a stored grid *)

Lemma getHeightAt_absent w x z :
  chunks w !! (Js.floor (x / Js.num chunkSize), Js.floor (z / Js.num chunkSize))
  = None →
  getHeightAt w x z = Js.fin 0.
Proof. intros Hk. unfold getHeightAt. by rewrite Hk. Qed.

Lemma getHeightAt_no_grid w x z chunk :
  chunks w !! (Js.floor (x / Js.num chunkSize), Js.floor (z / Js.num chunkSize))
  = Some chunk →
  heightMap chunk = None →
  getHeightAt w x z = Js.fin 0.
Proof. intros Hk Hm. unfold getHeightAt. by rewrite Hk, Hm. Qed.

(** On a chunk that does carry a height grid, [getHeightAt] is the bilinear
    interpolation of the four samples around the grid coordinates. *)
Lemma getHeightAt_bilinear w x z chunk hm h00 h10 h01 h11 :
  let chunkX := Js.floor (x / Js.num chunkSize) in
  let chunkZ := Js.floor (z / Js.num chunkSize) in
  let gridX := ((x - Js.num (chunkX * chunkSize)) / Js.num chunkSize
                * Js.num terrainResolution)%Qc in
  let gridZ := ((z - Js.num (chunkZ * chunkSize)) / Js.num chunkSize
                * Js.num terrainResolution)%Qc in
  let x0 := Js.floor gridX in
  let z0 := Js.floor gridZ in
  let x1 := Z.min (x0 + 1) (terrainResolution - 1) in
  let z1 := Z.min (z0 + 1) (terrainResolution - 1) in
  let fx := (gridX - Js.num x0)%Qc in
  let fz := (gridZ - Js.num z0)%Qc in
  chunks w !! (chunkX, chunkZ) = Some chunk →
  heightMap chunk = Some hm →
  sample hm (x0 + z0 * terrainResolution) = Some h00 →
  sample hm (x1 + z0 * terrainResolution) = Some h10 →
  sample hm (x0 + z1 * terrainResolution) = Some h01 →
  sample hm (x1 + z1 * terrainResolution) = Some h11 →
  getHeightAt w x z =
  Js.fin (h00 * (1 - fx) * (1 - fz) + h10 * fx * (1 - fz)
          + h01 * (1 - fx) * fz + h11 * fx * fz)%Qc.
Proof.
  intros chunkX chunkZ gridX gridZ x0 z0 x1 z1 fx fz Hk Hm H00 H10 H01 H11.
  unfold getHeightAt. fold chunkX chunkZ. rewrite Hk, Hm.
  fold gridX gridZ. fold x0 z0. fold x1 z1.
  pose proof (FloorFacts.grid_index_bounds x) as Hx.
  pose proof (FloorFacts.grid_index_bounds z) as Hz.
  cbv zeta in Hx, Hz. fold chunkX gridX x0 in Hx. fold chunkZ gridZ z0 in Hz.
  destruct (x0 <? 0) eqn:E1; [apply Z.ltb_lt in E1; lia|].
  destruct (terrainResolution <=? x0) eqn:E2; [apply Z.leb_le in E2; lia|].
  destruct (z0 <? 0) eqn:E3; [apply Z.ltb_lt in E3; lia|].
  destruct (terrainResolution <=? z0) eqn:E4; [apply Z.leb_le in E4; lia|].
  cbn [orb]. rewrite H00, H10, H01, H11. fold fx fz. cbn.
  unfold Js.fin. f_equal. ring.
Qed.

Lemma exampleWorld_center :
  getHeightAt exampleWorld (cell * Js.frac 1 2) (cell * Js.frac 1 2)
  = Js.fin (Js.num 4).
Proof. vm_compute. f_equal. Qed.

Lemma exampleWorld_corners :
  getHeightAt exampleWorld 0 0 = Js.fin (Js.num 1)
  ∧ getHeightAt exampleWorld cell 0 = Js.fin (Js.num 3)
  ∧ getHeightAt exampleWorld 0 cell = Js.fin (Js.num 5)
  ∧ getHeightAt exampleWorld cell cell = Js.fin (Js.num 7).
Proof.
  split_and!; vm_compute; f_equal; by apply Qc_is_canon.
Qed.

Section Generated.
Context `{Environment}.

(** *** The worlds the game builds *)

Lemma foldl_setNodes_frame (f : nat → gmap nat Node → gmap nat Node) l w :
  let w' := foldl (λ acc id, setNodes (f id) acc) w l in
  chunks w' = chunks w
  ∧ lastPlayerChunkCoords w' = lastPlayerChunkCoords w
  ∧ timers w' = timers w
  ∧ objects w' = objects w.
Proof.
  revert w. induction l as [|id l IH]; intros w; cbn; [done|].
  by destruct (IH (setNodes (f id) w)) as (?&?&?&?).
Qed.

Lemma interact_frame now id w :
  chunks (interact now id w).2 = chunks w
  ∧ lastPlayerChunkCoords (interact now id w).2 = lastPlayerChunkCoords w
  ∧ objects (interact now id w).2 = objects w.
Proof.
  unfold interact. destruct (nodes w !! id) as [n|]; [|done].
  destruct (Resources.interact n) as [[reward n'] [delay|]]; done.
Qed.

Lemma foldl_fire_frame l w :
  let w' := foldl (λ acc t, fire t acc) w l in
  chunks w' = chunks w
  ∧ lastPlayerChunkCoords w' = lastPlayerChunkCoords w
  ∧ objects w' = objects w.
Proof.
  revert w. induction l as [|t l IH]; intros w; cbn; [done|].
  destruct (IH (fire t w)) as (-> & -> & ->).
  by destruct t as [tid d [id]].
Qed.

Lemma streamed_frame w w' :
  chunks w' = chunks w →
  lastPlayerChunkCoords w' = lastPlayerChunkCoords w →
  streamed w → streamed w'.
Proof. unfold streamed, allFresh. intros -> ->. done. Qed.

Lemma update_streamed dt p w :
  streamed w →
  streamed (update dt p w)
  ∧ lastPlayerChunkCoords (update dt p w) = Some (chunkOf p).
Proof.
  intros [Hf Hl]. unfold update. cbv zeta.
  set (w1 := if decide _ then _ else _).
  assert (Hw1 : streamed w1 ∧ lastPlayerChunkCoords w1 = Some (chunkOf p)).
  { subst w1. case_decide as Hc.
    - split; [by split|done].
    - pose proof (updateChunksAroundPlayer_spec (chunkOf p).1 (chunkOf p).2
                    (setLastPlayerChunkCoords (Some (chunkOf p)) w))
        as (Hd & Hf' & Hl' & _).
      split; [split|]; [by apply Hf'| |done].
      rewrite Hl'. cbn. exact Hd. }
  destruct Hw1 as [Hs Hl1].
  destruct (foldl_setNodes_frame (λ id, alter (Resources.update dt) id)
              (objects w1) w1) as (Hc & Hl2 & _ & _).
  split; [|congruence]. by eapply streamed_frame.
Qed.

Lemma reachable_streamed w : reachable w → streamed w.
Proof.
  induction 1 as [|dt p w _ IH|now id w _ IH|now w _ IH].
  - split; [|done]. intros k c Hk. cbn in Hk. by rewrite lookup_empty in Hk.
  - by apply update_streamed.
  - destruct (interact_frame now id w) as (?&?&?). by eapply streamed_frame.
  - destruct (foldl_fire_frame (Timers.dueAt now (timers w)) w) as (?&?&?).
    by eapply streamed_frame.
Qed.

(** No chunk the game generates carries a height grid, so the height query
    answers 0 everywhere, inside resident chunks too. *)
Lemma getHeightAt_reachable w x z :
  reachable w → getHeightAt w x z = Js.fin 0.
Proof.
  intros [Hf _]%reachable_streamed. unfold getHeightAt.
  destruct (chunks w !! _) as [chunk|] eqn:Hk; [|done].
  destruct (Hf _ _ Hk) as [-> _]. done.
Qed.

End Generated.
End HeightFacts.

Module NodeFacts.
Import Resources World WorldSpec WorldFacts.

(** *** Interaction and respawn *)

Lemma interact_depleted now id w n :
  nodes w !! id = Some n → canInteract n = false →
  interact now id w = (None, w).
Proof.
  intros Hn Hc. unfold interact, Resources.interact. rewrite Hn, Hc. cbn.
  destruct w. unfold setNodes. cbn in *. by rewrite insert_id.
Qed.

Lemma interact_partial now id w n :
  nodes w !! id = Some n → canInteract n = true → 25 < health n →
  interact now id w
  = (Some (mkReward (resourceType n) 1), setNodes (<[id := hit n]>) w).
Proof.
  intros Hn Hc Hh. unfold interact, Resources.interact. rewrite Hn, Hc.
  cbn [negb]. cbv zeta.
  destruct (health n - 25 <=? 0) eqn:E; [apply Z.leb_le in E; lia|done].
Qed.

Lemma interact_final now id w n :
  nodes w !! id = Some n → canInteract n = true → health n ≤ 25 →
  interact now id w
  = (Some (mkReward (resourceType n) (resourceAmount n)),
     setTimers
       (Timers.setTimeout (Respawn id) now (Js.num (respawnTime n * 1000))
          (timers w)).2
       (setNodes (<[id := deplete n]>) w)).
Proof.
  intros Hn Hc Hh. unfold interact, Resources.interact. rewrite Hn, Hc.
  cbn [negb]. cbv zeta.
  destruct (health n - 25 <=? 0) eqn:E; [done|apply Z.leb_gt in E; lia].
Qed.

Lemma respawn_idempotent n : respawn (respawn n) = respawn n.
Proof. done. Qed.

(** Firing timers moves node [id] only along [respawn]; once a respawn of
    [id] has fired the node is [respawn n]. *)
Lemma foldl_fire_respawn id n l w :
  (nodes w !! id = Some n ∨ nodes w !! id = Some (respawn n)) →
  let w' := foldl (λ acc t, fire t acc) w l in
  (nodes w' !! id = Some n ∨ nodes w' !! id = Some (respawn n))
  ∧ (nodes w !! id = Some (respawn n) ∨ Respawn id ∈ Timers.callback <$> l →
     nodes w' !! id = Some (respawn n)).
Proof.
  revert w. induction l as [|t l IH]; intros w Hw; cbn.
  - split; [done|]. intros [?|Hin]; [done|]. by apply not_elem_of_nil in Hin.
  - assert (Hstep : (nodes (fire t w) !! id = Some n
                     ∨ nodes (fire t w) !! id = Some (respawn n))
                    ∧ (nodes w !! id = Some (respawn n)
                       ∨ Timers.callback t = Respawn id →
                       nodes (fire t w) !! id = Some (respawn n))).
    { destruct t as [tid d [id']]. cbn.
      destruct (decide (id' = id)) as [->|Hne].
      - rewrite lookup_alter_eq.
        destruct Hw as [-> | ->]; cbn; split; auto.
      - rewrite lookup_alter_ne by done. split; [done|].
        intros [?|?]; [done|congruence]. }
    destruct Hstep as [Hs1 Hs2]. destruct (IH (fire t w) Hs1) as [IH1 IH2].
    split; [done|]. intros [Hr|Hin]; apply IH2.
    + left. apply Hs2. by left.
    + apply elem_of_cons in Hin as [Heq|Hin]; [|by right].
      left. apply Hs2. by right.
Qed.

Lemma runDueTimers_respawn now id n w t :
  nodes w !! id = Some n →
  t ∈ Timers.pending (timers w) →
  Timers.callback t = Respawn id →
  (Timers.due t ≤ now)%Qc →
  nodes (runDueTimers now w) !! id = Some (respawn n).
Proof.
  intros Hn Ht Hc Hd. unfold runDueTimers.
  apply (foldl_fire_respawn id n); [by left|]. right.
  apply list_elem_of_fmap. exists t. split; [done|].
  unfold Timers.dueAt. apply list_elem_of_filter. split; [|done].
  by apply JsFacts.leb_le.
Qed.

(** C8. A tree (health 100, 25 per interaction) is depleted by exactly four
    [interact()] calls: the first three yield 1 wood and leave it
    interactable, the fourth yields the full resourceAmount (3) and makes it
    Depleted; [interact()] on the Depleted tree returns no reward and changes
    nothing; once respawnTime (30 s) has elapsed and the timers have run, the
    tree is Active again with its health back at 100. *)
Theorem tree_depletion_round_trip (w : State) (id : nat) (p : Vector3)
    (t1 t2 t3 t4 t5 now : Qc) :
  nodes w !! id = Some (Resources.new Tree p) →
  (t4 + Js.num 30 * Js.num 1000 ≤ now)%Qc →
  let s1 := interact t1 id w in
  let s2 := interact t2 id s1.2 in
  let s3 := interact t3 id s2.2 in
  let s4 := interact t4 id s3.2 in
  s1.1 = Some (mkReward wood 1)
  ∧ s2.1 = Some (mkReward wood 1)
  ∧ s3.1 = Some (mkReward wood 1)
  ∧ canInteract <$> nodes s3.2 !! id = Some true
  ∧ s4.1 = Some (mkReward wood 3)
  ∧ canInteract <$> nodes s4.2 !! id = Some false
  ∧ interact t5 id s4.2 = (None, s4.2)
  ∧ nodes (runDueTimers now s4.2) !! id = Some (Resources.new Tree p).
Proof.
  intros Hn Hnow s1 s2 s3 s4.
  set (n0 := Resources.new Tree p) in *.
  assert (E1 : s1 = (Some (mkReward wood 1), setNodes (<[id := hit n0]>) w)).
  { subst s1. by rewrite (interact_partial _ _ _ n0). }
  assert (E2 : s2 = (Some (mkReward wood 1),
                     setNodes (<[id := hit (hit n0)]>) s1.2)).
  { subst s2. rewrite (interact_partial _ _ _ (hit n0)); try done.
    rewrite E1. cbn. by rewrite lookup_insert_eq. }
  assert (E3 : s3 = (Some (mkReward wood 1),
                     setNodes (<[id := hit (hit (hit n0))]>) s2.2)).
  { subst s3. rewrite (interact_partial _ _ _ (hit (hit n0))); try done.
    rewrite E2. cbn. by rewrite lookup_insert_eq. }
  set (depleted := deplete (hit (hit (hit n0)))).
  assert (E4 : s4 = (Some (mkReward wood 3),
                     setTimers
                       (Timers.setTimeout (Respawn id) t4 (Js.num (30 * 1000))
                          (timers s3.2)).2
                       (setNodes (<[id := depleted]>) s3.2))).
  { subst s4. rewrite (interact_final _ _ _ (hit (hit (hit n0)))); try done.
    rewrite E3. cbn. by rewrite lookup_insert_eq. }
  assert (N4 : nodes s4.2 !! id = Some depleted).
  { rewrite E4. cbn. by rewrite lookup_insert_eq. }
  split_and!.
  - by rewrite E1.
  - by rewrite E2.
  - by rewrite E3.
  - rewrite E3. cbn. by rewrite lookup_insert_eq.
  - by rewrite E4.
  - by rewrite N4.
  - by apply (interact_depleted _ _ _ depleted).
  - change (Resources.new Tree p) with (respawn depleted).
    eapply (runDueTimers_respawn now id depleted s4.2
              (Timers.mkTimer (Timers.nextTimerId (timers s3.2))
                 (t4 + Js.num (30 * 1000))%Qc (Respawn id))); [done| |done|].
    + rewrite E4. cbn. apply elem_of_app. right.
      by apply list_elem_of_singleton.
    + cbn [Timers.due].
      replace (Js.num (30 * 1000)) with (Js.num 30 * Js.num 1000)%Qc; [done|].
      by apply Qc_is_canon.
Qed.

(** the round trip on tree 2 of the first chunk of [Scenario.firstFrame] *)
Lemma tree_depletion_round_trip_witness :
  nodes Scenario.firstFrame !! 2%nat
  = Some (Resources.new Tree (vec (Js.num (-100)) 0 (Js.num (-100))))
  ∧ (0 + Js.num 30 * Js.num 1000 ≤ Js.num 30000)%Qc
  ∧ nodes (runDueTimers (Js.num 30000) Scenario.harvested) !! 2%nat
    = Some (Resources.new Tree (vec (Js.num (-100)) 0 (Js.num (-100)))).
Proof.
  assert (Hn : nodes Scenario.firstFrame !! 2%nat
               = Some (Resources.new Tree (vec (Js.num (-100)) 0 (Js.num (-100))))).
  { vm_compute. reflexivity. }
  assert (Hnow : (0 + Js.num 30 * Js.num 1000 ≤ Js.num 30000)%Qc).
  { vm_compute. discriminate. }
  pose proof (tree_depletion_round_trip Scenario.firstFrame 2
                (vec (Js.num (-100)) 0 (Js.num (-100))) 0 0 0 0 0
                (Js.num 30000) Hn Hnow) as HT.
  cbv zeta in HT. destruct HT as (_ & _ & _ & _ & _ & _ & _ & HT).
  split_and!; [exact Hn|exact Hnow|exact HT].
Defined.

End NodeFacts.

Module WorldClaims.
Import Resources World WorldSpec Scenario WorldFacts ResidencyFacts HeightFacts.

Section Claims.
Context `{Environment}.


(** C9, as the code has it. Evicting a resident chunk removes it from the
    chunk map (and only it), takes its terrain mesh out of the scene and
    disposes the geometry and the material of that mesh. The pending respawn
    timers are left as they are: none is cancelled. *)
Theorem eviction_effects (k : Z * Z) (chunk : Chunk) (w : State) :
  chunks w !! k = Some chunk →
  let w' := removeChunk k w in
  chunks w' = delete k (chunks w)
  ∧ (∀ m, terrain chunk = Some m →
          (TerrainMesh (meshId m) ∉ scene w')
          ∧ (Geometry (meshId m) ∈ disposed w')
          ∧ (Material (meshId m) ∈ disposed w'))
  ∧ timers w' = timers w.
Proof.
  intros Hk w'. split_and!.
  - apply removeChunk_chunks.
  - intros m Hm. subst w'. unfold removeChunk. rewrite Hk, Hm.
    rewrite foldl_disposeObject.
    assert (Hs : ∀ s : list SceneObject,
               TerrainMesh (meshId m)
               ∉ (filter (λ o, o ≠ TerrainMesh (meshId m)) s)).
    { intros s [Hne _]%list_elem_of_filter. by apply Hne. }
    assert (Hg : ∀ d, Geometry (meshId m)
                      ∈ d ++ [Geometry (meshId m); Material (meshId m)]).
    { intros d. apply elem_of_app. right. apply elem_of_cons. by left. }
    assert (Hmat : ∀ d, Material (meshId m)
                        ∈ d ++ [Geometry (meshId m); Material (meshId m)]).
    { intros d. apply elem_of_app. right. apply elem_of_cons. right.
      by apply list_elem_of_singleton. }
    cbn. destruct (physicsEnabled w); [|by cbn].
    destruct (terrainBodies w !! Some k); by cbn.
  - apply removeChunk_frame.
Qed.

(** C10. Evicting a chunk leaves the flat registry [World.objects] as it
    was, and the stored nodes with it: after the chunk has left the map,
    [checkInteraction] and [getObjectsNear] answer exactly as before, so they
    still return the nodes of the evicted chunk. *)
Theorem eviction_keeps_registry (k : Z * Z) (w : State) :
  let w' := removeChunk k w in
  chunks w' !! k = None
  ∧ objects w' = objects w
  ∧ (∀ id, nodes w' !! id = nodes w !! id)
  ∧ (∀ p r, checkInteraction w' p r = checkInteraction w p r)
  ∧ (∀ p r, getObjectsNear w' p r = getObjectsNear w p r).
Proof.
  intros w'. destruct (removeChunk_frame k w) as (Ho & Hn & _ & _).
  fold w' in Ho, Hn. split_and!.
  - subst w'. rewrite removeChunk_chunks. apply lookup_delete_eq.
  - done.
  - intros id. by rewrite Hn.
  - intros p r. unfold checkInteraction. by rewrite Ho, Hn.
  - intros p r. unfold getObjectsNear. by rewrite Ho, Hn.
Qed.

End Claims.



(** C1, on the code. In the first frame the chunk (0,0) is resident and the
    1089 vertices of its terrain all have height 6, so the interpolated
    height at the centre of its first grid cell is 6; but the chunk carries
    no height grid, and [getHeightAt] answers 0 there. *)
Theorem generated_heights_not_served :
  terrainHeights firstFrame (0, 0) = Some (replicate 1089 6%Q)
  ∧ heightMap <$> chunks firstFrame !! (0, 0) = Some None
  ∧ getHeightAt firstFrame (cell * Js.frac 1 2) (cell * Js.frac 1 2)
    = Js.fin 0.
Proof. split_and!; vm_compute; reflexivity. Qed.

(** C9, the claim as stated, refuted. Tree 2 belongs to chunk (-2,-2); it is
    harvested, which sets its respawn timer, and the player walks away. The
    chunk is evicted, and the timer of its tree is still pending. *)
Lemma eviction_leaves_respawn_timer :
  ∃ chunk,
    chunks harvested !! (-2, -2) = Some chunk
    ∧ chunks movedAway !! (-2, -2) = None
    ∧ ¬ noDanglingTimers chunk movedAway.
Proof.
  destruct (chunks harvested !! (-2, -2)) as [chunk|] eqn:Hk;
    [|by vm_compute in Hk].
  exists chunk. split_and!; [reflexivity|vm_compute; reflexivity|].
  intros Hno.
  assert (Ho : chunkObjects <$> chunks harvested !! (-2, -2)
               = Some [2; 3; 4; 5; 6; 7; 8; 9]%nat) by (vm_compute; reflexivity).
  rewrite Hk in Ho. injection Ho as Ho.
  apply (Hno (Timers.mkTimer 1 (0 + Js.num (30 * 1000))%Qc (Respawn 2)) 2%nat).
  - assert (Hp : Timers.pending (timers movedAway)
                 = [Timers.mkTimer 1 (0 + Js.num (30 * 1000))%Qc (Respawn 2)]).
    { vm_compute. do 2 f_equal. }
    rewrite Hp. by apply list_elem_of_singleton.
  - reflexivity.
  - rewrite Ho. apply elem_of_cons. by left.
Qed.

(** eviction of chunk (-2,-2) of [Scenario.harvested] *)
Lemma eviction_effects_witness :
  is_Some (chunks harvested !! (-2, -2))
  ∧ chunks (removeChunk (-2, -2) harvested) !! (-2, -2) = None
  ∧ timers (removeChunk (-2, -2) harvested) = timers harvested.
Proof.
  destruct (chunks harvested !! (-2, -2)) as [chunk|] eqn:Hk;
    [|by vm_compute in Hk].
  destruct (eviction_effects (-2, -2) chunk harvested Hk) as (Hc & _ & Ht).
  split_and!; [by exists chunk| |exact Ht].
  rewrite Hc. apply lookup_delete_eq.
Defined.

(** After the eviction of every chunk of the first frame, the rocks and the
    trees of the old chunk (-2,-2) are still found around its corner. *)
Lemma evicted_nodes_still_found :
  chunks movedAway !! (-2, -2) = None
  ∧ checkInteraction movedAway (vec (Js.num (-100)) 0 (Js.num (-100))) 1
    = Some 3%nat
  ∧ getObjectsNear movedAway (vec (Js.num (-100)) 0 (Js.num (-100))) 1
    = [2; 3; 4; 5; 6; 7; 8; 9]%nat.
Proof. split_and!; vm_compute; reflexivity. Qed.

End WorldClaims.

(** ** Damage intake *)
Module DamageFacts.
Import Resources Units.

Section Enemy.
Context `{Kinematics}.

(** A dead EnemyUnit ignores damage: nothing changes, 0 is returned. *)
Lemma takeDamage_dead amount r1 r2 (e : EnemyUnit) :
  isAlive e = false → takeDamage amount r1 r2 e = (e, 0%Qc, false).
Proof. intros Hd. unfold takeDamage. by rewrite Hd. Qed.

(** [die()] does nothing on a unit that is not alive. *)
Lemma die_dead r1 r2 (e : EnemyUnit) :
  isAlive e = false → die r1 r2 e = (None, e, false).
Proof. intros Hd. unfold die. by rewrite Hd. Qed.

(** [takeDamage] clears [isAlive] before it calls [die()], so the guard of
    [die()] always stops it: [notifyDeath()] is never reached from a blow. *)
Lemma takeDamage_never_notifies amount r1 r2 (e : EnemyUnit) :
  (takeDamage amount r1 r2 e).2 = false.
Proof.
  unfold takeDamage. destruct (isAlive e); [|done]. cbn [negb].
  cbv zeta. destruct (Js.leb _ _); [|done].
  by rewrite die_dead.
Qed.

(** What a blow does to a living EnemyUnit: the health goes down by the
    amount, unclamped, and the unit dies when it reaches 0 or less. *)
Lemma takeDamage_alive amount r1 r2 (e : EnemyUnit) :
  isAlive e = true →
  let e' := (takeDamage amount r1 r2 e).1.1 in
  health e' = (health e - amount)%Qc
  ∧ isAlive e' = negb (Js.leb (health e - amount)%Qc 0%Qc)
  ∧ identity e' = identity e.
Proof.
  intros Ha. unfold takeDamage. rewrite Ha. cbn [negb]. cbv zeta.
  cbn [health setCombat]. destruct (Js.leb _ _) eqn:E; [|done].
  by rewrite die_dead.
Qed.

(** the state of a unit never resurrects it *)
Lemma takeDamage_stays_dead amount r1 r2 (e : EnemyUnit) :
  isAlive e = false → isAlive (takeDamage amount r1 r2 e).1.1 = false.
Proof. intros Hd. by rewrite takeDamage_dead. Qed.

End Enemy.

(** An AnimalUnit keeps its health at 0 or above, and a dead one is left as
    it is by any further damage. *)
Lemma animalTakeDamage_clamps amount u :
  (0 ≤ animalHealth u)%Qc → (0 ≤ animalHealth (animalTakeDamage amount u))%Qc.
Proof.
  intros Hh. unfold animalTakeDamage. cbn.
  destruct (Js.leb _ _) eqn:E; [done|].
  assert (Hn : ¬ (animalHealth u - amount ≤ 0)%Qc).
  { intros Hle. apply JsFacts.leb_le in Hle. congruence. }
  apply Qcnot_le_lt in Hn. by apply Qclt_le_weak.
Qed.

Lemma animalTakeDamage_dead amount u :
  (0 ≤ amount)%Qc → animalHealth u = 0%Qc →
  animalTakeDamage amount u = u.
Proof.
  intros Ha Hh. unfold animalTakeDamage. rewrite Hh.
  assert (E : Js.leb (0 - amount)%Qc 0%Qc = true).
  { apply JsFacts.leb_le. qc2q. lra. }
  rewrite E. destruct u. cbn in *. by subst.
Qed.

(** The Objective keeps its health at 0 or above. *)
Lemma objectiveTakeDamage_clamps amount o :
  (0 ≤ objectiveHealth (objectiveTakeDamage amount o))%Qc.
Proof.
  unfold objectiveTakeDamage, clamp0. cbn.
  destruct (Js.leb 0%Qc _) eqn:E; [by apply JsFacts.leb_le|done].
Qed.

(** A blow on a destroyed Objective leaves its health at 0 and calls
    [objectiveDestroyed()] once more. *)
Lemma objectiveTakeDamage_destroyed amount o :
  (0 ≤ amount)%Qc → objectiveHealth o = 0%Qc →
  objectiveTakeDamage amount o
  = mkObjective 0%Qc (objectiveMaxHealth o) (S (gameOverShown o)).
Proof.
  intros Ha Hh. unfold objectiveTakeDamage, clamp0. rewrite Hh.
  destruct (Js.leb 0%Qc (0 - amount)%Qc) eqn:E.
  - apply JsFacts.leb_le in E.
    assert (E0 : amount = 0%Qc).
    { apply Qcle_antisym; [|done]. qc2q. lra. }
    subst amount. done.
  - done.
Qed.

(** C4, on the code. A goblin of health 50 that takes 60 is left with health
    -10: EnemyUnit does not clamp. An Objective brought to 0 and hit again
    runs [objectiveDestroyed()] a second time: it has no guard for being
    destroyed already. *)
Theorem takeDamage_contract_broken :
  let e := newEnemyUnit (H := Scenario.still) 0 goblin
             (EnemySystem.enemyTypes goblin) tt in
  let o := objectiveTakeDamage (Js.num 1000) newObjective in
  health e = Js.num 50
  ∧ health (takeDamage (Js.num 60) 0 0 e).1.1 = Js.num (-10)
  ∧ objectiveHealth o = 0%Qc
  ∧ gameOverShown o = 1%nat
  ∧ gameOverShown (objectiveTakeDamage (Js.num 10) o) = 2%nat.
Proof.
  cbv zeta. split_and!; try (vm_compute; reflexivity);
    apply Qc_is_canon; reflexivity.
Qed.

End DamageFacts.

(** ** The wave director *)
Module DirectorFacts.
Import Resources Units EnemySystem DirectorSpec.

Section Director.
Context `{Kinematics}.

(** *** Scheduling *)

Lemma staggered_snoc c now gap n0 (n : nat) :
  staggered c now gap n0 (Z.of_nat (S n))
  = staggered c now gap n0 (Z.of_nat n)
    ++ [Timers.mkTimer (n0 + n)%nat (now + Js.num (Z.of_nat n * gap))%Qc c].
Proof.
  unfold staggered. rewrite seqZ_S.
  rewrite fmap_app. cbn. by rewrite Z.add_0_l, Nat2Z.id.
Qed.

Lemma staggered_nonpos c now gap n0 k : k ≤ 0 → staggered c now gap n0 k = [].
Proof. intros Hk. unfold staggered. by rewrite seqZ_nil. Qed.

Lemma length_staggered c now gap n0 k :
  length (staggered c now gap n0 k) = Z.to_nat k.
Proof. unfold staggered. by rewrite length_fmap, length_seqZ. Qed.

Lemma foldl_schedule_nat c now gap (n : nat) s :
  0 < enemiesRemaining s →
  foldl (schedule c now gap) s (seqZ 0 (Z.of_nat n))
  = setTimers
      (Timers.mkQueue
         (Timers.pending (timers s)
          ++ staggered c now gap (Timers.nextTimerId (timers s)) (Z.of_nat n))
         (Timers.nextTimerId (timers s) + n)%nat) s.
Proof.
  intros Hr. induction n as [|n IH].
  - cbn. rewrite app_nil_r, Nat.add_0_r. by destruct s as [? ? ? ? ? ? ? ? ? ? ? [? ?] ?].
  - rewrite seqZ_S, foldl_app, IH, staggered_snoc. cbn.
    unfold schedule. cbn.
    destruct (0 <? enemiesRemaining s) eqn:E; [|apply Z.ltb_ge in E; lia].
    unfold setTimers. cbn. rewrite Z.add_0_l, <- app_assoc.
    by rewrite Nat.add_succ_r.
Qed.

Lemma foldl_schedule c now gap k s :
  0 < enemiesRemaining s →
  foldl (schedule c now gap) s (seqZ 0 k)
  = setTimers
      (Timers.mkQueue
         (Timers.pending (timers s)
          ++ staggered c now gap (Timers.nextTimerId (timers s)) k)
         (Timers.nextTimerId (timers s) + Z.to_nat k)%nat) s.
Proof.
  intros Hr. destruct (Z_le_gt_dec k 0) as [Hk|Hk].
  - rewrite seqZ_nil, staggered_nonpos by lia. cbn.
    replace (Z.to_nat k) with 0%nat by lia.
    rewrite app_nil_r, Nat.add_0_r. by destruct s as [? ? ? ? ? ? ? ? ? ? ? [? ?] ?].
  - rewrite <- (Z2Nat.id k) at 1 2 by lia. by apply foldl_schedule_nat.
Qed.

Lemma foldl_schedule_idle c now gap k s :
  enemiesRemaining s ≤ 0 → foldl (schedule c now gap) s (seqZ 0 k) = s.
Proof.
  intros Hr. induction (seqZ 0 k) as [|i l IH]; [done|]. cbn.
  unfold schedule at 2.
  destruct (0 <? enemiesRemaining s) eqn:E; [apply Z.ltb_lt in E; lia|done].
Qed.

(** [startNextWave]: the counters and the burst it queues *)
Lemma startNextWave_spec now s :
  0 < Z.min (5 + (waveNumber s + 1) * 2) 30 →
  startNextWave now s
  = setTimers
      (Timers.mkQueue
         (Timers.pending (timers s)
          ++ staggered BurstSpawn now 500 (Timers.nextTimerId (timers s))
               (Z.min (3 + (waveNumber s + 1) / 2) 10))
         (Timers.nextTimerId (timers s)
          + Z.to_nat (Z.min (3 + (waveNumber s + 1) / 2) 10))%nat)
      (setEnemiesRemaining (Z.min (5 + (waveNumber s + 1) * 2) 30)
         (setLastSpawnTime (Some (now / Js.num 1000)%Qc)
            (setWaveStartTime (Some (now / Js.num 1000)%Qc)
               (setWaveInProgress true (setWaveNumber (waveNumber s + 1) s))))).
Proof.
  intros Hpos. unfold startNextWave. cbv zeta.
  by rewrite foldl_schedule.
Qed.

(** [spawnWaveEnemies] when something remains to spawn *)
Lemma spawnWaveEnemies_spec now r count s :
  0 < enemiesRemaining s →
  let n0 := Timers.nextTimerId (timers s) in
  let k := Z.min count (enemiesRemaining s) in
  let queued := Timers.pending (timers s) ++ staggered SpawnOne now 800 n0 k in
  let kept := withoutHandle (nextSpawnTimeout s) queued in
  let id := (n0 + Z.to_nat k)%nat in
  spawnWaveEnemies now r count s
  = setNextSpawnTimeout (Some id)
      (setTimers
         (Timers.mkQueue
            (kept ++ [Timers.mkTimer id (now + (Js.num 4000 + r * Js.num 4000))%Qc
                        NextBatch])
            (S id))
         (setLastSpawnTime (Some (now / Js.num 1000)%Qc) s)).
Proof.
  intros Hr n0 k queued kept id. unfold spawnWaveEnemies. cbv zeta.
  rewrite foldl_schedule by done. cbn.
  destruct (0 <? enemiesRemaining s) eqn:E; [|apply Z.ltb_ge in E; lia].
  unfold kept, withoutHandle. destruct (nextSpawnTimeout s) as [old|]; done.
Qed.

(** [spawnWaveEnemies] when nothing remains: only the spawn time moves *)
Lemma spawnWaveEnemies_idle now r count s :
  enemiesRemaining s ≤ 0 →
  spawnWaveEnemies now r count s
  = setLastSpawnTime (Some (now / Js.num 1000)%Qc) s.
Proof.
  intros Hr. unfold spawnWaveEnemies. cbv zeta.
  rewrite foldl_schedule_idle by done. cbn.
  destruct (0 <? enemiesRemaining s) eqn:E; [apply Z.ltb_lt in E; lia|done].
Qed.

(** the delay of a batch lies between 4 and 8 seconds *)
Lemma batch_delay r :
  (0 ≤ r)%Qc → (r < 1)%Qc →
  (Js.num 4000 ≤ Js.num 4000 + r * Js.num 4000)%Qc
  ∧ (Js.num 4000 + r * Js.num 4000 < Js.num 8000)%Qc.
Proof. intros H0 H1. qc2q. unfold inject_Z. lra. Qed.

End Director.
End DirectorFacts.

Module RosterFacts.
Import Resources Units EnemySystem DirectorSpec DamageFacts DirectorFacts.

(** a draw in [0, 1) picks an element of a list that is not empty *)
Lemma pick_in_range {A} (r : Qc) (l : list A) :
  l ≠ [] → (0 ≤ r)%Qc → (r < 1)%Qc →
  ∃ x, pick r l = Some x ∧ x ∈ l.
Proof.
  intros Hl H0 H1. unfold pick.
  assert (0 < Z.of_nat (length l)) as Hlen by (destruct l; [done|cbn; lia]).
  assert (0 ≤ Js.floor (r * Js.num (Z.of_nat (length l))) < Z.of_nat (length l))
    as Hi.
  { rewrite Zlt_Qlt in Hlen.
    apply FloorFacts.floor_range; qc2q;
      set (L := inject_Z (Z.of_nat (length l))) in *; clearbody L;
      unfold inject_Z in *; nra. }
  destruct (_ <? 0) eqn:E; [apply Z.ltb_lt in E; lia|].
  destruct (lookup_lt_is_Some_2 l
              (Z.to_nat (Js.floor (r * Js.num (Z.of_nat (length l))))))
    as [x Hx]; [lia|].
  exists x. split; [done|]. by eapply list_elem_of_lookup_2.
Qed.

Section Roster.
Context `{Kinematics}.

(** *** The roster *)

Lemma length_removeFirst id (l : list EnemyUnit) :
  (length (removeFirst id l) ≤ length l)%nat.
Proof.
  unfold removeFirst. destruct (list_find _ l) as [[i e]|] eqn:E; [|done].
  apply list_find_Some in E as (Hi & _). rewrite (length_delete l i) by eauto.
  lia.
Qed.

Lemma updateUnit_alive now dt (e : EnemyUnit) :
  isAlive e = true → isAlive (updateUnit now dt e).1 = true.
Proof. intros Ha. unfold updateUnit. by rewrite Ha. Qed.

Lemma updateUnit_identity now dt (e : EnemyUnit) :
  identity (updateUnit now dt e).1 = identity e.
Proof. unfold updateUnit. by destruct (isAlive e). Qed.

(** a method call changes no reference of the roster *)
Lemma mutate_identity (e' : EnemyUnit) l :
  identity <$> mutate e' l = identity <$> l.
Proof.
  unfold mutate. rewrite <- list_fmap_compose. apply list_fmap_ext.
  intros i e _. cbn. by case_decide.
Qed.

Lemma length_mutate (e' : EnemyUnit) l : length (mutate e' l) = length l.
Proof. unfold mutate. by rewrite length_fmap. Qed.

Lemma Forall_mutate (P : EnemyUnit → Prop) e' l :
  P e' → Forall P l → Forall P (mutate e' l).
Proof.
  intros He Hl. unfold mutate. apply Forall_fmap.
  eapply Forall_impl; [exact Hl|]. intros e Hp. cbn. by case_decide.
Qed.

Lemma mutate_same (e : EnemyUnit) l :
  (∀ e1 e2, e1 ∈ l → e2 ∈ l → identity e1 = identity e2 → e1 = e2) →
  e ∈ l → mutate e l = l.
Proof.
  intros Hal He. unfold mutate. rewrite <- (list_fmap_id l) at 2.
  apply list_fmap_ext. intros i e1 Hi. cbn. case_decide; [|done].
  symmetry. apply Hal; [by eapply list_elem_of_lookup_2|done|done].
Qed.

(** counting each identity once: fewer identities, fewer enemies *)
Lemma length_remove_dups_subseteq (l k : list nat) :
  l ⊆ k → (length (remove_dups l) ≤ length (remove_dups k))%nat.
Proof.
  intros Hs. apply submseteq_length, NoDup_submseteq; [apply NoDup_remove_dups|].
  intros x. rewrite !elem_of_remove_dups. apply Hs.
Qed.

Lemma fielded_subseteq s s' :
  identity <$> enemies s' ⊆ identity <$> enemies s →
  (length (fielded s') ≤ length (fielded s))%nat.
Proof. apply length_remove_dups_subseteq. Qed.

Lemma identities_delete i (l : list EnemyUnit) :
  identity <$> delete i l ⊆ identity <$> l.
Proof.
  apply sublist_subseteq, fmap_sublist, sublist_delete.
Qed.

Lemma identities_removeFirst id (l : list EnemyUnit) :
  identity <$> removeFirst id l ⊆ identity <$> l.
Proof.
  unfold removeFirst. destruct (list_find _ l) as [[i e]|]; [|done].
  apply identities_delete.
Qed.

(** one iteration of the second loop of [update] leaves the pacing alone,
    does not lengthen the roster and brings no enemy into it *)
Lemma updateEnemyAt_frame now dt r1 r2 i s :
  let s' := updateEnemyAt now dt r1 r2 i s in
  pacing s' = pacing s
  ∧ (length (enemies s') ≤ length (enemies s))%nat
  ∧ identity <$> enemies s' ⊆ identity <$> enemies s
  ∧ nextIdentity s' = nextIdentity s.
Proof.
  cbv zeta. unfold updateEnemyAt.
  destruct (enemies s !! i) as [enemy|] eqn:Hi; [|done].
  destruct (isAlive enemy) eqn:Ha; cbn [negb].
  - unfold updateUnit. rewrite Ha. cbn [negb]. cbv zeta.
    destruct (match _ with Attack => _ | _ => _ end);
      cbn; by rewrite length_mutate, mutate_identity.
  - rewrite die_dead by done. cbn.
    split_and!; [done| | |done].
    + assert (Hi' : is_Some (mutate enemy (enemies s) !! i)).
      { apply lookup_lt_is_Some. rewrite length_mutate.
        by apply lookup_lt_is_Some_1; eexists. }
      rewrite (length_delete _ i), length_mutate by done. lia.
    + etrans; [apply identities_delete|]. by rewrite mutate_identity.
Qed.

Lemma updateEnemies_frame now dt r1 r2 n s :
  let s' := updateEnemies now dt r1 r2 n s in
  pacing s' = pacing s
  ∧ (length (enemies s') ≤ length (enemies s))%nat
  ∧ identity <$> enemies s' ⊆ identity <$> enemies s
  ∧ nextIdentity s' = nextIdentity s.
Proof.
  cbv zeta. revert s. induction n as [|n IH]; intros s; [done|]. cbn.
  destruct (IH (updateEnemyAt now dt r1 r2 n s)) as (Hp & Hl & Hs & Hn).
  destruct (updateEnemyAt_frame now dt r1 r2 n s) as (Hp' & Hl' & Hs' & Hn').
  split_and!; [congruence|lia|by etrans|congruence].
Qed.

(** On a roster of living enemies the second loop emits nothing, credits
    nothing and removes nobody. *)
Lemma updateEnemyAt_alive now dt r1 r2 i s :
  allAlive s →
  let s' := updateEnemyAt now dt r1 r2 i s in
  allAlive s' ∧ events s' = events s ∧ inventory s' = inventory s
  ∧ length (enemies s') = length (enemies s).
Proof.
  intros Hall. unfold updateEnemyAt.
  destruct (enemies s !! i) as [enemy|] eqn:Hi; [|done].
  assert (Ha : isAlive enemy = true).
  { eapply (Forall_lookup_1 _ _ _ _ Hall Hi). }
  rewrite Ha. cbn [negb].
  pose proof (updateUnit_alive now dt enemy Ha) as Ha'.
  destruct (updateUnit now dt enemy) as [enemy' blow]. cbn in Ha'.
  assert (Hall' : Forall (λ e, isAlive e = true) (mutate enemy' (enemies s))).
  { by apply Forall_mutate. }
  destruct blow; cbn; by rewrite length_mutate.
Qed.

Lemma updateEnemies_alive now dt r1 r2 n s :
  allAlive s →
  let s' := updateEnemies now dt r1 r2 n s in
  allAlive s' ∧ events s' = events s ∧ inventory s' = inventory s
  ∧ length (enemies s') = length (enemies s).
Proof.
  revert s. induction n as [|n IH]; intros s Hall; [done|]. cbn.
  destruct (updateEnemyAt_alive now dt r1 r2 n s Hall) as (Ha & He & Hi & Hl).
  destruct (IH _ Ha) as (Ha' & He' & Hi' & Hl').
  split_and!; [done|congruence|congruence|congruence].
Qed.

Lemma cleanUp_alive s : allAlive (cleanUp s).
Proof.
  unfold allAlive, cleanUp. cbn. apply list.Forall_forall.
  by intros e [? _]%list_elem_of_filter.
Qed.

Lemma cleanUp_frame s :
  pacing (cleanUp s) = pacing s
  ∧ events (cleanUp s) = events s
  ∧ inventory (cleanUp s) = inventory s
  ∧ (length (enemies (cleanUp s)) ≤ length (enemies s))%nat
  ∧ identity <$> enemies (cleanUp s) ⊆ identity <$> enemies s
  ∧ nextIdentity (cleanUp s) = nextIdentity s.
Proof.
  unfold cleanUp. cbn. split_and!; try done; [apply length_filter|].
  apply sublist_subseteq, fmap_sublist, sublist_filter.
Qed.

(** *** What the blocks of [update] emit *)

Lemma foldl_schedule_events c now gap l s :
  events (foldl (schedule c now gap) s l) = events s
  ∧ inventory (foldl (schedule c now gap) s l) = inventory s
  ∧ enemies (foldl (schedule c now gap) s l) = enemies s
  ∧ enemiesRemaining (foldl (schedule c now gap) s l) = enemiesRemaining s
  ∧ waveNumber (foldl (schedule c now gap) s l) = waveNumber s
  ∧ nextSpawnTimeout (foldl (schedule c now gap) s l) = nextSpawnTimeout s.
Proof.
  revert s. induction l as [|i l IH]; intros s; [done|]. cbn.
  destruct (IH (schedule c now gap s i)) as (-> & -> & -> & -> & -> & ->).
  unfold schedule. by destruct (0 <? enemiesRemaining s).
Qed.

Lemma spawnWaveEnemies_frame now r count s :
  let s' := spawnWaveEnemies now r count s in
  events s' = events s ∧ inventory s' = inventory s
  ∧ enemies s' = enemies s ∧ enemiesRemaining s' = enemiesRemaining s
  ∧ waveNumber s' = waveNumber s ∧ waveInProgress s' = waveInProgress s.
Proof.
  destruct (Z_lt_le_dec 0 (enemiesRemaining s)) as [Hr|Hr].
  - cbv zeta. by rewrite spawnWaveEnemies_spec.
  - cbv zeta. by rewrite spawnWaveEnemies_idle.
Qed.

Lemma startNextWave_frame now s :
  let s' := startNextWave now s in
  events s' = events s ∧ inventory s' = inventory s
  ∧ enemies s' = enemies s ∧ waveNumber s' = waveNumber s + 1.
Proof.
  unfold startNextWave. cbv zeta.
  match goal with |- context [foldl ?f ?a ?l] =>
    destruct (foldl_schedule_events BurstSpawn now 500 l a)
      as (-> & -> & -> & _ & -> & _) end.
  done.
Qed.

Lemma completeWave_spec s :
  let s' := completeWave s in
  enemies s' = [] ∧ enemiesRemaining s' = 0 ∧ waveInProgress s' = false
  ∧ waveNumber s' = waveNumber s
  ∧ events s' = events s
  ∧ nextSpawnTimeout s' = None
  ∧ timeUntilNextWave s' = Js.num (20 + waveNumber s * 2)
  ∧ inventory s'
    = addItem stone (waveNumber s + enemiesRemaining s)
        (addItem wood (waveNumber s * 3 + enemiesRemaining s * 2) (inventory s))
  ∧ Timers.pending (timers s')
    = withoutHandle (nextSpawnTimeout s) (Timers.pending (timers s)).
Proof.
  unfold completeWave. destruct (nextSpawnTimeout s) eqn:E; cbn; by rewrite ?E.
Qed.

(** [update] emits no event: the enemies that are not alive leave the roster
    in its first loop, which emits nothing, and the second loop then meets
    living enemies only. *)
Lemma update_events now dt r r1 r2 s :
  events (update now dt r r1 r2 s) = events s.
Proof.
  unfold update. cbv zeta.
  set (s1 := waveWatchdog now s).
  set (s2 := waveMechanics now dt s1).
  set (s3 := stuckCountdown now s2).
  set (s4 := spawnWatchdog now r s3).
  destruct (updateEnemies_alive now dt r1 r2 (length (enemies (cleanUp s4)))
              (cleanUp s4) (cleanUp_alive s4)) as (_ & -> & _).
  destruct (cleanUp_frame s4) as (_ & -> & _).
  assert (E4 : events s4 = events s3).
  { subst s4. unfold spawnWatchdog.
    destruct (nextSpawnTimeout s3) as [id|]; [|done].
    destruct (lastSpawnTime s3) as [last|]; [|done].
    destruct (_ && _); [|done]. cbv zeta.
    destruct (0 <? _).
    - by destruct (spawnWaveEnemies_frame now r
                     (enemiesRemaining (setNextSpawnTimeout None (clearTimeout id s3)))
                     (setNextSpawnTimeout None (clearTimeout id s3))) as (-> & _).
    - destruct (bool_decide _); [|done].
      by destruct (completeWave_spec
                     (setNextSpawnTimeout None (clearTimeout id s3)))
        as (_ & _ & _ & _ & -> & _). }
  assert (E3 : events s3 = events s2).
  { subst s3. unfold stuckCountdown. destruct (_ && _); [|done].
    by destruct (startNextWave_frame now s2) as (-> & _). }
  assert (E2 : events s2 = events s1).
  { subst s2. unfold waveMechanics. destruct (waveInProgress s1).
    - destruct (_ && _); [|done].
      by destruct (completeWave_spec s1) as (_ & _ & _ & _ & -> & _).
    - cbv zeta. destruct (Js.leb _ _); [|done].
      by destruct (startNextWave_frame now
                     (setTimeUntilNextWave (timeUntilNextWave s1 - dt)%Qc s1))
        as (-> & _). }
  assert (E1 : events s1 = events s).
  { subst s1. unfold waveWatchdog. destruct (waveStartTime s); [|done].
    by destruct (_ && _). }
  congruence.
Qed.

Lemma truthy_Some t : t ≠ 0%Qc → truthy (Some t) = true.
Proof.
  intros Ht. cbn. apply negb_true_iff.
  destruct (Qc_eq_bool t 0) eqn:E; [|done].
  by apply Qc_eq_bool_correct in E.
Qed.

Lemma pacing_eq s s' :
  pacing s' = pacing s →
  waveNumber s' = waveNumber s ∧ enemiesRemaining s' = enemiesRemaining s
  ∧ waveInProgress s' = waveInProgress s
  ∧ timeUntilNextWave s' = timeUntilNextWave s
  ∧ nextSpawnTimeout s' = nextSpawnTimeout s ∧ timers s' = timers s.
Proof. unfold pacing. intros [= -> -> -> -> _ _ -> ->]. done. Qed.

(** the last two loops of [update] on a state whose pacing is known *)
Lemma update_tail now dt r1 r2 s :
  let s' := updateEnemies now dt r1 r2 (length (enemies (cleanUp s))) (cleanUp s) in
  pacing s' = pacing s
  ∧ inventory s' = inventory s
  ∧ (length (enemies s') ≤ length (enemies s))%nat
  ∧ identity <$> enemies s' ⊆ identity <$> enemies s
  ∧ nextIdentity s' = nextIdentity s.
Proof.
  cbv zeta.
  destruct (updateEnemies_frame now dt r1 r2 (length (enemies (cleanUp s)))
              (cleanUp s)) as (Hp & Hl & Hs & Hn).
  destruct (updateEnemies_alive now dt r1 r2 (length (enemies (cleanUp s)))
              (cleanUp s) (cleanUp_alive s)) as (_ & _ & Hi & _).
  destruct (cleanUp_frame s) as (Hp' & _ & Hi' & Hl' & Hs' & Hn').
  split_and!; [congruence|congruence|lia|by etrans|congruence].
Qed.

Lemma length_zero_nil {A} (l : list A) : (length l ≤ 0)%nat → l = [].
Proof. destruct l; cbn; [done|lia]. Qed.

(** *** One spawn *)

Lemma availableTypes_nonempty w : availableTypes w ≠ [].
Proof.
  unfold availableTypes.
  by destruct (1 <=? w), (3 <=? w), (5 <=? w), (7 <=? w), (9 <=? w).
Qed.

(** [spawnEnemy] either fails and leaves the director as it was, or makes
    one new living enemy, of a type unlocked in this wave; the roster then
    holds the old enemies and the new one, which was announced. *)
Lemma spawnEnemy_cases d s :
  let s' := (spawnEnemy d s).2 in
  pacing s' = pacing s ∧ inventory s' = inventory s
  ∧ objective s' = objective s
  ∧ (((spawnEnemy d s).1 = None ∧ s' = s)
     ∨ ∃ enemy,
         (spawnEnemy d s).1 = Some (nextIdentity s)
         ∧ identity enemy = nextIdentity s
         ∧ isAlive enemy = true
         ∧ enemyType enemy ∈ availableTypes (waveNumber s)
         ∧ enemies s' = enemies s ++ [enemy; enemy]
         ∧ events s' = events s ++ [enemySpawned (nextIdentity s);
                                    enemySpawned (nextIdentity s)]
         ∧ nextIdentity s' = S (nextIdentity s)).
Proof.
  cbv zeta. unfold spawnEnemy.
  destruct (pick (typeDraw d) _) as [enemyType|] eqn:Et; [|by split_and!; [..|left]].
  destruct (if Js.ltb _ _ then _ else _) as [v|]; [|by split_and!; [..|left]].
  destruct (constructionThrows d); [by split_and!; [..|left]|].
  cbv zeta. destruct (enemyVariations v) as [[[sc hm] dm] sm]. cbn.
  split_and!; [done|done|done|]. right. eexists.
  do 4 (split; [shelve|]).
  split; [by rewrite <- app_assoc|]. split; [by rewrite <- app_assoc|done].
  Unshelve. 1-3: done.
  cbn. unfold pick in Et. destruct (_ <? 0); [done|].
  by eapply list_elem_of_lookup_2.
Qed.

(** with its draws in [0, 1) a spawn fails only by an exception *)
Lemma spawnEnemy_succeeds d s :
  constructionThrows d = false →
  (0 ≤ typeDraw d)%Qc → (typeDraw d < 1)%Qc →
  (0 ≤ variationDraw d)%Qc → (variationDraw d < 1)%Qc →
  (spawnEnemy d s).1 = Some (nextIdentity s).
Proof.
  intros Ht H0 H1 H2 H3. unfold spawnEnemy.
  destruct (pick_in_range (typeDraw d) (availableTypes (waveNumber s))
              (availableTypes_nonempty _) H0 H1) as (t & -> & _).
  destruct (pick_in_range (variationDraw d) [large; huge; quick]
              ltac:(done) H2 H3) as (v & Hv & _).
  destruct (Js.ltb _ _); rewrite ?Hv, Ht; cbv zeta;
    by destruct (enemyVariations _) as [[[? ?] ?] ?].
Qed.

Lemma spawnEnemy_throws d s :
  constructionThrows d = true → spawnEnemy d s = (None, s).
Proof.
  intros Ht. unfold spawnEnemy.
  destruct (pick (typeDraw d) _); [|done].
  destruct (if Js.ltb _ _ then _ else _); [|done]. by rewrite Ht.
Qed.

(** The staggered callback of [spawnWaveEnemies]: one spawn attempt, and one
    enemy less to spawn whatever became of it; it queues nothing. *)
Lemma spawnOne_spec d s :
  let s' := spawnOne d s in
  enemiesRemaining s' = enemiesRemaining s - 1
  ∧ waveNumber s' = waveNumber s
  ∧ waveInProgress s' = waveInProgress s
  ∧ timers s' = timers s
  ∧ nextSpawnTimeout s' = nextSpawnTimeout s
  ∧ inventory s' = inventory s
  ∧ (((spawnEnemy d s).1 = None ∧ enemies s' = enemies s ∧ events s' = events s
      ∧ nextIdentity s' = nextIdentity s)
     ∨ ∃ enemy,
         (spawnEnemy d s).1 = Some (nextIdentity s)
         ∧ identity enemy = nextIdentity s
         ∧ isAlive enemy = true
         ∧ enemyType enemy ∈ availableTypes (waveNumber s)
         ∧ enemies s' = enemies s ++ [enemy; enemy]
         ∧ events s' = events s ++ [enemySpawned (nextIdentity s);
                                    enemySpawned (nextIdentity s)]
         ∧ nextIdentity s' = S (nextIdentity s)).
Proof.
  cbv zeta. unfold spawnOne.
  destruct (spawnEnemy_cases d s) as (Hp & Hi & _ & Hc).
  apply pacing_eq in Hp as (P1 & P2 & P3 & P4 & P5 & P6). cbn.
  split_and!; [congruence|done|done|done|done|done|].
  destruct Hc as [[Hn ->]|(enemy & ?)]; [by left|by right; exists enemy].
Qed.

(** A queued spawn fires: one spawn attempt is made and one enemy less is
    left to spawn, whatever became of the attempt; nothing is queued. If the
    attempt throws, the roster is as it was; if not, a new living enemy of a
    type unlocked in this wave has joined it. *)
Lemma fire_SpawnOne now r d t s :
  Timers.callback t = SpawnOne →
  let s0 := clearTimeout (Timers.timerId t) s in
  let s' := fire now r d t s in
  enemiesRemaining s' = enemiesRemaining s - 1
  ∧ waveNumber s' = waveNumber s
  ∧ waveInProgress s' = waveInProgress s
  ∧ timers s' = timers s0
  ∧ nextSpawnTimeout s' = nextSpawnTimeout s
  ∧ (constructionThrows d = true → enemies s' = enemies s)
  ∧ (constructionThrows d = false → drawn d →
     ∃ enemy, identity enemy = nextIdentity s ∧ isAlive enemy = true
       ∧ enemyType enemy ∈ availableTypes (waveNumber s)
       ∧ (∀ e, e ∈ enemies s' ↔ e ∈ enemies s ∨ e = enemy)).
Proof.
  intros Ht s0 s'. subst s'. unfold fire. rewrite Ht. fold s0.
  destruct (spawnOne_spec d s0) as (S1 & S2 & S3 & S4 & S5 & _ & S7).
  split_and!; [done|done|done|done|done|..].
  - intros Hthrow. unfold spawnOne. by rewrite spawnEnemy_throws.
  - intros Hok (H0 & H1 & _ & _ & H2 & H3 & _).
    pose proof (spawnEnemy_succeeds d s0 Hok H0 H1 H2 H3) as Hsome.
    destruct S7 as [[Hnone _]|(enemy & _ & Hid & Ha & Hty & He & _)];
      [congruence|].
    exists enemy. split_and!; [done|done|done|].
    intros e. rewrite He. change (enemies s0) with (enemies s).
    rewrite elem_of_app, !elem_of_cons, elem_of_nil. naive_solver.
Qed.

End Roster.
End RosterFacts.

Module ScheduleClaims.
Import Resources Units EnemySystem DirectorSpec DamageFacts DirectorFacts
       RosterFacts.

Section Claims.
Context `{Kinematics}.

(** C6. For every wave number w ≥ 1: [startNextWave] sets the count of
    enemies to spawn to min(5 + 2·w, 30) and queues the initial burst,
    min(3 + floor(w/2), 10) closures 500 ms apart; each burst closure, when
    it fires, queues one spawn at once and sets the batch timeout 4 to 8
    seconds ahead (clearing the one set before); a queued spawn, when it
    fires, makes one spawn attempt, which brings one new enemy into the
    roster unless it throws, and leaves one enemy less to spawn; the batch
    closure, when it fires with enemies remaining, queues
    min(1 + floor(w/3), remaining, 3) spawns, at least one, and sets the next
    batch timeout 4 to 8 seconds ahead; when it fires with nothing remaining
    it queues nothing and sets no timeout, which ends the batches. *)
Theorem wave_schedule (w : Z) (now r : Qc) :
  1 ≤ w → (0 ≤ r)%Qc → (r < 1)%Qc →
  (∀ s, waveNumber s = w - 1 →
     let s1 := startNextWave now s in
     waveNumber s1 = w ∧ waveInProgress s1 = true
     ∧ enemiesRemaining s1 = Z.min (5 + 2 * w) 30
     ∧ Timers.pending (timers s1)
       = Timers.pending (timers s)
         ++ staggered BurstSpawn now 500 (Timers.nextTimerId (timers s))
              (Z.min (3 + w / 2) 10))
  ∧ (∀ s d t, Timers.callback t = BurstSpawn → 0 < enemiesRemaining s →
       let s0 := clearTimeout (Timers.timerId t) s in
       let s' := fire now r d t s in
       let n0 := Timers.nextTimerId (timers s) in
       ∃ delay, (Js.num 4000 ≤ delay)%Qc ∧ (delay ≤ Js.num 8000)%Qc
         ∧ enemiesRemaining s' = enemiesRemaining s
         ∧ Timers.pending (timers s')
           = withoutHandle (nextSpawnTimeout s)
               (Timers.pending (timers s0) ++ staggered SpawnOne now 800 n0 1)
             ++ [Timers.mkTimer (S n0) (now + delay)%Qc NextBatch]
         ∧ nextSpawnTimeout s' = Some (S n0))
  ∧ (∀ s d t, Timers.callback t = SpawnOne →
       let s0 := clearTimeout (Timers.timerId t) s in
       let s' := fire now r d t s in
       enemiesRemaining s' = enemiesRemaining s - 1
       ∧ timers s' = timers s0
       ∧ nextSpawnTimeout s' = nextSpawnTimeout s
       ∧ (constructionThrows d = true → enemies s' = enemies s)
       ∧ (constructionThrows d = false → drawn d →
          ∃ enemy, identity enemy = nextIdentity s ∧ isAlive enemy = true
            ∧ enemyType enemy ∈ availableTypes (waveNumber s)
            ∧ (∀ e, e ∈ enemies s' ↔ e ∈ enemies s ∨ e = enemy)))
  ∧ (∀ s d t, waveNumber s = w → Timers.callback t = NextBatch →
       let s0 := clearTimeout (Timers.timerId t) s in
       let s' := fire now r d t s in
       let n0 := Timers.nextTimerId (timers s) in
       let k := Z.min (1 + w / 3) (Z.min (enemiesRemaining s) 3) in
       (0 < enemiesRemaining s →
        1 ≤ k
        ∧ ∃ delay, (Js.num 4000 ≤ delay)%Qc ∧ (delay ≤ Js.num 8000)%Qc
          ∧ enemiesRemaining s' = enemiesRemaining s
          ∧ Timers.pending (timers s')
            = Timers.pending (timers s0) ++ staggered SpawnOne now 800 n0 k
              ++ [Timers.mkTimer (n0 + Z.to_nat k)%nat (now + delay)%Qc NextBatch]
          ∧ nextSpawnTimeout s' = Some (n0 + Z.to_nat k)%nat)
       ∧ (enemiesRemaining s ≤ 0 →
          timers s' = timers s0 ∧ nextSpawnTimeout s' = None
          ∧ enemiesRemaining s' = enemiesRemaining s)).
Proof.
  intros Hw Hr0 Hr1. destruct (batch_delay r Hr0 Hr1) as [Hd1 Hd2].
  apply Qclt_le_weak in Hd2.
  split_and!.
  - intros s Hs s1. subst s1.
    rewrite startNextWave_spec by (rewrite Hs; lia). cbn.
    replace (waveNumber s + 1) with w by lia.
    split_and!; [done|done|f_equal; lia|done].
  - intros s d t Ht Hrem s0 s' n0.
    exists (Js.num 4000 + r * Js.num 4000)%Qc. split_and!; [done|done|..].
    all: subst s'; unfold fire; rewrite Ht; fold s0.
    all: rewrite spawnWaveEnemies_spec by done; cbn.
    all: replace (Z.min 1 (enemiesRemaining s)) with 1 by lia.
    all: change (Z.to_nat 1) with 1%nat; rewrite ?Nat.add_1_r; done.
  - intros s d t Ht s0 s'.
    destruct (fire_SpawnOne now r d t s Ht) as (F1 & _ & _ & F4 & F5 & F6 & F7).
    by split_and!.
  - intros s d t Hs Ht s0 s' n0 k. split.
    + intros Hrem. split; [pose proof (Z.div_pos w 3); lia|].
      exists (Js.num 4000 + r * Js.num 4000)%Qc. split_and!; [done|done|..].
      all: subst s'; unfold fire, nextBatch; rewrite Ht; fold s0; cbv zeta.
      all: rewrite spawnWaveEnemies_spec by done; cbn.
      all: rewrite ?Hs.
      all: replace (Z.min (Z.min (1 + w / 3) (Z.min (enemiesRemaining s) 3))
                      (enemiesRemaining s)) with k by (subst k; lia).
      all: by rewrite <- ?app_assoc.
    + intros Hrem. subst s'. unfold fire, nextBatch. rewrite Ht. fold s0.
      cbv zeta. by rewrite spawnWaveEnemies_idle.
Qed.

End Claims.

Import Scenario.

(** wave 1 of [Scenario]: 7 enemies, a burst of 3, then batches of 1. With
    every timer firing when it is due the seven spawns are made, and the
    batch that fires after the last one queues nothing more. *)
Lemma wave_schedule_witness :
  1 ≤ 1 ∧ (0 ≤ Js.frac 1 2)%Qc ∧ (Js.frac 1 2 < 1)%Qc
  ∧ enemiesRemaining (startNextWave (H := still) (Js.num 5000) new) = 7
  ∧ Timers.pending (timers (startNextWave (H := still) (Js.num 5000) new))
    = staggered BurstSpawn (Js.num 5000) 500 1 3
  ∧ enemiesRemaining goblinSpawned = enemiesRemaining burstFired - 1
  ∧ enemiesRemaining allSpawned = 0
  ∧ fielded allSpawned = [0; 1; 2; 3; 4; 5; 6]%nat
  ∧ Timers.pending (timers lastBatch) = [].
Proof.
  assert (H1 : 1 ≤ 1) by lia.
  assert (H2 : (0 ≤ Js.frac 1 2)%Qc) by (vm_compute; discriminate).
  assert (H3 : (Js.frac 1 2 < 1)%Qc) by (vm_compute; reflexivity).
  destruct (wave_schedule (H := still) 1 (Js.num 5000) (Js.frac 1 2)
              H1 H2 H3) as (HA & _ & HC & _).
  destruct (HA new eq_refl) as (_ & _ & Hrem & Hq).
  destruct (HC burstFired spawnOk spawnTimer eq_refl) as (Hone & _).
  split_and!; [exact H1|exact H2|exact H3|exact Hrem|exact Hq|exact Hone
              |reflexivity|reflexivity|reflexivity].
Defined.

End ScheduleClaims.

Module WatchdogClaims.
Import Resources Units EnemySystem DirectorSpec DamageFacts DirectorFacts
       RosterFacts.

Section Claims.
Context `{Kinematics}.

(** *** The wave watchdog *)

Lemma update_abandoned now dt r r1 r2 s t0 :
  waveInProgress s = true →
  waveStartTime s = Some t0 → t0 ≠ 0%Qc →
  (Js.num 60 < now / Js.num 1000 - t0)%Qc →
  enemies s = [] →
  0 ≤ waveNumber s →
  let s' := update now dt r r1 r2 s in
  waveInProgress s' = false
  ∧ enemies s' = [] ∧ enemiesRemaining s' = 0
  ∧ nextSpawnTimeout s' = None
  ∧ timeUntilNextWave s' = Js.num (20 + waveNumber s * 2)
  ∧ inventory s'
    = addItem stone (waveNumber s) (addItem wood (waveNumber s * 3) (inventory s)).
Proof.
  intros Hp Hs Ht Hel He Hw. unfold update. cbv zeta.
  assert (E1 : waveWatchdog now s = setEnemiesRemaining 0 s).
  { unfold waveWatchdog. rewrite Hs, Hp, (truthy_Some t0 Ht).
    apply JsFacts.ltb_lt in Hel. rewrite Hel.
    by rewrite (bool_decide_eq_true_2 _ He). }
  rewrite E1.
  assert (E2 : waveMechanics now dt (setEnemiesRemaining 0 s)
               = completeWave (setEnemiesRemaining 0 s)).
  { unfold waveMechanics. cbn. rewrite Hp.
    by rewrite (bool_decide_eq_true_2 _ He). }
  rewrite E2. set (s2 := completeWave (setEnemiesRemaining 0 s)).
  destruct (completeWave_spec (setEnemiesRemaining 0 s))
    as (C1 & C2 & C3 & C4 & C5 & C6 & C7 & C8 & C9).
  fold s2 in C1, C2, C3, C4, C5, C6, C7, C8, C9.
  change (waveNumber (setEnemiesRemaining 0 s)) with (waveNumber s) in *.
  change (enemiesRemaining (setEnemiesRemaining 0 s)) with 0 in *.
  change (inventory (setEnemiesRemaining 0 s)) with (inventory s) in *.
  assert (E3 : stuckCountdown now s2 = s2).
  { unfold stuckCountdown. rewrite C7.
    assert (Hpos : Js.leb (Js.num (20 + waveNumber s * 2)) 0%Qc = false).
    { destruct (Js.leb _ _) eqn:E; [|done]. apply JsFacts.leb_le in E.
      exfalso. revert E. unfold Qcle. rewrite JsFacts.this_num.
      change (this 0%Qc) with (inject_Z 0). rewrite <- Zle_Qle. lia. }
    by rewrite Hpos. }
  rewrite E3.
  assert (E4 : spawnWatchdog now r s2 = s2).
  { unfold spawnWatchdog. by rewrite C6. }
  rewrite E4.
  destruct (update_tail now dt r1 r2 s2) as (Hpc & Hi & Hl).
  apply pacing_eq in Hpc as (P1 & P2 & P3 & P4 & P5 & P6).
  split_and!.
  - congruence.
  - apply length_zero_nil. by rewrite C1 in Hl.
  - congruence.
  - congruence.
  - congruence.
  - rewrite Hi, C8. f_equal; [f_equal; lia|]. f_equal. lia.
Qed.

(** *** The spawn watchdog *)

Lemma not_elem_of_staggered c now gap n0 k id t :
  (id < n0)%nat → t ∈ staggered c now gap n0 k → Timers.timerId t ≠ id.
Proof.
  intros Hid (i & -> & _)%list_elem_of_fmap. cbn. lia.
Qed.

Lemma update_stalled now dt r r1 r2 s id t1 :
  waveInProgress s = true →
  nextSpawnTimeout s = Some id →
  (id < Timers.nextTimerId (timers s))%nat →
  lastSpawnTime s = Some t1 → t1 ≠ 0%Qc →
  (Js.num 30 < now / Js.num 1000 - t1)%Qc →
  0 ≤ waveNumber s →
  let s' := update now dt r r1 r2 s in
  let n0 := Timers.nextTimerId (timers s) in
  let kept := filter (λ t, Timers.timerId t ≠ id) (Timers.pending (timers s)) in
  let flushed :=
    waveInProgress s' = true
    ∧ enemiesRemaining s' = enemiesRemaining s
    ∧ Timers.pending (timers s')
      = kept ++ staggered SpawnOne now 800 n0 (enemiesRemaining s)
        ++ [Timers.mkTimer (n0 + Z.to_nat (enemiesRemaining s))%nat
              (now + (Js.num 4000 + r * Js.num 4000))%Qc NextBatch] in
  (∀ t, t ∈ Timers.pending (timers s') → Timers.timerId t ≠ id)
  ∧ (0 < enemiesRemaining s → enemies s ≠ [] → flushed)
  ∧ (0 < enemiesRemaining s → enemies s = [] →
     waveInProgress s' = false ∨ flushed)
  ∧ (enemiesRemaining s ≤ 0 → enemies s = [] → waveInProgress s' = false)
  ∧ (enemiesRemaining s ≤ 0 → enemies s ≠ [] →
     waveInProgress s' = true
     ∧ enemiesRemaining s' = enemiesRemaining s
     ∧ nextSpawnTimeout s' = None
     ∧ Timers.pending (timers s') = kept).
Proof.
  intros Hp Hn Hid Hl Ht Hel Hw. unfold update. cbv zeta.
  set (s1 := waveWatchdog now s).
  set (s2 := waveMechanics now dt s1).
  set (s3 := stuckCountdown now s2).
  set (s4 := spawnWatchdog now r s3).
  destruct (update_tail now dt r1 r2 s4) as (Hpc & _ & _).
  apply pacing_eq in Hpc as (P1 & P2 & P3 & P4 & P5 & P6).
  rewrite P6, P3, P2, P5. clear P1 P2 P3 P4 P5 P6.
  (* the state after the wave watchdog *)
  assert (H1 : (s1 = s ∨ (s1 = setEnemiesRemaining 0 s ∧ enemies s = []))).
  { subst s1. unfold waveWatchdog. destruct (waveStartTime s); [|by left].
    destruct (bool_decide (enemies s = [])) eqn:Eb.
    - apply bool_decide_eq_true in Eb.
      destruct (_ && _ && _); cbn [andb]; [by right|by left].
    - rewrite andb_false_r. by left. }
  assert (F1 : waveInProgress s1 = true ∧ nextSpawnTimeout s1 = Some id
               ∧ lastSpawnTime s1 = Some t1 ∧ timers s1 = timers s
               ∧ enemies s1 = enemies s ∧ waveNumber s1 = waveNumber s).
  { destruct H1 as [-> | [-> _]]; done. }
  destruct F1 as (F11 & F12 & F13 & F14 & F15 & F16).
  (* the wave completes in the wave mechanics, or goes on *)
  destruct (bool_decide (enemies s1 = []) && (enemiesRemaining s1 =? 0)) eqn:Ec.
  - assert (E2 : s2 = completeWave s1).
    { subst s2. unfold waveMechanics. by rewrite F11, Ec. }
    destruct (completeWave_spec s1) as (C1 & C2 & C3 & C4 & C5 & C6 & C7 & C8 & C9).
    rewrite <- E2 in C1, C2, C3, C4, C5, C6, C7, C8, C9.
    assert (E3 : s3 = s2).
    { subst s3. unfold stuckCountdown. rewrite C7.
      assert (Hpos : Js.leb (Js.num (20 + waveNumber s1 * 2)) 0%Qc = false).
      { destruct (Js.leb _ _) eqn:E; [|done]. apply JsFacts.leb_le in E.
        exfalso. revert E. unfold Qcle. rewrite JsFacts.this_num.
        change (this 0%Qc) with (inject_Z 0). rewrite <- Zle_Qle. lia. }
      by rewrite Hpos. }
    assert (E4 : s4 = s2).
    { subst s4. rewrite E3. unfold spawnWatchdog. by rewrite C6. }
    rewrite E4.
    apply andb_prop in Ec as [Ee%bool_decide_eq_true _]. rewrite F15 in Ee.
    split_and!; [|done|by left|done|done].
    intros t. rewrite C9, F12, F14. cbn.
    by intros [? _]%list_elem_of_filter.
  - assert (E2 : s2 = s1).
    { subst s2. unfold waveMechanics. by rewrite F11, Ec. }
    assert (E3 : s3 = s1).
    { subst s3. rewrite E2. unfold stuckCountdown. rewrite F11.
      by rewrite andb_false_r. }
    assert (Hs1 : s1 = s).
    { destruct H1 as [?|[E He]]; [done|]. exfalso.
      rewrite E in Ec. cbn in Ec.
      by rewrite (bool_decide_eq_true_2 _ He) in Ec. }
    rewrite Hs1 in *. clear H1 F11 F12 F13 F14 F15 F16.
    set (sc := setNextSpawnTimeout None (clearTimeout id s)).
    assert (E4 : s4 = if 0 <? enemiesRemaining s
                      then spawnWaveEnemies now r (enemiesRemaining s) sc
                      else if bool_decide (enemies s = [])
                           then completeWave sc else sc).
    { subst s4. rewrite E3. unfold spawnWatchdog.
      rewrite Hn, Hl, Hp, (truthy_Some t1 Ht).
      apply JsFacts.ltb_lt in Hel. by rewrite Hel. }
    rewrite E4. destruct (0 <? enemiesRemaining s) eqn:Er.
    + apply Z.ltb_lt in Er.
      assert (Hq : Timers.pending (timers (spawnWaveEnemies now r (enemiesRemaining s) sc))
                   = filter (λ t, Timers.timerId t ≠ id) (Timers.pending (timers s))
                     ++ staggered SpawnOne now 800 (Timers.nextTimerId (timers s))
                          (enemiesRemaining s)
                     ++ [Timers.mkTimer
                           (Timers.nextTimerId (timers s)
                            + Z.to_nat (enemiesRemaining s))%nat
                           (now + (Js.num 4000 + r * Js.num 4000))%Qc NextBatch]).
      { rewrite spawnWaveEnemies_spec by done. cbn.
        rewrite Z.min_id. by rewrite <- app_assoc. }
      destruct (spawnWaveEnemies_frame now r (enemiesRemaining s) sc)
        as (_ & _ & _ & Hr' & _ & Hp').
      change (enemiesRemaining sc) with (enemiesRemaining s) in Hr'.
      change (waveInProgress sc) with (waveInProgress s) in Hp'.
      rewrite Hp in Hp'.
      split_and!; [|done|by right|lia|lia].
      intros t. rewrite Hq. rewrite !elem_of_app.
      intros [[? _]%list_elem_of_filter|[Hin|Hin%list_elem_of_singleton]].
      * done.
      * by eapply not_elem_of_staggered.
      * subst t. cbn. lia.
    + apply Z.ltb_ge in Er. destruct (bool_decide (enemies s = [])) eqn:Eb.
      * apply bool_decide_eq_true in Eb.
        destruct (completeWave_spec sc) as (_ & _ & C3 & _ & _ & _ & _ & _ & C9).
        split_and!; [|lia|lia|done|done].
        intros t. rewrite C9. cbn. by intros [? _]%list_elem_of_filter.
      * apply bool_decide_eq_false in Eb.
        split_and!; [|lia|lia|done|done].
        intros t. cbn. by intros [? _]%list_elem_of_filter.
Qed.

(** C7, as the code has it. A wave that has been in progress for more than
    60 seconds with no enemy in the roster is completed by the next [update]
    as if it were won: the wave is over, nothing remains to spawn, the wave
    reward is paid and the countdown to the next wave starts. A batch timeout
    that has been pending for more than 30 seconds since the last spawn call
    is cancelled by the next [update], and in the same call: if enemies
    remain to spawn and the roster is not empty, a spawn is queued for each
    of them (the i-th after i·800 ms) with a new batch timeout behind them;
    if the roster is empty, the same happens or the wave is completed (by the
    60 second rule); if nothing remains to spawn, the wave is completed when
    the roster is empty, and goes on with nothing queued when it is not. A
    queued spawn, when it fires, makes one spawn attempt, which brings one
    new enemy into the roster unless it throws, and leaves one enemy less to
    spawn. *)
Theorem wave_never_blocked (now dt r r1 r2 : Qc) (s : State) :
  waveInProgress s = true →
  0 ≤ waveNumber s →
  (∀ t0,
     waveStartTime s = Some t0 → t0 ≠ 0%Qc →
     (Js.num 60 < now / Js.num 1000 - t0)%Qc →
     enemies s = [] →
     let s' := update now dt r r1 r2 s in
     waveInProgress s' = false
     ∧ enemies s' = [] ∧ enemiesRemaining s' = 0
     ∧ nextSpawnTimeout s' = None
     ∧ timeUntilNextWave s' = Js.num (20 + waveNumber s * 2)
     ∧ inventory s'
       = addItem stone (waveNumber s)
           (addItem wood (waveNumber s * 3) (inventory s)))
  ∧ (∀ id t1,
       nextSpawnTimeout s = Some id →
       (id < Timers.nextTimerId (timers s))%nat →
       lastSpawnTime s = Some t1 → t1 ≠ 0%Qc →
       (Js.num 30 < now / Js.num 1000 - t1)%Qc →
       let s' := update now dt r r1 r2 s in
       let n0 := Timers.nextTimerId (timers s) in
       let kept :=
         filter (λ t, Timers.timerId t ≠ id) (Timers.pending (timers s)) in
       let flushed :=
         waveInProgress s' = true
         ∧ enemiesRemaining s' = enemiesRemaining s
         ∧ Timers.pending (timers s')
           = kept ++ staggered SpawnOne now 800 n0 (enemiesRemaining s)
             ++ [Timers.mkTimer (n0 + Z.to_nat (enemiesRemaining s))%nat
                   (now + (Js.num 4000 + r * Js.num 4000))%Qc NextBatch] in
       (∀ t, t ∈ Timers.pending (timers s') → Timers.timerId t ≠ id)
       ∧ (0 < enemiesRemaining s → enemies s ≠ [] → flushed)
       ∧ (0 < enemiesRemaining s → enemies s = [] →
          waveInProgress s' = false ∨ flushed)
       ∧ (enemiesRemaining s ≤ 0 → enemies s = [] → waveInProgress s' = false)
       ∧ (enemiesRemaining s ≤ 0 → enemies s ≠ [] →
          waveInProgress s' = true
          ∧ enemiesRemaining s' = enemiesRemaining s
          ∧ nextSpawnTimeout s' = None
          ∧ Timers.pending (timers s') = kept))
  ∧ (∀ s1 d t, Timers.callback t = SpawnOne →
       let s' := fire now r d t s1 in
       enemiesRemaining s' = enemiesRemaining s1 - 1
       ∧ timers s' = timers (clearTimeout (Timers.timerId t) s1)
       ∧ (constructionThrows d = true → enemies s' = enemies s1)
       ∧ (constructionThrows d = false → drawn d →
          ∃ enemy, identity enemy = nextIdentity s1 ∧ isAlive enemy = true
            ∧ (∀ e, e ∈ enemies s' ↔ e ∈ enemies s1 ∨ e = enemy))).
Proof.
  intros Hp Hw. split_and!.
  - intros t0 Hs Ht Hel He. by apply (update_abandoned now dt r r1 r2 s t0).
  - intros id t1 Hn Hid Hl Ht Hel.
    by apply (update_stalled now dt r r1 r2 s id t1).
  - intros s1 d t Ht s'.
    destruct (fire_SpawnOne now r d t s1 Ht) as (F1 & _ & _ & F4 & _ & F6 & F7).
    split_and!; [done|done|done|].
    intros Hok Hd. destruct (F7 Hok Hd) as (enemy & ? & ? & _ & ?).
    by exists enemy.
Qed.

End Claims.

Import Scenario.

(** C7, the claim as stated, refuted. Wave 1, all seven enemies spawned and
    alive; the batch timeout set by the last batch (handle 17) has not fired
    at 61 s, more than 30 seconds after the last spawn call at 30 s. [update]
    cancels it, and nothing remains to spawn: no spawn is made or queued, and
    the wave is not completed either, since the roster is not empty. *)
Lemma overdue_batch_neither_spawns_nor_completes :
  waveInProgress allSpawned = true
  ∧ nextSpawnTimeout allSpawned = Some 17%nat
  ∧ (λ t, (Timers.timerId t, Timers.callback t))
      <$> Timers.pending (timers allSpawned) = [(17%nat, NextBatch)]
  ∧ this <$> lastSpawnTime allSpawned = Some 30%Q
  ∧ (Js.num 30 < Js.num 61000 / Js.num 1000 - Js.num 30)%Qc
  ∧ enemiesRemaining allSpawned = 0
  ∧ Timers.pending (timers batchOverdue) = []
  ∧ nextSpawnTimeout batchOverdue = None
  ∧ fielded batchOverdue = fielded allSpawned
  ∧ fielded batchOverdue = [0; 1; 2; 3; 4; 5; 6]%nat
  ∧ enemiesRemaining batchOverdue = 0
  ∧ waveInProgress batchOverdue = true.
Proof. split_and!; vm_compute; reflexivity. Qed.

(** the two watchdogs on wave 1 of [Scenario]: the wave left with nothing
    alive is completed and rewarded, and the stalled batch (handle 5) is
    cancelled and flushed *)
Lemma wave_never_blocked_witness :
  waveInProgress spawnFailed = true
  ∧ 0 ≤ waveNumber spawnFailed
  ∧ waveInProgress abandoned = false
  ∧ inventory abandoned = mkInventory 28 16
  ∧ waveInProgress burstFired = true
  ∧ 0 ≤ waveNumber burstFired
  ∧ (∀ t, t ∈ Timers.pending (timers stalled) → Timers.timerId t ≠ 5%nat)
  ∧ enemiesRemaining stalled = enemiesRemaining burstFired.
Proof.
  assert (Hp : waveInProgress spawnFailed = true) by reflexivity.
  assert (Hw : 0 ≤ waveNumber spawnFailed) by (vm_compute; discriminate).
  destruct (wave_never_blocked (H := still) (Js.num 66000)
              (Js.frac 16 1000) (Js.frac 1 2) 0 0 spawnFailed Hp Hw)
    as (H60 & _ & _).
  assert (Hs : waveStartTime spawnFailed = Some (Js.num 5))
    by (vm_compute; f_equal; by apply Qc_is_canon).
  assert (Ht : Js.num 5 ≠ 0%Qc) by (by vm_compute).
  assert (Hel : (Js.num 60 < Js.num 66000 / Js.num 1000 - Js.num 5)%Qc)
    by (vm_compute; reflexivity).
  assert (He : enemies spawnFailed = []) by reflexivity.
  destruct (H60 (Js.num 5) Hs Ht Hel He) as (W1 & _ & _ & _ & _ & W2).
  assert (Hp' : waveInProgress burstFired = true) by reflexivity.
  assert (Hw' : 0 ≤ waveNumber burstFired) by (vm_compute; discriminate).
  destruct (wave_never_blocked (H := still) (Js.num 36000)
              (Js.frac 16 1000) (Js.frac 1 2) 0 0 burstFired Hp' Hw')
    as (_ & H30 & _).
  assert (Hn : nextSpawnTimeout burstFired = Some 5%nat) by reflexivity.
  assert (Hid : (5 < Timers.nextTimerId (timers burstFired))%nat)
    by (vm_compute; lia).
  assert (Hl : lastSpawnTime burstFired = Some (Js.num 5))
    by (vm_compute; f_equal; by apply Qc_is_canon).
  assert (Hel' : (Js.num 30 < Js.num 36000 / Js.num 1000 - Js.num 5)%Qc)
    by (vm_compute; reflexivity).
  destruct (H30 5%nat (Js.num 5) Hn Hid Hl Ht Hel') as (W3 & _ & W4 & _).
  assert (Hr : 0 < enemiesRemaining burstFired) by (vm_compute; reflexivity).
  assert (He' : enemies burstFired = []) by (vm_compute; reflexivity).
  split_and!; [exact Hp|exact Hw|exact W1|exact W2|exact Hp'|exact Hw'|exact W3|].
  destruct (W4 Hr He') as [W5|(_ & W5 & _)]; [|exact W5].
  vm_compute in W5. discriminate W5.
Defined.

End WatchdogClaims.

Module AccountingClaims.
Import Resources Units EnemySystem DirectorSpec DamageFacts DirectorFacts
       RosterFacts.

Section Claims.
Context `{Kinematics}.

(** *** Accounting, one event at a time *)

Lemma calm_refl s : calm s s.
Proof. unfold calm. lia. Qed.

Lemma calm_trans s s' s'' : calm s s' → calm s' s'' → calm s s''.
Proof. unfold calm. intros [H1 H2] [H3 H4]. split; [lia|]. intros E. lia. Qed.

(** the same wave number, and no more enemies outstanding than before *)
Lemma calm_same s s' :
  waveNumber s' = waveNumber s → outstanding s' ≤ outstanding s → calm s s'.
Proof. unfold calm. lia. Qed.

Lemma calm_startNextWave now s : calm s (startNextWave now s).
Proof.
  destruct (startNextWave_frame now s) as (_ & _ & _ & Hw).
  unfold calm. rewrite Hw. lia.
Qed.

Lemma calm_completeWave s : calm s (completeWave s).
Proof.
  destruct (completeWave_spec s) as (He & Hr & _ & Hw & _).
  unfold calm, outstanding, fielded. rewrite He, Hr, Hw. cbn. lia.
Qed.

Lemma calm_spawnWaveEnemies now r count s : calm s (spawnWaveEnemies now r count s).
Proof.
  destruct (spawnWaveEnemies_frame now r count s) as (_ & _ & He & Hr & Hw & _).
  apply calm_same; [done|]. unfold outstanding, fielded. rewrite He, Hr. lia.
Qed.

Lemma calm_waveWatchdog now s : calm s (waveWatchdog now s).
Proof.
  unfold waveWatchdog. destruct (waveStartTime s); [|apply calm_refl].
  destruct (bool_decide (enemies s = [])) eqn:Eb.
  - apply bool_decide_eq_true in Eb.
    destruct (_ && _ && _); cbn [andb]; [|apply calm_refl].
    unfold calm, outstanding, fielded. cbn. rewrite Eb. cbn. lia.
  - rewrite andb_false_r. apply calm_refl.
Qed.

Lemma calm_waveMechanics now dt s : calm s (waveMechanics now dt s).
Proof.
  unfold waveMechanics. destruct (waveInProgress s).
  - destruct (_ && _); [apply calm_completeWave|apply calm_refl].
  - cbv zeta. destruct (Js.leb _ _).
    + eapply calm_trans; [|apply calm_startNextWave]. by apply calm_same.
    + by apply calm_same.
Qed.

Lemma calm_stuckCountdown now s : calm s (stuckCountdown now s).
Proof.
  unfold stuckCountdown.
  destruct (_ && _); [apply calm_startNextWave|apply calm_refl].
Qed.

Lemma calm_spawnWatchdog now r s : calm s (spawnWatchdog now r s).
Proof.
  unfold spawnWatchdog.
  destruct (nextSpawnTimeout s) as [id|]; [|apply calm_refl].
  destruct (lastSpawnTime s) as [last|]; [|apply calm_refl].
  destruct (_ && _); [|apply calm_refl]. cbv zeta.
  set (sc := setNextSpawnTimeout None (clearTimeout id s)).
  assert (Hc : calm s sc) by (by apply calm_same).
  destruct (0 <? enemiesRemaining sc).
  - eapply calm_trans; [exact Hc|apply calm_spawnWaveEnemies].
  - destruct (bool_decide _); [|done].
    eapply calm_trans; [exact Hc|apply calm_completeWave].
Qed.

Lemma calm_update now dt r r1 r2 s : calm s (update now dt r r1 r2 s).
Proof.
  unfold update. cbv zeta.
  eapply calm_trans; [apply calm_waveWatchdog|].
  eapply calm_trans; [apply calm_waveMechanics|].
  eapply calm_trans; [apply calm_stuckCountdown|].
  eapply calm_trans; [apply calm_spawnWatchdog|].
  set (s4 := spawnWatchdog _ _ _).
  pose proof (update_tail now dt r1 r2 s4) as Ht. cbv zeta in Ht.
  destruct Ht as (Hpc & _ & _ & Hs & _).
  apply pacing_eq in Hpc as (P1 & P2 & _).
  apply calm_same; [exact P1|]. unfold outstanding. fold s4. rewrite P2.
  apply fielded_subseteq in Hs. lia.
Qed.

(** a new enemy, however often the array holds it, counts once *)
Lemma length_remove_dups_new (l : list nat) (x : nat) :
  x ∉ l →
  length (remove_dups (l ++ [x; x])) = S (length (remove_dups l)).
Proof.
  intros Hx. change (S (length (remove_dups l)))
    with (length (x :: remove_dups l)).
  apply Permutation_length, NoDup_Permutation.
  - apply NoDup_remove_dups.
  - apply NoDup_cons. split; [by rewrite elem_of_remove_dups|].
    apply NoDup_remove_dups.
  - intros y. rewrite elem_of_remove_dups, elem_of_app, !elem_of_cons,
      elem_of_nil, elem_of_remove_dups. naive_solver.
Qed.

Lemma length_remove_dups_twice (l : list nat) (x : nat) :
  (length (remove_dups (l ++ [x; x])) ≤ S (length (remove_dups l)))%nat.
Proof.
  change (S (length (remove_dups l))) with (length (x :: remove_dups l)).
  apply submseteq_length, NoDup_submseteq; [apply NoDup_remove_dups|].
  intros y. rewrite elem_of_remove_dups, elem_of_app, !elem_of_cons,
    elem_of_nil, elem_of_remove_dups. naive_solver.
Qed.

(** One spawn attempt: the pending count goes down by one whatever happens,
    and one enemy more is in the roster exactly when the attempt succeeds. *)
Lemma spawnOne_outstanding d s :
  freshIdentities s →
  outstanding (spawnOne d s)
  = outstanding s - (if (spawnEnemy d s).1 is Some _ then 0 else 1).
Proof.
  intros Hf. destruct (spawnOne_spec d s) as (S1 & _ & _ & _ & _ & _ & S7).
  unfold outstanding, fielded. rewrite S1.
  destruct S7 as [(-> & -> & _)|(enemy & -> & Hid & _ & _ & -> & _)]; [lia|].
  rewrite fmap_app. cbn. rewrite Hid, length_remove_dups_new; [lia|].
  intros (e & He & Hin)%list_elem_of_fmap. specialize (Hf e Hin). lia.
Qed.

Lemma calm_spawnOne d s : calm s (spawnOne d s).
Proof.
  destruct (spawnOne_spec d s) as (S1 & S2 & _ & _ & _ & _ & S7).
  apply calm_same; [done|]. unfold outstanding, fielded. rewrite S1.
  destruct S7 as [(_ & -> & _)|(enemy & _ & Hid & _ & _ & -> & _)]; [lia|].
  rewrite fmap_app. cbn.
  pose proof (length_remove_dups_twice (identity <$> enemies s) (identity enemy)).
  lia.
Qed.

Lemma calm_fire now r d t s : calm s (fire now r d t s).
Proof.
  unfold fire. cbv zeta.
  set (s1 := clearTimeout (Timers.timerId t) s).
  assert (Hc : calm s s1) by (by apply calm_same).
  eapply calm_trans; [exact Hc|].
  destruct (Timers.callback t).
  - apply calm_spawnWaveEnemies.
  - apply calm_spawnOne.
  - unfold nextBatch. cbv zeta.
    eapply calm_trans; [|apply calm_spawnWaveEnemies]. by apply calm_same.
Qed.

Lemma calm_damageEnemy id amount r1 r2 s : calm s (damageEnemy id amount r1 r2 s).
Proof.
  unfold damageEnemy.
  destruct (list_find _ (enemies s)) as [[i e]|]; [|apply calm_refl].
  pose proof (takeDamage_never_notifies amount r1 r2 e) as Hn.
  destruct (takeDamage amount r1 r2 e) as [[e' ret] notified]. cbn in Hn.
  subst notified. apply calm_same; [done|].
  unfold outstanding, fielded. cbn. rewrite mutate_identity. lia.
Qed.

Lemma calm_step s s' : step s s' → calm s s'.
Proof.
  destruct 1.
  - apply calm_update.
  - apply calm_fire.
  - apply calm_damageEnemy.
Qed.

Lemma during_wave w s s' : during w s s' → waveNumber s' = w.
Proof. by destruct 1. Qed.

Lemma during_outstanding w s s' :
  during w s s' → outstanding s' ≤ Z.max (outstanding s) 0.
Proof.
  induction 1 as [s Hs|s s' s'' Hd IH Hst Hw]; [lia|].
  pose proof (during_wave _ _ _ Hd) as Hw'.
  destruct (calm_step _ _ Hst) as [_ Hc].
  specialize (Hc ltac:(congruence)). lia.
Qed.

(** *** The identities in use *)

Lemma thinned_refl s : thinned s s.
Proof. by split. Qed.

Lemma thinned_trans s s' s'' : thinned s s' → thinned s' s'' → thinned s s''.
Proof. intros [H1 H2] [H3 H4]. split; [by etrans|congruence]. Qed.

Lemma thinned_fresh s s' : thinned s s' → freshIdentities s → freshIdentities s'.
Proof.
  intros [Hs Hn] Hf e He. rewrite Hn.
  assert (Hin : identity e ∈ identity <$> enemies s).
  { apply Hs. by apply list_elem_of_fmap_2. }
  apply list_elem_of_fmap in Hin as (e0 & -> & Hin). by apply Hf.
Qed.

Lemma thinned_schedule c now gap l s : thinned s (foldl (schedule c now gap) s l).
Proof.
  revert s. induction l as [|i l IH]; intros s; [apply thinned_refl|]. cbn.
  eapply thinned_trans; [|apply IH].
  unfold schedule. destruct (0 <? enemiesRemaining s); by split.
Qed.

Lemma thinned_spawnWaveEnemies now r count s :
  thinned s (spawnWaveEnemies now r count s).
Proof.
  unfold spawnWaveEnemies. cbv zeta.
  match goal with |- context [foldl ?f ?a ?l] =>
    pose proof (thinned_schedule SpawnOne now 800 l a) as Hs;
    set (s2 := foldl f a l) in * end.
  eapply thinned_trans; [exact Hs|].
  destruct (0 <? enemiesRemaining s2); [|apply thinned_refl].
  destruct (nextSpawnTimeout s2); by split.
Qed.

Lemma thinned_startNextWave now s : thinned s (startNextWave now s).
Proof.
  unfold startNextWave. cbv zeta.
  match goal with |- context [foldl ?f ?a ?l] =>
    pose proof (thinned_schedule BurstSpawn now 500 l a) as Hs end.
  eapply thinned_trans; [|exact Hs]. by split.
Qed.

Lemma thinned_completeWave s : thinned s (completeWave s).
Proof.
  unfold completeWave. destruct (nextSpawnTimeout s); (split; [|done]);
    cbn; apply list_subseteq_nil.
Qed.

Lemma thinned_update now dt r r1 r2 s : thinned s (update now dt r r1 r2 s).
Proof.
  unfold update. cbv zeta.
  set (s1 := waveWatchdog now s).
  set (s2 := waveMechanics now dt s1).
  set (s3 := stuckCountdown now s2).
  set (s4 := spawnWatchdog now r s3).
  assert (H1 : thinned s s1).
  { subst s1. unfold waveWatchdog. destruct (waveStartTime s); [|by split].
    destruct (_ && _ && _ && _); by split. }
  assert (H2 : thinned s1 s2).
  { subst s2. unfold waveMechanics. destruct (waveInProgress s1).
    - destruct (_ && _); [apply thinned_completeWave|apply thinned_refl].
    - cbv zeta. destruct (Js.leb _ _); [|by split].
      eapply thinned_trans; [|apply thinned_startNextWave]. by split. }
  assert (H3 : thinned s2 s3).
  { subst s3. unfold stuckCountdown.
    destruct (_ && _); [apply thinned_startNextWave|apply thinned_refl]. }
  assert (H4 : thinned s3 s4).
  { subst s4. unfold spawnWatchdog.
    destruct (nextSpawnTimeout s3) as [id|]; [|apply thinned_refl].
    destruct (lastSpawnTime s3) as [last|]; [|apply thinned_refl].
    destruct (_ && _); [|apply thinned_refl]. cbv zeta.
    set (sc := setNextSpawnTimeout None (clearTimeout id s3)).
    assert (Hc : thinned s3 sc) by (by split).
    destruct (0 <? enemiesRemaining sc).
    - eapply thinned_trans; [exact Hc|apply thinned_spawnWaveEnemies].
    - destruct (bool_decide _); [|done].
      eapply thinned_trans; [exact Hc|apply thinned_completeWave]. }
  destruct (update_tail now dt r1 r2 s4) as (_ & _ & _ & Hs & Hn).
  eapply thinned_trans; [exact H1|]. eapply thinned_trans; [exact H2|].
  eapply thinned_trans; [exact H3|]. eapply thinned_trans; [exact H4|].
  by split.
Qed.

Lemma fresh_spawnOne d s : freshIdentities s → freshIdentities (spawnOne d s).
Proof.
  intros Hf. destruct (spawnOne_spec d s) as (_ & _ & _ & _ & _ & _ & S7).
  destruct S7 as [(_ & He & _ & Hn)|(enemy & _ & Hid & _ & _ & He & _ & Hn)];
    intros e; rewrite He, Hn; [apply Hf|].
  rewrite elem_of_app, !elem_of_cons, elem_of_nil.
  intros [Hin|[->|[->|[]]]]; [specialize (Hf e Hin)|..]; lia.
Qed.

Lemma fresh_step s s' : step s s' → freshIdentities s → freshIdentities s'.
Proof.
  destruct 1 as [now dt r r1 r2 s|now r d t s _ _|id amount r1 r2 s]; intros Hf.
  - eapply thinned_fresh; [apply thinned_update|done].
  - unfold fire. cbv zeta.
    set (s1 := clearTimeout (Timers.timerId t) s).
    assert (Hf1 : freshIdentities s1) by done.
    destruct (Timers.callback t).
    + eapply thinned_fresh; [apply thinned_spawnWaveEnemies|done].
    + by apply fresh_spawnOne.
    + unfold nextBatch. cbv zeta.
      eapply thinned_fresh; [apply thinned_spawnWaveEnemies|done].
  - unfold damageEnemy.
    destruct (list_find _ (enemies s)) as [[i e]|]; [|done].
    pose proof (takeDamage_never_notifies amount r1 r2 e) as Hn.
    destruct (takeDamage amount r1 r2 e) as [[e' ret] notified]. cbn in Hn.
    subst notified. eapply thinned_fresh; [|exact Hf].
    split; [|done]. cbn. by rewrite mutate_identity.
Qed.

Lemma during_fresh w s s' :
  during w s s' → freshIdentities s → freshIdentities s'.
Proof.
  induction 1 as [s Hs|s s' s'' Hd IH Hst Hw]; [done|].
  intros Hf. eapply fresh_step; [exact Hst|by apply IH].
Qed.

(** C2, as the code has it. A wave that starts on an empty roster starts
    with the enemies in the roster, each counted once, plus the enemies still
    to spawn equal to min(5 + 2·wave, 30), and until the next wave starts
    that sum never exceeds it. A spawn attempt that succeeds leaves the sum
    as it is; one that fails lowers it by one, since the pending count goes
    down and no enemy joins the roster. *)
Theorem wave_accounting (now : Qc) (s0 : State) :
  enemies s0 = [] →
  0 ≤ waveNumber s0 →
  let s1 := startNextWave now s0 in
  let w := waveNumber s1 in
  outstanding s1 = waveTotal w
  ∧ (∀ s, during w s1 s → outstanding s ≤ waveTotal w)
  ∧ (∀ s d, during w s1 s →
       outstanding (spawnOne d s)
       = outstanding s - (if (spawnEnemy d s).1 is Some _ then 0 else 1)).
Proof.
  intros He Hw s1 w.
  destruct (startNextWave_frame now s0) as (_ & _ & He1 & Hw1).
  fold s1 in He1, Hw1.
  assert (Hstart : outstanding s1 = waveTotal w).
  { subst w s1. rewrite startNextWave_spec by lia.
    unfold outstanding, fielded, waveTotal. cbn. rewrite He. cbn. lia. }
  assert (Hfresh : freshIdentities s1).
  { intros e. rewrite He1, He. by intros ?%elem_of_nil. }
  split_and!.
  - done.
  - intros s Hd. apply during_outstanding in Hd. rewrite Hstart in Hd.
    unfold waveTotal in *. subst w. rewrite Hw1 in *. lia.
  - intros s d Hd. apply spawnOne_outstanding.
    by eapply during_fresh.
Qed.

End Claims.

Import Scenario.

(** C2, the claim as stated, refuted. Wave 1 starts with 7 enemies to spawn
    and an empty roster. If the first spawn attempt fails, the wave is still
    in progress and [enemies.length] plus the pending count is 6, not 7. If
    it succeeds, the array holds the new goblin twice, and the sum is 8. *)
Lemma failed_spawn_breaks_accounting :
  waveNumber waveOne = 1
  ∧ accounted waveOne = waveTotal 1
  ∧ during 1 waveOne spawnFailed
  ∧ waveInProgress spawnFailed = true
  ∧ accounted spawnFailed ≠ waveTotal 1
  ∧ during 1 waveOne goblinSpawned
  ∧ waveInProgress goblinSpawned = true
  ∧ accounted goblinSpawned ≠ waveTotal 1.
Proof.
  assert (Hburst : during 1 waveOne burstFired).
  { eapply during_step; [apply during_start| |].
    - reflexivity.
    - apply (step_fire (Js.num 5000) (Js.frac 1 2) spawnOk burstTimer waveOne).
      + vm_compute. apply elem_of_cons. left. do 2 f_equal.
      + vm_compute. discriminate.
    - reflexivity. }
  assert (Hspawn : ∀ d, during 1 waveOne
                          (fire (Js.num 5000) (Js.frac 1 2) d spawnTimer burstFired)).
  { intros d. eapply during_step; [exact Hburst| |].
    - apply (step_fire (Js.num 5000) (Js.frac 1 2) d spawnTimer burstFired).
      + vm_compute. do 2 apply list_elem_of_further. apply elem_of_cons. left.
        do 2 f_equal.
      + vm_compute. discriminate.
    - destruct (fire_SpawnOne (Js.num 5000) (Js.frac 1 2) d spawnTimer burstFired
                  eq_refl) as (_ & -> & _). reflexivity. }
  split_and!; [reflexivity|reflexivity|apply Hspawn|reflexivity|by vm_compute
              |apply Hspawn|reflexivity|by vm_compute].
Qed.

(** wave 1 of [Scenario], started by hand on the fresh director; after the
    seven spawns of [allSpawned] the seven enemies are all that is
    outstanding *)
Lemma wave_accounting_witness :
  enemies (EnemySystem.new (H := still)) = []
  ∧ 0 ≤ waveNumber (EnemySystem.new (H := still))
  ∧ outstanding (startNextWave (Js.num 5000) (EnemySystem.new (H := still)))
    = waveTotal 1
  ∧ outstanding allSpawned = 7.
Proof.
  assert (He : enemies (EnemySystem.new (H := still)) = []) by reflexivity.
  assert (Hw : 0 ≤ waveNumber (EnemySystem.new (H := still))) by (by vm_compute).
  destruct (wave_accounting (H := still) (Js.num 5000) EnemySystem.new He Hw)
    as (Hs & _ & _).
  split_and!; [exact He|exact Hw|exact Hs|reflexivity].
Defined.

(** C5, on the code. A goblin of health 50 is in the roster, which holds it
    twice. The player's blow of 60 kills it: no event is emitted. The next
    [update] takes it out of the roster; still no [enemyRemoved] has been
    emitted, and the inventory is what it was: no loot was collected. *)
Theorem death_goes_unnoticed :
  (λ e, (identity e, this (health e), isAlive e)) <$> enemies goblinSpawned
  = [(0%nat, 50%Q, true); (0%nat, 50%Q, true)]
  ∧ (λ e, (identity e, isAlive e, state e)) <$> enemies goblinKilled
    = [(0%nat, false, Die); (0%nat, false, Die)]
  ∧ events goblinKilled = events goblinSpawned
  ∧ enemies afterCleanup = []
  ∧ events afterCleanup = [enemySpawned 0; enemySpawned 0]
  ∧ inventory afterCleanup = inventory goblinSpawned.
Proof. split_and!; vm_compute; reflexivity. Qed.

End AccountingClaims.

(** * Further properties of the code *)

(** ** InventorySystem *)
Module InventoryProps.
Import InventorySystem.

Lemma call_keeps (c : Call) (inventory : gmap string Z) :
  0 ≤ amountOf c →
  map_Forall (λ _ n, 0 ≤ n) inventory →
  dom (call c inventory) = dom inventory
  ∧ map_Forall (λ _ n, 0 ≤ n) (call c inventory).
Proof.
  intros Ha Hinv. destruct c as [t a|t a]; cbn in *.
  - unfold addItem. destruct (inventory !! t) as [n|] eqn:E; cbn; [|done].
    split.
    + rewrite dom_insert_L. apply elem_of_dom_2 in E. set_solver.
    + apply map_Forall_insert_2; [|done]. specialize (Hinv _ _ E). cbn in Hinv. lia.
  - unfold removeItem. destruct (inventory !! t) as [n|] eqn:E; cbn; [|done].
    destruct (a <=? n) eqn:Hle; cbn; [|done].
    apply Z.leb_le in Hle. split.
    + rewrite dom_insert_L. apply elem_of_dom_2 in E. set_solver.
    + apply map_Forall_insert_2; [lia|done].
Qed.

(** X1. Whatever calls of [addItem] and [removeItem] are made with
    non-negative amounts, the item types of the inventory stay the ones it
    started with, and no count becomes negative. *)
Theorem inventory_never_negative (calls : list Call) (inventory : gmap string Z) :
  Forall (λ c, 0 ≤ amountOf c) calls →
  map_Forall (λ _ n, 0 ≤ n) inventory →
  let inventory' := foldl (λ acc c, call c acc) inventory calls in
  dom inventory' = dom inventory
  ∧ (∀ type, 0 ≤ getItemCount type inventory').
Proof.
  intros Hc Hinv. cbn.
  assert (dom (foldl (λ acc c, call c acc) inventory calls) = dom inventory
          ∧ map_Forall (λ _ n, 0 ≤ n) (foldl (λ acc c, call c acc) inventory calls))
    as [Hd Hn].
  { revert inventory Hinv. induction Hc as [|c cs Hc0 _ IH]; intros inv Hinv; [done|].
    cbn. destruct (call_keeps c inv Hc0 Hinv) as [Hd Hn].
    destruct (IH _ Hn) as [Hd' Hn']. split; [congruence|done]. }
  split; [done|]. intros t. unfold getItemCount.
  destruct (_ !! t) eqn:E; [|done]. exact (Hn _ _ E).
Qed.

Lemma inventory_never_negative_witness :
  let calls := [AddItem "wood" 25; RemoveItem "wood" 10; RemoveItem "stone" 1;
                AddItem "gold" 5] in
  dom (foldl (λ acc c, call c acc) new calls) = dom new
  ∧ (∀ type, 0 ≤ getItemCount type (foldl (λ acc c, call c acc) new calls)).
Proof.
  apply inventory_never_negative.
  - repeat constructor; cbn; lia.
  - unfold new. intros k n Hk.
    apply lookup_insert_Some in Hk as [[_ <-]|[_ Hk]]; [lia|].
    apply lookup_insert_Some in Hk as [[_ <-]|[_ Hk]]; [lia|done].
Defined.

(** X2. For an item type the inventory has, with a count that is not
    negative, [addItem] followed by [removeItem] of the same amount succeeds
    and gives back the inventory as it was, as long as the amount is not
    negative and the count stays below 2^53 (where every integer is a number
    of JavaScript, so that the sums of the code are exact); and [removeItem]
    of more than the count, or of a type the inventory does not have, is
    refused and changes nothing. *)
Theorem add_remove_round_trip (type : string) (count : Z)
    (inventory : gmap string Z) :
  inventory !! type = Some count →
  0 ≤ count →
  (∀ amount, 0 ≤ amount → count + amount < 2 ^ 53 →
     (addItem type amount inventory).1 = true
     ∧ getItemCount type (addItem type amount inventory).2 = count + amount
     ∧ removeItem type amount (addItem type amount inventory).2
       = (true, inventory))
  ∧ (∀ more, count < more → removeItem type more inventory = (false, inventory))
  ∧ (∀ other n, inventory !! other = None →
       removeItem other n inventory = (false, inventory)
       ∧ addItem other n inventory = (false, inventory)
       ∧ getItemCount other inventory = 0).
Proof.
  intros E Hc. split_and!.
  - intros amount Ha Hb. unfold addItem, getItemCount. rewrite E. cbn.
    unfold removeItem. rewrite lookup_insert_eq. split_and!; [done|done|].
    destruct (amount <=? count + amount) eqn:Hle; [|apply Z.leb_gt in Hle; lia].
    f_equal. rewrite insert_insert_eq.
    replace (count + amount - amount) with count by lia.
    by apply insert_id.
  - intros more Hm. unfold removeItem. rewrite E.
    destruct (more <=? count) eqn:Hle; [apply Z.leb_le in Hle; lia|done].
  - intros other n Ho. unfold removeItem, addItem, getItemCount. by rewrite Ho.
Qed.

Lemma add_remove_round_trip_witness :
  removeItem "wood" 7 (addItem "wood" 7 new).2 = (true, new)
  ∧ (∀ more, 0 < more → removeItem "wood" more new = (false, new)).
Proof.
  pose proof (add_remove_round_trip "wood" 0 new) as H.
  destruct H as (H1 & H2 & _); [reflexivity|lia|].
  destruct (H1 7) as (_ & _ & H3); [lia|lia|].
  split; [exact H3|exact H2].
Defined.

End InventoryProps.

(** ** EventBus and GameContext *)
Module EventProps.
Import EventBus.

Lemma list_find_first (callback : nat) (l1 l2 : list nat) :
  callback ∉ l1 →
  list_find (λ c, c = callback) (l1 ++ callback :: l2)
  = Some (length l1, callback).
Proof.
  intros Hn. apply list_find_Some. split_and!.
  - by rewrite list_lookup_middle.
  - done.
  - intros j y Hj Hlt. rewrite lookup_app_l in Hj by done.
    intros ->. apply Hn. by eapply list_elem_of_lookup_2.
Qed.

Lemma list_find_absent (callback : nat) (l : list nat) :
  callback ∉ l → list_find (λ c, c = callback) l = None.
Proof.
  intros Hn. apply list_find_None. apply list.Forall_forall.
  intros x Hx ->. done.
Qed.

Lemma delete_middle (l1 l2 : list nat) (c : nat) :
  delete (length l1) (l1 ++ c :: l2) = l1 ++ l2.
Proof. induction l1 as [|a l1 IH]; [done|]. cbn. f_equal. exact IH. Qed.

Lemma off_first (event : string) (callback : nat)
    (listeners : gmap string (list nat)) (before after : list nat) :
  subscribers event listeners = before ++ callback :: after →
  callback ∉ before →
  subscribers event (off event callback listeners) = before ++ after.
Proof.
  unfold subscribers, off. intros Hs Hn.
  destruct (listeners !! event) as [cbs|] eqn:E.
  - subst cbs. rewrite list_find_first by done. cbn.
    by rewrite lookup_insert_eq, delete_middle.
  - by destruct before.
Qed.

(** X3. [off] removes the first subscription of the callback to the event
    and nothing else: later subscriptions of the same callback, the other
    callbacks and the other events stay; for a callback that is not
    subscribed it changes nothing. *)
Theorem off_removes_first_subscription (event : string) (callback : nat)
    (listeners : gmap string (list nat)) :
  (∀ before after,
     subscribers event listeners = before ++ callback :: after →
     callback ∉ before →
     subscribers event (off event callback listeners) = before ++ after)
  ∧ (callback ∉ subscribers event listeners →
     off event callback listeners = listeners)
  ∧ (∀ other, other ≠ event →
     subscribers other (off event callback listeners)
     = subscribers other listeners).
Proof.
  split_and!; [intros l1 l2; apply off_first| |]; unfold subscribers, off.
  - intros Hn. destruct (listeners !! event) as [cbs|] eqn:E; [|done].
    by rewrite list_find_absent.
  - intros other Hne. destruct (listeners !! event) as [cbs|] eqn:E; [|done].
    destruct (list_find _ cbs) as [[i ?]|]; [|done].
    by rewrite lookup_insert_ne.
Qed.




End EventProps.

Module ContextProps.
Import GameContext.

(** X5. [registerEnemy] keeps the roster free of duplicates: the enemy is in
    the roster afterwards, exactly as often as it was if it was there, once
    if it was not; 'enemySpawned' is emitted only when the enemy is added;
    and registering the same enemy again changes nothing. *)
Theorem registerEnemy_no_duplicates (enemy : nat) (c : State) :
  NoDup (getEnemies c) →
  let c' := registerEnemy enemy c in
  NoDup (getEnemies c')
  ∧ enemy ∈ getEnemies c'
  ∧ (enemy ∈ getEnemies c → c' = c)
  ∧ (enemy ∉ getEnemies c →
     getEnemies c' = getEnemies c ++ [enemy]
     ∧ emitted c' = emitted c ++ [("enemySpawned"%string, enemy)])
  ∧ registerEnemy enemy c' = c'.
Proof.
  intros Hnd. cbn. unfold registerEnemy, getEnemies in *.
  set (roster := match enemies c with Some l => l | None => [] end) in *.
  destruct (decide (enemy ∈ roster)) as [Hin|Hout]; cbn.
  - fold roster. split_and!; try done.
    rewrite decide_True by done. done.
  - split_and!; try done.
    + apply NoDup_app. split_and!; [done| |apply NoDup_singleton].
      intros x Hx Hx'. apply list_elem_of_singleton in Hx'. by subst.
    + set_solver.
    + rewrite decide_True; [done|set_solver].
Qed.

Lemma registerEnemy_no_duplicates_witness :
  let c := registerEnemies [4; 7]%nat new in
  NoDup (getEnemies (registerEnemy 9 c))
  ∧ getEnemies (registerEnemy 9 c) = [4; 7; 9]%nat
  ∧ registerEnemy 7 c = c.
Proof.
  cbn zeta.
  assert (NoDup (getEnemies (registerEnemies [4; 7]%nat new))) as Hnd.
  { cbn. repeat constructor; set_solver. }
  pose proof (registerEnemy_no_duplicates 9 _ Hnd) as (H1 & _).
  pose proof (registerEnemy_no_duplicates 7 _ Hnd) as (_ & _ & H3 & _).
  split_and!; [exact H1|reflexivity|apply H3; cbn; set_solver].
Defined.

(** X6. A spawned enemy is in the shared roster twice. The roster
    EnemySystem registers with [registerEnemies] is the array
    [registerEnemy] pushes to; the constructor of EnemyUnit registers the new
    unit, and [spawnEnemy] then pushes it again without looking, and emits
    'enemySpawned' a second time. *)
Theorem spawned_enemy_registered_twice (enemy : nat) (roster : list nat)
    (c : State) :
  enemies c = Some roster →
  enemy ∉ roster →
  let c' := trackSpawned enemy (constructEnemyUnit enemy c) in
  getEnemies c' = roster ++ [enemy; enemy]
  ∧ emitted c' = emitted c ++ [("enemySpawned"%string, enemy);
                               ("enemySpawned"%string, enemy)]
  ∧ ¬ NoDup (getEnemies c').
Proof.
  intros E Hn. cbn.
  unfold trackSpawned, constructEnemyUnit, registerEnemy, getEnemies.
  rewrite E. rewrite decide_False by done. cbn.
  rewrite <- !app_assoc. cbn. split_and!; [done|done|].
  intros Hnd. apply NoDup_app in Hnd as (_ & _ & Hnd).
  apply NoDup_cons in Hnd as [Hnd _]. set_solver.
Qed.

Lemma spawned_enemy_registered_twice_witness :
  let c := registerEnemies [] new in
  getEnemies (trackSpawned 0%nat (constructEnemyUnit 0%nat c)) = [0; 0]%nat.
Proof.
  cbn zeta.
  pose proof (spawned_enemy_registered_twice 0%nat [] (registerEnemies [] new)
                eq_refl) as (H1 & _); [set_solver|exact H1].
Defined.

End ContextProps.

(** ** Comparisons of rationals *)
Module CompareFacts.

Lemma leb_gt (a b : Qc) : Js.leb a b = false ↔ (b < a)%Qc.
Proof.
  split.
  - intros E. apply Qcnot_le_lt. intros Hle.
    apply JsFacts.leb_le in Hle. congruence.
  - intros Hlt. destruct (Js.leb a b) eqn:E; [|done].
    apply JsFacts.leb_le in E. apply Qclt_not_le in Hlt. done.
Qed.

Lemma ltb_ge (a b : Qc) : Js.ltb a b = false ↔ (b ≤ a)%Qc.
Proof.
  split.
  - intros E. apply Qcnot_lt_le. intros Hlt.
    apply JsFacts.ltb_lt in Hlt. congruence.
  - intros Hle. destruct (Js.ltb a b) eqn:E; [|done].
    apply JsFacts.ltb_lt in E. apply Qcle_not_lt in Hle. done.
Qed.

Lemma clamp0_spec (h : Qc) :
  (0 ≤ Units.clamp0 h)%Qc
  ∧ ((0 ≤ h)%Qc → Units.clamp0 h = h)
  ∧ ((h ≤ 0)%Qc → Units.clamp0 h = 0%Qc).
Proof.
  unfold Units.clamp0. destruct (Js.leb 0 h) eqn:E.
  - apply JsFacts.leb_le in E. split_and!; [done|done|].
    intros Hle. by apply Qcle_antisym.
  - apply leb_gt in E. split_and!; [apply Qcle_refl| |done].
    intros Hle. apply Qclt_not_le in E. done.
Qed.

Lemma min_spec (a b : Qc) :
  (Js.min a b ≤ a)%Qc ∧ (Js.min a b ≤ b)%Qc
  ∧ (Js.min a b = a ∨ Js.min a b = b).
Proof.
  unfold Js.min. destruct (Js.leb a b) eqn:E.
  - apply JsFacts.leb_le in E. split_and!; [apply Qcle_refl|done|by left].
  - apply leb_gt in E. split_and!; [by apply Qclt_le_weak|apply Qcle_refl|by right].
Qed.

End CompareFacts.

(** ** Player *)
Module PlayerProps.
Import Player CompareFacts.

(** X7. The health of the player stays between 0 and [maxHealth]: neither
    [takeDamage] nor [heal] with an amount that is not negative, nor a timer
    that fires, takes it out of that range. *)
Theorem player_health_in_range (now amount : Qc) (t : Timers.Timer Closure)
    (p : State) :
  (0 ≤ health p)%Qc → (health p ≤ maxHealth p)%Qc → (0 ≤ amount)%Qc →
  (0 ≤ health (takeDamage now amount p).2 ≤ maxHealth (takeDamage now amount p).2)%Qc
  ∧ (0 ≤ health (heal amount p).2 ≤ maxHealth (heal amount p).2)%Qc
  ∧ (0 ≤ health (fire t p) ≤ maxHealth (fire t p))%Qc.
Proof.
  intros H0 Hmax Ha. split; [|split].
  - unfold takeDamage. destruct (isInvulnerable p); [done|]. cbn.
    destruct (clamp0_spec (health p - amount)) as (Hc0 & Hc1 & Hc2).
    assert (Units.clamp0 (health p - amount) ≤ maxHealth p)%Qc as Hle.
    { destruct (Qclt_le_dec (health p - amount) 0) as [Hneg|Hpos].
      - rewrite Hc2 by (by apply Qclt_le_weak).
        exact (Qcle_trans _ _ _ H0 Hmax).
      - rewrite Hc1 by done. qc2q. lra. }
    destruct (Js.leb _ 0); cbn; done.
  - unfold heal. cbn.
    destruct (min_spec (health p + amount) (maxHealth p)) as (_ & Hb & [Hm|Hm]);
      split; try done; rewrite Hm.
    + qc2q. lra.
    + exact (Qcle_trans _ _ _ H0 Hmax).
  - unfold fire. destruct (Timers.callback t); cbn; [done|].
    split; [exact (Qcle_trans _ _ _ H0 Hmax)|apply Qcle_refl].
Qed.

Lemma player_health_in_range_witness :
  (0 ≤ health (takeDamage 0 (Js.num 130) new).2
   ≤ maxHealth (takeDamage 0 (Js.num 130) new).2)%Qc.
Proof.
  pose proof (player_health_in_range 0 (Js.num 130)
                (Timers.mkTimer 1 0 Revive) new) as H.
  destruct H as (H & _); [done|done|done|exact H].
Defined.



(** X9. A blow of the player deals an integer damage between 13 and 18:
    [floor(15 * (0.9 + 0.3 r))] for a draw [r] in [0, 1). The product stays
    below 18, which it reaches in the limit of [r] at 1: 18 is the bound that
    also holds of the product rounded to a number of JavaScript. *)
Theorem player_blow_between_13_and_18 (r : Qc) :
  (0 ≤ r)%Qc → (r < 1)%Qc → 13 ≤ actualDamage r new ≤ 18.
Proof.
  intros H0 H1. unfold actualDamage.
  change (damage new) with (Js.num 15).
  assert (13 ≤ Js.floor (Js.num 15 * (Js.frac 9 10 + r * Js.frac 3 10)) < 18);
    [|lia].
  apply FloorFacts.floor_range; qc2q; unfold inject_Z; lra.
Qed.

Lemma player_blow_between_13_and_18_witness :
  13 ≤ actualDamage (Js.frac 1 2) new ≤ 18.
Proof. apply player_blow_between_13_and_18; vm_compute; congruence. Defined.



(** X11. A hit that takes the health of the player to 0 sets it to exactly 0
    and queues the revival one second later; when that timer fires the
    player is back at full health at the position (0, 5, 0), with no
    vertical velocity. *)
Theorem player_revives_after_death (now amount : Qc) (p : State) :
  isInvulnerable p = false →
  (health p ≤ amount)%Qc →
  let p1 := (takeDamage now amount p).2 in
  health p1 = 0%Qc
  ∧ (takeDamage now amount p).1 = Some 0%Qc
  ∧ ∃ t, Timers.pending (timers p1) = Timers.pending (timers p) ++ [t]
         ∧ Timers.callback t = Revive
         ∧ Timers.due t = (now + Js.num 1000)%Qc
         ∧ health (fire t p1) = maxHealth p
         ∧ getPosition (fire t p1) = vec 0 (Js.num 5) 0
         ∧ verticalVelocity (fire t p1) = 0%Qc.
Proof.
  intros Hi Hle. cbn zeta. unfold takeDamage. rewrite Hi. cbn.
  destruct (clamp0_spec (health p - amount)) as (_ & _ & Hc).
  rewrite Hc by (qc2q; lra).
  change (Js.leb 0 0) with true. cbn.
  split_and!; [done|done|].
  eexists. split_and!; [reflexivity|done|done|done|done|done].
Qed.

Lemma player_revives_after_death_witness :
  health (takeDamage 0 (Js.num 100) new).2 = 0%Qc.
Proof.
  pose proof (player_revives_after_death 0 (Js.num 100) new eq_refl) as H.
  destruct H as (H & _); [vm_compute; discriminate|exact H].
Defined.

Section Ground.
Context `{World.Environment}.

(** X12. The player never ends a frame below the ground: after [update],
    wherever the terrain has a height under the player, the player stands at
    least 1 above it; in a world built by the game the terrain height is 0
    everywhere, so the player is at height 1 or more. *)
Theorem player_stays_above_ground (now deltaTime : Qc) (action jump : bool)
    (dir : Qc * Qc) (w : World.State) (p : State) :
  let p' := (update now deltaTime action jump dir w p).1 in
  (∀ groundHeight,
     World.getHeightAt w (x p') (z p') = Some groundHeight →
     (groundHeight + 1 ≤ y p')%Qc)
  ∧ (World.reachable w → (1 ≤ y p')%Qc).
Proof.
  cbn zeta.
  assert (∀ groundHeight,
     World.getHeightAt w (x (update now deltaTime action jump dir w p).1)
                         (z (update now deltaTime action jump dir w p).1)
     = Some groundHeight →
     (groundHeight + 1 ≤ y (update now deltaTime action jump dir w p).1)%Qc) as Hg.
  { unfold update.
    destruct (if action then startAttack now p else (p, false)) as [p1 struck].
    cbv zeta.
    match goal with
    | |- context [match World.getHeightAt w ?a ?b with
                  | Some _ => _ | None => _ end] =>
      set (x1 := a); set (z1 := b)
    end.
    destruct (World.getHeightAt w x1 z1) as [g|] eqn:Eg.
    - destruct (Js.ltb _ (g + 1)) eqn:El; cbn; intros g' Hg'.
      + rewrite Eg in Hg'. injection Hg' as <-. apply Qcle_refl.
      + rewrite Eg in Hg'. injection Hg' as <-. by apply ltb_ge in El.
    - cbn. intros g' Hg'. congruence. }
  split; [exact Hg|].
  intros Hr. specialize (Hg 0%Qc (HeightFacts.getHeightAt_reachable _ _ _ Hr)).
  by rewrite Qcplus_0_l in Hg.
Qed.

End Ground.

End PlayerProps.

(** ** The registry of the World *)
Module RegistryFacts.
Import Resources World WorldSpec RegistrySpec WorldFacts ResidencyFacts HeightFacts.

Section Registry.
Context `{Environment}.

Lemma getHeightAt_chunks w w' x z :
  chunks w' = chunks w → getHeightAt w' x z = getHeightAt w x z.
Proof. unfold getHeightAt. by intros ->. Qed.

Lemma allFresh_height w x z : allFresh w → getHeightAt w x z = Js.fin 0.
Proof.
  intros Hf. unfold getHeightAt.
  destruct (chunks w !! _) as [chunk|] eqn:Hk; [|done].
  destruct (Hf _ _ Hk) as [-> _]. done.
Qed.

(** *** The placement loops, object by object *)

Lemma iter_placeObject_objects n c chunk w :
  let st := Nat.iter n (placeObject c) (chunk, w) in
  chunkObjects st.1 = chunkObjects chunk ++ seq (nextId w) n
  ∧ objects st.2 = objects w ++ seq (nextId w) n
  ∧ nextId st.2 = (nextId w + n)%nat
  ∧ rng st.2 = (rng w + 3 * n)%nat
  ∧ (∀ id, nodes st.2 !! id =
           if decide (nextId w ≤ id < nextId w + n)%nat
           then Some (placed c chunk w (id - nextId w))
           else nodes w !! id)
  ∧ terrainBodies st.2 = terrainBodies w
  ∧ physicsBodies st.2 = physicsBodies w.
Proof.
  induction n as [|n IH]; cbv zeta in *.
  - cbn. rewrite !app_nil_r, !Nat.add_0_r. split_and!; try done.
    intros id. case_decide; [lia|done].
  - rewrite Nat.iter_succ.
    destruct (iter_placeObject n c (chunk, w)) as [(_ & Hx & Hz & _) (Hc & _ & _)].
    cbv zeta in Hx, Hz, Hc. cbn [fst snd] in Hx, Hz, Hc.
    destruct IH as (Ho & Hob & Hid & Hr & Hn & Htb & Hpb).
    destruct (Nat.iter n (placeObject c) (chunk, w)) as [chunk' w'].
    cbn [fst snd] in *. rewrite !seq_S. cbn -[seq Nat.mul Nat.add].
    rewrite Ho, Hob, Hid, Hr. rewrite !app_assoc.
    split_and!; try done; try lia.
    intros id. destruct (decide (id = nextId w + n)%nat) as [->|Hne].
    + rewrite lookup_insert_eq. rewrite decide_True by lia.
      f_equal. unfold placed. cbv zeta.
      replace (nextId w + n - nextId w)%nat with n by lia.
      rewrite Hx, Hz. by rewrite (getHeightAt_chunks w w') by done.
    + rewrite lookup_insert_ne by done. rewrite Hn.
      repeat case_decide; try done; lia.
Qed.

Lemma placed_spec c chunk w i :
  class (placed c chunk w i) = c
  ∧ placed c chunk w i = Resources.new c (position (placed c chunk w i))
  ∧ vy (position (placed c chunk w i))
    = getHeightAt w (vx (position (placed c chunk w i)))
                    (vz (position (placed c chunk w i)))
  ∧ ((∀ j, 0 ≤ random j < 1)%Qc → inChunk chunk (position (placed c chunk w i))).
Proof.
  unfold placed. cbv zeta.
  destruct c; cbn -[Nat.mul Nat.add]; split_and!; try done.
  all: intros Hr; unfold inChunk; cbn -[Nat.mul Nat.add];
    pose proof (Hr (rng w + 3 * i)%nat) as [? ?];
    pose proof (Hr (S (rng w + 3 * i))%nat) as [? ?];
    generalize (Js.num (chunkX chunk * chunkSize))
               (Js.num (chunkZ chunk * chunkSize)); intros a b;
    unfold chunkSize; split_and!; qc2q; unfold inject_Z in *; lra.
Qed.

Lemma placed_builtBy c chunk chunk' w w' i :
  chunks w' = chunks w → chunkX chunk' = chunkX chunk → chunkZ chunk' = chunkZ chunk →
  builtBy c chunk w (placed c chunk' w' i).
Proof.
  intros Hc Hx Hz.
  destruct (placed_spec c chunk' w' i) as (_ & Hn & Hy & Hin).
  split_and!; [done|by rewrite <- (getHeightAt_chunks w w')|].
  intros Hr. specialize (Hin Hr). unfold inChunk in *. by rewrite <- Hx, <- Hz.
Qed.

Lemma populateChunk_objects chunk w :
  let st := populateChunk chunk w in
  let nt := Z.to_nat (treeCount w) in
  let nr := Z.to_nat (rockCount w) in
  chunkObjects st.1 = chunkObjects chunk ++ seq (nextId w) (nt + nr)
  ∧ objects st.2 = objects w ++ seq (nextId w) (nt + nr)
  ∧ nextId st.2 = (nextId w + (nt + nr))%nat
  ∧ (∀ id, ¬ (nextId w ≤ id < nextId w + (nt + nr))%nat →
           nodes st.2 !! id = nodes w !! id)
  ∧ (∀ id, (nextId w ≤ id < nextId w + nt)%nat →
           ∃ n, nodes st.2 !! id = Some n ∧ builtBy Tree chunk w n)
  ∧ (∀ id, (nextId w + nt ≤ id < nextId w + (nt + nr))%nat →
           ∃ n, nodes st.2 !! id = Some n ∧ builtBy Rock chunk w n)
  ∧ terrainBodies st.2 = terrainBodies w
  ∧ physicsBodies st.2 = physicsBodies w.
Proof.
  unfold populateChunk, treeCount, rockCount. cbv zeta.
  set (w1 := setRng _ w).
  set (nt := Z.to_nat (5 + _)). set (nr := Z.to_nat (3 + _)).
  pose proof (iter_placeObject_objects nt Tree chunk w1) as Ht.
  pose proof (iter_placeObject nt Tree (chunk, w1)) as Hf.
  cbv zeta in Ht, Hf.
  destruct (Nat.iter nt (placeObject Tree) (chunk, w1)) as [chunk1 w2] eqn:E1.
  pose proof (iter_placeObject_objects nr Rock chunk1 w2) as Hr.
  cbv zeta in Hr.
  destruct (Nat.iter nr (placeObject Rock) (chunk1, w2)) as [chunk2 w3] eqn:E2.
  cbn [fst snd] in *.
  destruct Ht as (Ht1 & Ht2 & Ht3 & _ & Ht5 & Ht6 & Ht7).
  destruct Hr as (Hr1 & Hr2 & Hr3 & _ & Hr5 & Hr6 & Hr7).
  destruct Hf as [(_ & Hx & Hz & _) (Hc & _ & _)].
  change (nextId w1) with (nextId w) in *. change (objects w1) with (objects w) in *.
  change (nodes w1) with (nodes w) in *.
  rewrite Hr1, Hr2, Hr3, Ht1, Ht2, Ht3, seq_app, !app_assoc.
  split_and!; try done; try lia.
  - intros id Hid. rewrite Hr5, Ht3. rewrite decide_False by lia.
    rewrite Ht5. by rewrite decide_False by lia.
  - intros id Hid. rewrite Hr5, Ht3. rewrite decide_False by lia.
    rewrite Ht5. rewrite decide_True by lia.
    eexists. split; [done|]. by apply placed_builtBy.
  - intros id Hid. rewrite Hr5, Ht3. rewrite decide_True by lia.
    eexists. split; [done|]. apply placed_builtBy; [|done|done].
    by rewrite Hc.
  - by rewrite Hr6, Ht6.
  - by rewrite Hr7, Ht7.
Qed.

(** X13. [populateChunk] puts 5 to 9 trees and then 3 to 5 rocks on the
    chunk, for draws of [Math.random()] in [0, 1): every one of them is a
    new object, added at the end of both the chunk's list and the registry
    of the world, built at full health, standing over the square of the
    chunk, its edges included, at the height [getHeightAt] gives there. The
    chunk is one whose corners are integers below 2^53, which the numbers of
    the code hold exactly. *)
Theorem populateChunk_census (chunk : Chunk) (w : State) :
  (∀ j, 0 ≤ random j < 1)%Qc →
  (Z.abs (chunkX chunk) + 1) * chunkSize < 2 ^ 53 →
  (Z.abs (chunkZ chunk) + 1) * chunkSize < 2 ^ 53 →
  let st := populateChunk chunk w in
  ∃ trees rocks : list nat,
    chunkObjects st.1 = chunkObjects chunk ++ trees ++ rocks
    ∧ objects st.2 = objects w ++ trees ++ rocks
    ∧ (5 ≤ length trees ≤ 9)%nat ∧ (3 ≤ length rocks ≤ 5)%nat
    ∧ NoDup (trees ++ rocks)
    ∧ (∀ id, id ∈ trees →
         ∃ n, nodes st.2 !! id = Some n ∧ n = Resources.new Tree (position n)
              ∧ inChunk chunk (position n)
              ∧ vy (position n)
                = getHeightAt w (vx (position n)) (vz (position n)))
    ∧ (∀ id, id ∈ rocks →
         ∃ n, nodes st.2 !! id = Some n ∧ n = Resources.new Rock (position n)
              ∧ inChunk chunk (position n)
              ∧ vy (position n)
                = getHeightAt w (vx (position n)) (vz (position n))).
Proof.
  intros Hr _ _. cbv zeta.
  destruct (populateChunk_objects chunk w)
    as (H1 & H2 & _ & _ & H5 & H6 & _). cbv zeta in *.
  assert (0 ≤ Js.floor (random (rng w) * Js.num 5) < 5) as Ht.
  { destruct (Hr (rng w)). apply FloorFacts.floor_range; qc2q; unfold inject_Z; lra. }
  assert (0 ≤ Js.floor (random (S (rng w)) * Js.num 3) < 3) as Hk.
  { destruct (Hr (S (rng w))).
    apply FloorFacts.floor_range; qc2q; unfold inject_Z; lra. }
  unfold treeCount, rockCount in *.
  set (nt := Z.to_nat (5 + _)) in *. set (nr := Z.to_nat (3 + _)) in *.
  exists (seq (nextId w) nt), (seq (nextId w + nt) nr).
  rewrite <- seq_app, !length_seq.
  split_and!; try done; try lia.
  - apply NoDup_seq.
  - intros id Hid%elem_of_seq. destruct (H5 id Hid) as (n & Hn & Hb & Hy & Hin).
    exists n. split_and!; try done. by apply Hin.
  - intros id Hid%elem_of_seq.
    destruct (H6 id) as (n & Hn & Hb & Hy & Hin); [lia|].
    exists n. split_and!; try done. by apply Hin.
Qed.

(** *** Generating and evicting chunks *)

Lemma generateTerrainForChunk_objects chunk w :
  let st := generateTerrainForChunk chunk w in
  chunkObjects st.1 = chunkObjects chunk
  ∧ objects st.2 = objects w
  ∧ nodes st.2 = nodes w
  ∧ (nextId w ≤ nextId st.2)%nat
  ∧ (∀ k, terrainBodies st.2 !! Some k = terrainBodies w !! Some k)
  ∧ physicsBodies w `prefix_of` physicsBodies st.2.
Proof.
  unfold generateTerrainForChunk. cbv zeta. destruct hasPhysics; cbn.
  - split_and!; try done.
    + lia.
    + intros k. by rewrite lookup_insert_ne.
    + by apply prefix_app_r.
  - split_and!; try done. lia.
Qed.

Lemma generateChunk_registry k w :
  ∃ c first count,
    chunks (generateChunk k w) = <[k := c]> (chunks w)
    ∧ chunkObjects c = seq first count
    ∧ (chunkX c, chunkZ c) = k
    ∧ (nextId w ≤ first)%nat
    ∧ nextId (generateChunk k w) = (first + count)%nat
    ∧ objects (generateChunk k w) = objects w ++ seq first count
    ∧ (∀ id, ¬ (first ≤ id < first + count)%nat →
             nodes (generateChunk k w) !! id = nodes w !! id)
    ∧ (∀ id, (first ≤ id < first + count)%nat →
             ∃ n cls, nodes (generateChunk k w) !! id = Some n
                      ∧ builtBy cls c w n)
    ∧ (∀ k', terrainBodies (generateChunk k w) !! Some k'
             = terrainBodies w !! Some k')
    ∧ physicsBodies w `prefix_of` physicsBodies (generateChunk k w).
Proof.
  unfold generateChunk.
  set (chunk := mkChunk None [] None k.1 k.2 None None).
  pose proof (generateTerrainForChunk_spec chunk w) as Hg. cbv zeta in Hg.
  pose proof (generateTerrainForChunk_objects chunk w) as Hg'. cbv zeta in Hg'.
  destruct (generateTerrainForChunk chunk w) as [chunk1 w1].
  pose proof (populateChunk_spec chunk1 w1) as Hp. cbv zeta in Hp.
  pose proof (populateChunk_objects chunk1 w1) as Hp'. cbv zeta in Hp'.
  destruct (populateChunk chunk1 w1) as [chunk2 w2]. cbn [fst snd] in *.
  destruct Hg as [(_ & Hx1 & Hz1) (Hc1 & _ & _)].
  destruct Hg' as (Ho1 & Hob1 & Hn1 & Hid1 & Htb1 & Hpb1).
  destruct Hp as [(_ & Hx2 & Hz2 & _) (Hc2 & _ & _)].
  destruct Hp' as (Ho2 & Hob2 & Hid2 & Hn2 & Ht2 & Hr2 & Htb2 & Hpb2).
  set (nt := Z.to_nat (treeCount w1)) in *.
  set (nr := Z.to_nat (rockCount w1)) in *.
  exists chunk2, (nextId w1), (nt + nr)%nat. cbn.
  assert (∀ cls n, builtBy cls chunk1 w1 n → builtBy cls chunk2 w n) as Hb.
  { intros cls n (Hb1 & Hb2 & Hb3). split_and!; [done| |].
    - by rewrite <- (getHeightAt_chunks w w1).
    - intros Hr. specialize (Hb3 Hr). unfold inChunk in *.
      by rewrite Hx2, Hz2. }
  split_and!; try done.
  - by rewrite Hc2, Hc1.
  - rewrite Ho2, Ho1. done.
  - rewrite Hx2, Hz2, Hx1, Hz1. by destruct k.
  - by rewrite Hob2, Hob1.
  - intros id Hid. rewrite Hn2 by done. by rewrite Hn1.
  - intros id Hid. destruct (decide (id < nextId w1 + nt)%nat) as [Hlt|Hge].
    + destruct (Ht2 id) as (n & Hn & Hbn); [lia|]. exists n, Tree. eauto.
    + destruct (Hr2 id) as (n & Hn & Hbn); [lia|]. exists n, Rock. eauto.
  - intros k'. by rewrite Htb2, Htb1.
  - by rewrite Hpb2.
Qed.

Lemma new_standing c p : vy p = Js.fin 0 → standing (Resources.new c p).
Proof.
  intros Hy. unfold standing.
  destruct c; cbn; split_and!; try done; exists 0; cbn; lia.
Qed.

Lemma generateChunk_sound k w : sound w → sound (generateChunk k w).
Proof.
  intros (Hf & (Hnd & Hreg & Hlt & Hown & Htb) & Hst).
  destruct (generateChunk_registry k w)
    as (c & first & count & Hc & Hco & Hk & Hfirst & Hid & Hob & Hold & Hnew
        & Htb' & _).
  destruct (generateChunk_spec k w) as (c' & Hc' & Hm & _).
  assert (c' = c) as ->.
  { rewrite Hc in Hc'.
    assert (<[k:=c]> (chunks w) !! k = <[k:=c']> (chunks w) !! k) as E
      by (by rewrite Hc').
    rewrite !lookup_insert_eq in E. by injection E. }
  unfold sound, registered. split_and!.
  - intros k' ch. rewrite Hc. intros [[<- <-]|[_ Hk']]%lookup_insert_Some.
    + by split.
    + by apply Hf.
  - rewrite Hob. apply NoDup_app. split_and!; [done| |apply NoDup_seq].
    intros id Hin Hin'%elem_of_seq. apply Hlt in Hin. lia.
  - intros id. rewrite Hob, elem_of_app, elem_of_seq.
    destruct (decide (first ≤ id < first + count)%nat) as [Hin|Hout].
    + destruct (Hnew id Hin) as (n & cls & -> & _). split; [eauto|by right].
    + rewrite Hold by done. rewrite <- Hreg. split; [intros [?|?]; [done|lia]|by left].
  - intros id. rewrite Hob, Hid, elem_of_app, elem_of_seq.
    intros [Hin%Hlt|Hin]; lia.
  - intros k' ch id. rewrite Hc, Hob, elem_of_app.
    intros [[<- <-]|[_ Hk']]%lookup_insert_Some Hin.
    + right. by rewrite Hco in Hin.
    + left. by eapply Hown.
  - intros k'. by rewrite Htb'.
  - intros id n Hn.
    destruct (decide (first ≤ id < first + count)%nat) as [Hin|Hout].
    + destruct (Hnew id Hin) as (n' & cls & Hn' & Hb & Hy & _).
      rewrite Hn in Hn'. injection Hn' as <-.
      rewrite Hb. apply new_standing. rewrite Hy. by apply allFresh_height.
    + rewrite Hold in Hn by done. by eapply Hst.
Qed.

Lemma removeChunk_bodies k w :
  (∀ k', terrainBodies w !! Some k' = None) →
  nextId (removeChunk k w) = nextId w
  ∧ terrainBodies (removeChunk k w) = terrainBodies w
  ∧ physicsBodies (removeChunk k w) = physicsBodies w.
Proof.
  intros Htb. unfold removeChunk. destruct (chunks w !! k) as [chunk|]; [|done].
  rewrite foldl_disposeObject.
  destruct (terrain chunk); cbn; rewrite Htb; by destruct (physicsEnabled w).
Qed.

Lemma removeChunk_sound k w : sound w → sound (removeChunk k w).
Proof.
  intros (Hf & (Hnd & Hreg & Hlt & Hown & Htb) & Hst).
  destruct (removeChunk_frame k w) as (Ho & Hn & _ & _).
  destruct (removeChunk_bodies k w Htb) as (Hid & Htb' & _).
  pose proof (removeChunk_chunks k w) as Hc.
  unfold sound, registered, allFresh. rewrite Ho, Hn, Hid, Htb', Hc.
  split_and!; try done.
  - intros k' ch [_ Hk]%lookup_delete_Some. by apply Hf.
  - intros k' ch id [_ Hk]%lookup_delete_Some. by apply (Hown k').
Qed.

Lemma foldl_generateMissing_sound keys w :
  sound w → sound (foldl generateMissing w keys).
Proof.
  revert w. induction keys as [|k keys IH]; intros w Hs; cbn; [done|].
  apply IH. unfold generateMissing.
  destruct (chunks w !! k); [done|]. by apply generateChunk_sound.
Qed.

Lemma foldl_removeInactive_sound active l w :
  sound w → sound (foldl (removeInactive active) w l).
Proof.
  revert w. induction l as [|k l IH]; intros w Hs; cbn; [done|].
  apply IH. unfold removeInactive. case_decide; [done|].
  by apply removeChunk_sound.
Qed.

Lemma updateChunksAroundPlayer_sound px pz w :
  sound w → sound (updateChunksAroundPlayer px pz w).
Proof.
  intros Hs. rewrite updateChunksAroundPlayer_reconcile. unfold reconcile.
  cbv zeta. apply foldl_removeInactive_sound.
  by apply foldl_generateMissing_sound.
Qed.

(** *** The methods of Tree and Rock keep a node standing *)

Lemma interact_standing n : standing n → standing (Resources.interact n).1.2.
Proof.
  intros (Hy & Ht & Ha & Hr & Hv & Hs & Hh). unfold Resources.interact, canInteract.
  destruct (interactionEnabled n) eqn:He; cbn.
  - destruct Hh as (hits & H0 & Hh & Hpos).
    destruct (health n - 25 <=? 0) eqn:Hle; cbn.
    + apply Z.leb_le in Hle.
      unfold standing. cbn. split_and!; try done.
      unfold fullHealth in *. destruct (class n); lia.
    + apply Z.leb_gt in Hle.
      unfold standing. cbn. rewrite ?He. split_and!; try done.
      exists (hits + 1). lia.
  - unfold standing. rewrite ?He. by split_and!.
Qed.

Lemma respawn_standing n : standing n → standing (respawn n).
Proof.
  intros (Hy & Ht & Ha & Hr & _). unfold standing, respawn. cbn.
  split_and!; try done. exists 0. unfold fullHealth. destruct (class n); lia.
Qed.

Lemma update_standing dt n : standing n → standing (Resources.update dt n).
Proof.
  intros Hs. unfold Resources.update.
  destruct (visible n && Js.ltb (scale n) 1); [|done].
  destruct Hs as (Hy & Ht & Ha & Hr & Hv & _ & Hh).
  unfold standing. cbn. split_and!; try done.
  destruct (Js.leb 1 _) eqn:E; [done|].
  apply CompareFacts.leb_gt in E. by apply Qclt_le_weak.
Qed.

Lemma foldl_alter_sound (f : Node → Node) l w :
  (∀ n, standing n → standing (f n)) →
  let w' := foldl (λ acc id, setNodes (alter f id) acc) w l in
  (sound w → sound w')
  ∧ objects w' = objects w ∧ physicsBodies w' = physicsBodies w
  ∧ scene w' = scene w.
Proof.
  intros Hf. revert w. induction l as [|id l IH]; intros w; cbn; [done|].
  destruct (IH (setNodes (alter f id) w)) as (IH1 & IH2 & IH3 & IH4).
  split_and!; try done.
  intros (Hfr & (Hnd & Hreg & Hlt & Hown & Htb) & Hst). apply IH1.
  unfold sound, registered. cbn. split_and!; try done.
  - intros id'. rewrite Hreg. rewrite lookup_alter.
    case_decide; [subst|done]. by rewrite fmap_is_Some.
  - intros id' n. rewrite lookup_alter. case_decide; [subst|by apply Hst].
    destruct (nodes w !! id') as [n0|] eqn:E; [|done].
    cbn. intros [= <-]. apply Hf. by eapply Hst.
Qed.

Lemma update_sound dt p w : sound w → sound (update dt p w).
Proof.
  intros Hs. unfold update. cbv zeta.
  set (w1 := if decide _ then _ else _).
  assert (sound w1) as Hs1.
  { subst w1. case_decide; [done|].
    apply updateChunksAroundPlayer_sound.
    destruct Hs as (Hf & Hreg & Hst). by split_and!. }
  destruct (foldl_alter_sound (Resources.update dt) (objects w1) w1) as (Hk & _).
  { intros n. apply update_standing. }
  by apply Hk.
Qed.

Lemma interact_sound now id w : sound w → sound (interact now id w).2.
Proof.
  intros (Hfr & (Hnd & Hreg & Hlt & Hown & Htb) & Hst). unfold interact.
  destruct (nodes w !! id) as [n|] eqn:E; [|by split_and!].
  pose proof (interact_standing n (Hst _ _ E)) as Hn.
  destruct (Resources.interact n) as [[reward n'] timeout]. cbn in Hn.
  assert (sound (setNodes (<[id:=n']>) w)) as Hs.
  { unfold sound, registered. cbn. split_and!; try done.
    - intros id'. rewrite Hreg. destruct (decide (id = id')) as [<-|Hne].
      + rewrite lookup_insert_eq, E. split; eauto.
      + by rewrite lookup_insert_ne.
    - intros id' m [[<- <-]|[_ Hm]]%lookup_insert_Some; [done|by eapply Hst]. }
  by destruct timeout.
Qed.

Lemma fire_sound t w : sound w → sound (fire t w).
Proof.
  intros (Hfr & (Hnd & Hreg & Hlt & Hown & Htb) & Hst).
  destruct t as [tid d [id]]. unfold fire, run. cbn.
  unfold sound, registered. cbn. split_and!; try done.
  - intros id'. rewrite Hreg, lookup_alter.
    case_decide; [subst|done]. by rewrite fmap_is_Some.
  - intros id' n. rewrite lookup_alter. case_decide; [subst|by apply Hst].
    destruct (nodes w !! id') as [n0|] eqn:E; [|done].
    cbn. intros [= <-]. apply respawn_standing. by eapply Hst.
Qed.

Lemma runDueTimers_sound now w : sound w → sound (runDueTimers now w).
Proof.
  unfold runDueTimers. generalize (Timers.dueAt now (timers w)).
  intros l. revert w. induction l as [|t l IH]; intros w Hs; cbn; [done|].
  apply IH. by apply fire_sound.
Qed.

Lemma reachable_sound w : reachable w → sound w.
Proof.
  induction 1 as [|dt p w _ IH|now id w _ IH|now w _ IH].
  - unfold sound, registered, allFresh. cbn. split_and!; try done.
    + apply NoDup_nil_2.
    + intros id. rewrite lookup_empty. split; [by intros ?%elem_of_nil|by intros [? ?]].
    + by intros id ?%elem_of_nil.
  - by apply update_sound.
  - by apply interact_sound.
  - by apply runDueTimers_sound.
Qed.

End Registry.

Lemma populateChunk_census_witness :
  let chunk := mkChunk None [] None 0 0 None None in
  ∃ trees rocks : list nat,
    objects (populateChunk (H := Scenario.flat) chunk new).2
    = objects new ++ trees ++ rocks
    ∧ (5 ≤ length trees ≤ 9)%nat ∧ (3 ≤ length rocks ≤ 5)%nat
    ∧ (∀ id, id ∈ trees →
         ∃ n, nodes (populateChunk (H := Scenario.flat) chunk new).2 !! id
              = Some n
              ∧ inChunk chunk (position n)).
Proof.
  cbv zeta.
  destruct (populateChunk_census (H := Scenario.flat)
              (mkChunk None [] None 0 0 None None) new)
    as (trees & rocks & _ & H2 & H3 & H4 & _ & H6 & _).
  - intros j. split; vm_compute; congruence.
  - vm_compute. reflexivity.
  - vm_compute. reflexivity.
  - exists trees, rocks.
    split_and!; [exact H2|apply H3|apply H3|apply H4|apply H4|].
    intros id Hid. destruct (H6 id Hid) as (n & Hn & _ & Hin & _).
    exists n. split; [exact Hn|exact Hin].
Defined.

End RegistryFacts.

Module RegistryProps.
Import Resources World WorldSpec RegistrySpec WorldFacts ResidencyFacts HeightFacts
       RegistryFacts.

Section Props.
Context `{Environment}.

Lemma foldl_generateMissing_grows keys w :
  let w' := foldl generateMissing w keys in
  objects w `prefix_of` objects w'
  ∧ physicsBodies w `prefix_of` physicsBodies w'
  ∧ (∀ k c, chunks w !! k = Some c → chunks w' !! k = Some c).
Proof.
  revert w. induction keys as [|k keys IH]; intros w; cbn; [done|].
  destruct (IH (generateMissing w k)) as (IH1 & IH2 & IH3).
  assert (objects w `prefix_of` objects (generateMissing w k)
          ∧ physicsBodies w `prefix_of` physicsBodies (generateMissing w k)
          ∧ (∀ k' c, chunks w !! k' = Some c →
                     chunks (generateMissing w k) !! k' = Some c))
    as (H1 & H2 & H3).
  { unfold generateMissing. destruct (chunks w !! k) eqn:E; [done|].
    destruct (generateChunk_registry k w)
      as (c & first & count & Hc & _ & _ & _ & _ & Hob & _ & _ & _ & Hpb).
    split_and!; [rewrite Hob; by apply prefix_app_r|done|].
    intros k' c' Hk'. rewrite Hc. rewrite lookup_insert_ne; [done|congruence]. }
  split_and!.
  - by etrans.
  - by etrans.
  - intros k' c Hk'. by apply IH3, H3.
Qed.

Lemma foldl_removeInactive_objects active l w :
  objects (foldl (removeInactive active) w l) = objects w.
Proof.
  revert w. induction l as [|k l IH]; intros w; cbn; [done|].
  rewrite IH. unfold removeInactive. case_decide; [done|].
  by destruct (removeChunk_frame k w) as (-> & _).
Qed.

Lemma foldl_removeInactive_bodies active l w :
  sound w →
  physicsBodies (foldl (removeInactive active) w l) = physicsBodies w.
Proof.
  revert w. induction l as [|k l IH]; intros w Hs; cbn; [done|].
  unfold removeInactive at 2. case_decide; [by apply IH|].
  rewrite IH by (by apply removeChunk_sound).
  destruct Hs as (_ & (_ & _ & _ & _ & Htb) & _).
  by destruct (removeChunk_bodies k w Htb) as (_ & _ & ->).
Qed.

Lemma update_objects_grow dt p w : objects w `prefix_of` objects (update dt p w).
Proof.
  unfold update. cbv zeta. set (w1 := if decide _ then _ else _).
  destruct (foldl_setNodes_frame (λ id, alter (Resources.update dt) id)
              (objects w1) w1) as (_ & _ & _ & ->).
  subst w1. case_decide; [done|].
  rewrite updateChunksAroundPlayer_reconcile. unfold reconcile. cbv zeta.
  rewrite foldl_removeInactive_objects.
  by destruct (foldl_generateMissing_grows
                 (activeKeys (chunkOf p).1 (chunkOf p).2)
                 (setLastPlayerChunkCoords (Some (chunkOf p)) w)) as (? & _).
Qed.

(** X14. In every world the game builds the terrain height is 0 at every
    point, over resident chunks too, because no chunk ever gets a height
    grid; so every tree and every rock stands at height 0, whatever the
    terrain mesh under it looks like. *)
Theorem objects_stand_at_height_zero (w : State) :
  reachable w →
  (∀ x z, getHeightAt w x z = Js.fin 0)
  ∧ (∀ id n, nodes w !! id = Some n → vy (position n) = Js.fin 0).
Proof.
  intros Hr. split.
  - intros x z. by apply getHeightAt_reachable.
  - intros id n Hn. destruct (reachable_sound w Hr) as (_ & _ & Hst).
    by destruct (Hst id n Hn) as (Hy & _).
Qed.


(** X15. The registry [objects] of the World and the trees and rocks that
    exist agree in every world the game builds: the registry has no
    duplicate, it holds exactly the objects that exist, and every object of
    a resident chunk is in it. Nothing ever leaves the registry: [update]
    only appends to it, eviction included, and interactions and respawns
    leave it as it is. *)
Theorem registry_only_grows (w : State) :
  reachable w →
  NoDup (objects w)
  ∧ (∀ id, id ∈ objects w ↔ is_Some (nodes w !! id))
  ∧ (∀ k c id, chunks w !! k = Some c → id ∈ chunkObjects c → id ∈ objects w)
  ∧ (∀ dt p, objects w `prefix_of` objects (update dt p w))
  ∧ (∀ k, objects (removeChunk k w) = objects w)
  ∧ (∀ now id, objects (interact now id w).2 = objects w)
  ∧ (∀ now, objects (runDueTimers now w) = objects w).
Proof.
  intros Hr. destruct (reachable_sound w Hr) as (_ & (Hnd & Hreg & _ & Hown & _) & _).
  split_and!; try done.
  - intros dt p. apply update_objects_grow.
  - intros k. by destruct (removeChunk_frame k w) as (-> & _).
  - intros now id. by destruct (interact_frame now id w) as (_ & _ & ->).
  - intros now. unfold runDueTimers.
    by destruct (foldl_fire_frame (Timers.dueAt now (timers w)) w) as (_ & _ & ->).
Qed.


(** X16. The life of a tree or a rock, in every world the game builds: one
    that can be interacted with is visible and has a positive health, a
    multiple of 25 no greater than the health it was built with (100 for a
    tree, 150 for a rock); one that cannot is hidden, with health exactly 0.
    An interaction therefore gives 1 unit of the resource of the object
    (wood for a tree, stone for a rock), and the whole amount (3 wood,
    5 stone) when it takes the last 25 of health; on a depleted object it
    gives nothing. *)
Theorem node_life_cycle (w : State) (id : nat) (n : Node) (now : Qc) :
  reachable w →
  nodes w !! id = Some n →
  (if canInteract n
   then visible n = true ∧ 0 < health n ≤ fullHealth (class n)
        ∧ (25 | health n)
   else visible n = false ∧ health n = 0)
  ∧ (interact now id w).1
    = if canInteract n
      then Some (mkReward (match class n with Tree => wood | Rock => stone end)
                   (if health n =? 25
                    then match class n with Tree => 3 | Rock => 5 end
                    else 1))
      else None.
Proof.
  intros Hr Hn. destruct (reachable_sound w Hr) as (_ & _ & Hst).
  destruct (Hst id n Hn) as (_ & Ht & Ha & _ & Hv & _ & Hh).
  unfold interact. rewrite Hn. unfold Resources.interact, canInteract in *.
  destruct (interactionEnabled n) eqn:He; cbn.
  - destruct Hh as (hits & H0 & Hh & Hpos). split.
    + split_and!; [done|done| |].
      * rewrite Hh. lia.
      * rewrite Hh. unfold fullHealth.
        destruct (class n); [exists (4 - hits)|exists (6 - hits)]; lia.
    + destruct (health n - 25 <=? 0) eqn:Hle; cbn.
      * apply Z.leb_le in Hle.
        assert (health n = 25) as E.
        { unfold fullHealth in Hh. destruct (class n); lia. }
        rewrite E, Ht, Ha. done.
      * apply Z.leb_gt in Hle.
        destruct (health n =? 25) eqn:E; [apply Z.eqb_eq in E; lia|].
        by rewrite Ht.
  - by split.
Qed.


(** X17. The physics body of a terrain is never released. The body is
    stored under [chunk.key], a field no chunk has, so [removeChunk] finds
    none under the key of the chunk it evicts: in every world the game
    builds eviction leaves the bodies of the physics system as they are, and
    [update] only adds to them, one for each chunk it generates when physics
    is present. *)
Theorem terrain_bodies_never_released (w : State) :
  reachable w →
  (∀ k, physicsBodies (removeChunk k w) = physicsBodies w)
  ∧ (∀ dt p, physicsBodies w `prefix_of` physicsBodies (update dt p w))
  ∧ (hasPhysics = true →
     ∀ k, length (physicsBodies (generateChunk k w))
          = S (length (physicsBodies w))).
Proof.
  intros Hr. pose proof (reachable_sound w Hr) as Hs.
  split_and!.
  - intros k. destruct Hs as (_ & (_ & _ & _ & _ & Htb) & _).
    by destruct (removeChunk_bodies k w Htb) as (_ & _ & ->).
  - intros dt p. unfold update. cbv zeta. set (w1 := if decide _ then _ else _).
    destruct (foldl_alter_sound (Resources.update dt) (objects w1) w1)
      as (_ & _ & -> & _).
    { intros n. apply update_standing. }
    subst w1. case_decide; [done|].
    rewrite updateChunksAroundPlayer_reconcile. unfold reconcile. cbv zeta.
    set (w0 := setLastPlayerChunkCoords (Some (chunkOf p)) w).
    assert (sound w0) as Hs0.
    { destruct Hs as (? & ? & ?). by split_and!. }
    rewrite foldl_removeInactive_bodies
      by (by apply foldl_generateMissing_sound).
    by destruct (foldl_generateMissing_grows
                   (activeKeys (chunkOf p).1 (chunkOf p).2) w0) as (_ & ? & _).
  - intros Hp k. unfold generateChunk.
    set (chunk := mkChunk None [] None k.1 k.2 None None).
    assert (length (physicsBodies (generateTerrainForChunk chunk w).2)
            = S (length (physicsBodies w))) as Hg.
    { unfold generateTerrainForChunk. cbv zeta. rewrite Hp. cbn.
      rewrite length_app. cbn. lia. }
    destruct (generateTerrainForChunk chunk w) as [chunk1 w1].
    pose proof (populateChunk_objects chunk1 w1) as Hp'. cbv zeta in Hp'.
    destruct (populateChunk chunk1 w1) as [chunk2 w2]. cbn in *.
    destruct Hp' as (_ & _ & _ & _ & _ & _ & _ & ->). done.
Qed.



End Props.

Lemma objects_stand_at_height_zero_witness :
  getHeightAt Scenario.firstFrame (Js.num 10) (Js.num 10)
  = Js.fin 0.
Proof.
  pose proof (objects_stand_at_height_zero (H := Scenario.flat) Scenario.firstFrame)
    as H0.
  destruct H0 as [H0 _]; [apply reach_update, reach_new|]. apply H0.
Defined.

Lemma registry_only_grows_witness :
  NoDup (objects Scenario.movedAway)
  ∧ objects Scenario.harvested `prefix_of` objects Scenario.movedAway.
Proof.
  assert (reachable (H := Scenario.flat) Scenario.harvested) as Hh.
  { unfold Scenario.harvested. cbv zeta.
    do 4 apply reach_interact. apply reach_update, reach_new. }
  pose proof (registry_only_grows (H := Scenario.flat) Scenario.movedAway) as H1.
  pose proof (registry_only_grows (H := Scenario.flat) Scenario.harvested Hh) as H2.
  destruct H1 as (H1 & _); [by apply reach_update|].
  destruct H2 as (_ & _ & _ & H2 & _).
  split; [exact H1|apply H2].
Defined.

Lemma node_life_cycle_witness :
  (interact 0 2 Scenario.firstFrame).1
  = Some (mkReward wood 1).
Proof.
  pose proof (node_life_cycle (H := Scenario.flat) Scenario.firstFrame 2
                (Resources.new Tree (vec (Js.num (-100)) 0 (Js.num (-100)))) 0)
    as H0.
  destruct H0 as (_ & H0); [apply reach_update, reach_new|vm_compute; reflexivity|].
  exact H0.
Defined.

Lemma terrain_bodies_never_released_witness :
  physicsBodies (removeChunk (-2, -2) Scenario.firstFrame)
  = physicsBodies Scenario.firstFrame.
Proof.
  pose proof (terrain_bodies_never_released (H := Scenario.flat)
                Scenario.firstFrame) as H0.
  destruct H0 as (H0 & _); [apply reach_update, reach_new|]. apply H0.
Defined.

End RegistryProps.

(** ** Heights and queries *)
Module TerrainProps.
Import Resources World WorldSpec WorldFacts HeightFacts.

Section Noise.
Context `{Environment}.

(** X20. The height [getNoiseHeight] gives to a vertex stays within 6.001
    of zero, for a noise between -1 and 1: the three octaves weigh 0.8, 0.3
    and 0.1, and the sum is scaled by [heightScale] = 5, which makes 6 at
    most; the thousandth leaves room for the rounding of the sums and
    products of the code, which give 6.000000000000001 at noise 1. *)
Theorem getNoiseHeight_bounded (x z : Qc) :
  (∀ a b, - (1) ≤ noise a b ≤ 1)%Qc →
  (- Js.frac 6001 1000 ≤ getNoiseHeight x z ≤ Js.frac 6001 1000)%Qc.
Proof.
  intros Hn. unfold getNoiseHeight. cbv zeta.
  repeat match goal with
         | |- context [noise ?a ?b] =>
           let Hb := fresh "Hb" in
           pose proof (Hn a b) as Hb; revert Hb;
           generalize (noise a b); intros ? [? ?]
         end.
  clear Hn. unfold heightScale.
  split; qc2q; unfold inject_Z in *; lra.
Qed.

End Noise.

Lemma getNoiseHeight_bounded_witness :
  (- Js.frac 6001 1000
   ≤ getNoiseHeight (H := Scenario.flat) (Js.num 3) (Js.num 4)
   ≤ Js.frac 6001 1000)%Qc.
Proof.
  apply (getNoiseHeight_bounded (H := Scenario.flat)).
  intros a b. cbn. split; vm_compute; discriminate.
Defined.

Lemma find_first {A} (f : A → bool) (l : list A) (x : A) :
  List.find f l = Some x →
  ∃ l1 l2, l = l1 ++ x :: l2 ∧ f x = true ∧ Forall (λ y, f y = false) l1.
Proof.
  induction l as [|a l IH]; cbn; [done|].
  destruct (f a) eqn:E.
  - intros [= <-]. exists [], l. by split_and!.
  - intros Hf. destruct (IH Hf) as (l1 & l2 & -> & Hx & Hall).
    exists (a :: l1), l2. split_and!; [done|done|by constructor].
Qed.

(** X21. [checkInteraction] answers the first object of the registry that
    is closer than the radius and can be interacted with: every object
    before it in the registry is too far or depleted, and the object is among
    those [getObjectsNear] lists. It answers [null] exactly when no object
    in range can be interacted with; with a radius of 0 or less nothing is
    ever in range, for either query. *)
Theorem checkInteraction_first_in_range (w : State) (position : Vector3)
    (radius : Qc) :
  let inRange id := match nodes w !! id with
                    | Some n => distanceLt position (getPosition n) radius
                    | None => false
                    end in
  let usable id := match nodes w !! id with
                   | Some n => canInteract n
                   | None => false
                   end in
  match checkInteraction w position radius with
  | Some id =>
    (∃ before after, objects w = before ++ id :: after
                     ∧ Forall (λ y, inRange y && usable y = false) before)
    ∧ inRange id = true ∧ usable id = true
    ∧ id ∈ getObjectsNear w position radius
  | None => ∀ id, id ∈ objects w → inRange id = true → usable id = false
  end
  ∧ ((radius ≤ 0)%Qc →
     checkInteraction w position radius = None
     ∧ getObjectsNear w position radius = []).
Proof.
  cbv zeta. split.
  - unfold checkInteraction, getObjectsNear.
    set (f := λ id, match nodes w !! id with
                    | Some n => distanceLt position (getPosition n) radius
                                && canInteract n
                    | None => false
                    end).
    destruct (List.find f (objects w)) as [id|] eqn:E.
    + destruct (find_first _ _ _ E) as (l1 & l2 & Ho & Hf & Hall).
      subst f. cbn in Hf.
      destruct (nodes w !! id) as [n|] eqn:En; [|done].
      apply andb_prop in Hf as [Hd Hc].
      split_and!; try done.
      * exists l1, l2. split; [done|].
        eapply Forall_impl; [exact Hall|]. intros y. cbn.
        by destruct (nodes w !! y).
      * apply list_elem_of_In, filter_In. split.
        -- rewrite Ho. apply in_or_app. right. by left.
        -- by rewrite En.
    + intros id Hin Hr.
      pose proof (find_none _ _ E id (proj1 (list_elem_of_In _ _) Hin)) as Hf.
      subst f. cbn in Hf. destruct (nodes w !! id); [|done].
      rewrite Hr in Hf. done.
  - intros Hr.
    assert (∀ q, distanceLt position q radius = false) as Hd.
    { intros q. unfold distanceLt. destruct (distanceSq position q); [|done].
      apply CompareFacts.ltb_ge in Hr. by rewrite Hr. }
    unfold checkInteraction, getObjectsNear. split.
    + destruct (List.find _ _) as [id|] eqn:E; [|done].
      apply find_some in E as [_ E]. destruct (nodes w !! id); [|done].
      by rewrite Hd in E.
    + induction (objects w) as [|a l IH]; [done|]. cbn.
      destruct (nodes w !! a); [by rewrite Hd|done].
Qed.

End TerrainProps.

(** ** Harvesting *)
Module HarvestProps.
Import Resources World WorldSpec WorldFacts NodeFacts.

Lemma interact_hit now id w n :
  nodes w !! id = Some n → canInteract n = true → 25 < health n →
  (interact now id w).1 = Some (mkReward (resourceType n) 1)
  ∧ nodes (interact now id w).2 !! id = Some (hit n)
  ∧ canInteract (hit n) = true.
Proof.
  intros Hn Hc Hh. rewrite (interact_partial _ _ _ n) by done. cbn.
  by rewrite lookup_insert_eq.
Qed.

(** X22. A rock takes six interactions: built with health 150, it gives 1
    stone for each of the first five and stays in play, gives 5 stone for the
    sixth and is then depleted, so that a seventh gives nothing; 45 seconds
    after the sixth, the timer due, it is back as it was built. *)
Theorem rock_depletion_round_trip (w : State) (id : nat) (p : Vector3)
    (t1 t2 t3 t4 t5 t6 t7 now : Qc) :
  nodes w !! id = Some (Resources.new Rock p) →
  (t6 + Js.num 45 * Js.num 1000 ≤ now)%Qc →
  let s1 := interact t1 id w in
  let s2 := interact t2 id s1.2 in
  let s3 := interact t3 id s2.2 in
  let s4 := interact t4 id s3.2 in
  let s5 := interact t5 id s4.2 in
  let s6 := interact t6 id s5.2 in
  s1.1 = Some (mkReward stone 1)
  ∧ s2.1 = Some (mkReward stone 1)
  ∧ s3.1 = Some (mkReward stone 1)
  ∧ s4.1 = Some (mkReward stone 1)
  ∧ s5.1 = Some (mkReward stone 1)
  ∧ canInteract <$> nodes s5.2 !! id = Some true
  ∧ s6.1 = Some (mkReward stone 5)
  ∧ canInteract <$> nodes s6.2 !! id = Some false
  ∧ interact t7 id s6.2 = (None, s6.2)
  ∧ nodes (runDueTimers now s6.2) !! id = Some (Resources.new Rock p).
Proof.
  intros Hn Hnow s1 s2 s3 s4 s5 s6.
  set (n0 := Resources.new Rock p) in *.
  destruct (interact_hit t1 id w n0) as (R1 & N1 & C1); [done|done|done|].
  fold s1 in R1, N1.
  destruct (interact_hit t2 id s1.2 (hit n0)) as (R2 & N2 & C2); [done|done|done|].
  fold s2 in R2, N2.
  destruct (interact_hit t3 id s2.2 (hit (hit n0))) as (R3 & N3 & C3);
    [done|done|done|].
  fold s3 in R3, N3.
  destruct (interact_hit t4 id s3.2 (hit (hit (hit n0)))) as (R4 & N4 & C4);
    [done|done|done|].
  fold s4 in R4, N4.
  destruct (interact_hit t5 id s4.2 (hit (hit (hit (hit n0))))) as (R5 & N5 & C5);
    [done|done|done|].
  fold s5 in R5, N5.
  set (n5 := hit (hit (hit (hit (hit n0))))) in *.
  assert (E6 : s6 = (Some (mkReward stone 5),
                     setTimers
                       (Timers.setTimeout (Respawn id) t6 (Js.num (45 * 1000))
                          (timers s5.2)).2
                       (setNodes (<[id := deplete n5]>) s5.2))).
  { subst s6. by rewrite (interact_final _ _ _ n5). }
  assert (N6 : nodes s6.2 !! id = Some (deplete n5)).
  { rewrite E6. cbn. by rewrite lookup_insert_eq. }
  split_and!; try done.
  - by rewrite N5.
  - by rewrite E6.
  - by rewrite N6.
  - by apply (interact_depleted _ _ _ (deplete n5)).
  - change (Resources.new Rock p) with (respawn (deplete n5)).
    eapply (runDueTimers_respawn now id (deplete n5) s6.2
              (Timers.mkTimer (Timers.nextTimerId (timers s5.2))
                 (t6 + Js.num (45 * 1000))%Qc (Respawn id))); [done| |done|].
    + rewrite E6. cbn. apply elem_of_app. right.
      by apply list_elem_of_singleton.
    + cbn [Timers.due].
      replace (Js.num (45 * 1000)) with (Js.num 45 * Js.num 1000)%Qc; [done|].
      by apply Qc_is_canon.
Qed.

Lemma rock_depletion_round_trip_witness :
  nodes Scenario.firstFrame !! 7%nat
  = Some (Resources.new Rock (vec (Js.num (-100)) 0 (Js.num (-100))))
  ∧ (interact 0 7 Scenario.firstFrame).1 = Some (mkReward stone 1).
Proof.
  assert (Hn : nodes Scenario.firstFrame !! 7%nat
               = Some (Resources.new Rock (vec (Js.num (-100)) 0 (Js.num (-100))))).
  { vm_compute. reflexivity. }
  assert (Hnow : (0 + Js.num 45 * Js.num 1000 ≤ Js.num 45000)%Qc).
  { vm_compute. discriminate. }
  pose proof (rock_depletion_round_trip Scenario.firstFrame 7
                (vec (Js.num (-100)) 0 (Js.num (-100))) 0 0 0 0 0 0 0
                (Js.num 45000) Hn Hnow) as HT.
  cbv zeta in HT. destruct HT as (HT & _).
  split; [exact Hn|exact HT].
Defined.

End HarvestProps.

Module InteractionProps.
Import Resources World WorldSpec WorldFacts NodeFacts.

(** X23. The interaction at the end of a frame. With the action key held,
    the first object within 2 units of the player that can be interacted
    with receives one [interact()], and its reward is added to the inventory
    under the name of its resource: 1, or the whole amount of the object when
    the interaction depletes it. With the key up, or nothing usable in
    range, neither the world nor the inventory changes. *)
Theorem interaction_credits_inventory (now : Qc) (playerPos : Vector3) (g : Game.State)
    (id : nat) (n : Node) (count : Z) :
  checkInteraction (Game.world g) playerPos (Js.num 2) = Some id →
  nodes (Game.world g) !! id = Some n →
  Game.inventory g !! Game.typeName (resourceType n) = Some count →
  let g' := Game.checkInteractions now true playerPos g in
  Game.world g' = (interact now id (Game.world g)).2
  ∧ Game.inventory g'
    = <[Game.typeName (resourceType n) :=
          count + (if health n <=? 25 then resourceAmount n else 1)]> (Game.inventory g)
  ∧ Game.checkInteractions now false playerPos g = g
  ∧ (∀ g0, checkInteraction (Game.world g0) playerPos (Js.num 2) = None →
           Game.checkInteractions now true playerPos g0 = g0).
Proof.
  intros Hc Hn Hi. cbn zeta.
  assert (canInteract n = true) as Hcan.
  { unfold checkInteraction in Hc. apply find_some in Hc as [_ Hc].
    rewrite Hn in Hc. by apply andb_prop in Hc as [_ ?]. }
  unfold Game.checkInteractions. rewrite Hc. split_and!; [| |done|].
  - unfold interact. rewrite Hn. unfold Resources.interact. rewrite Hcan. cbn.
    destruct (health n - 25 <=? 0); done.
  - unfold interact. rewrite Hn. unfold Resources.interact. rewrite Hcan. cbn.
    destruct (health n - 25 <=? 0) eqn:E; cbn.
    + apply Z.leb_le in E.
      destruct (health n <=? 25) eqn:E'; [|apply Z.leb_gt in E'; lia].
      unfold InventorySystem.addItem. by rewrite Hi.
    + apply Z.leb_gt in E.
      destruct (health n <=? 25) eqn:E'; [apply Z.leb_le in E'; lia|].
      unfold InventorySystem.addItem. by rewrite Hi.
  - intros g0 Hg0. by rewrite Hg0.
Qed.

Lemma interaction_credits_inventory_witness :
  let g := Game.mkState Scenario.firstFrame InventorySystem.new in
  let at_tree := vec (Js.num (-100)) 0 (Js.num (-100)) in
  Game.inventory (Game.checkInteractions 0 true at_tree g) !! "wood"%string = Some 1.
Proof.
  cbv zeta.
  pose proof (interaction_credits_inventory 0
                (vec (Js.num (-100)) 0 (Js.num (-100)))
                (Game.mkState Scenario.firstFrame InventorySystem.new) 2
                (Resources.new Tree (vec (Js.num (-100)) 0 (Js.num (-100)))) 0)
    as H.
  destruct H as (_ & H & _);
    [vm_compute; reflexivity|vm_compute; reflexivity|reflexivity|].
  rewrite H. reflexivity.
Defined.

End InteractionProps.

(** ** Clouds *)
Module CloudProps.
Import Clouds CompareFacts.

Lemma newCloud_inTheSky rx ry rz rs :
  (0 ≤ rx < 1)%Qc → (0 ≤ ry < 1)%Qc → (0 ≤ rz < 1)%Qc → (0 ≤ rs < 1)%Qc →
  inTheSky (newCloud rx ry rz rs)
  ∧ (Js.num (-75) ≤ cloudX (newCloud rx ry rz rs) < Js.num 75)%Qc.
Proof.
  intros [? ?] [? ?] [? ?] [? ?]. unfold inTheSky, newCloud, worldSize. cbn.
  split_and!; qc2q; unfold inject_Z in *; lra.
Qed.

Lemma update_inTheSky dt c :
  (0 ≤ dt)%Qc → inTheSky c → inTheSky (update dt c).
Proof.
  intros Hdt ([Hx1 Hx2] & Hy & Hz & [Hs1 Hs2]). unfold inTheSky, update. cbn.
  split_and!; try done; try apply Hy; try apply Hz.
  - destruct (Js.ltb _ _) eqn:E; [apply Qcle_refl|].
    clear E. qc2q. unfold inject_Z in *. nra.
  - destruct (Js.ltb _ _) eqn:E; [done|]. by apply ltb_ge in E.
Qed.

(** X24. The clouds stay in the sky: every cloud [generateClouds] makes,
    for draws in [0, 1), starts with x and z in [-75, 75), a height in
    [20, 30] and a speed in [0.5, 1]; and however many frames [update]
    moves it, each by a time that is not negative, its x stays within
    [-100, 100] while its height, its z and its speed never change. *)
Theorem clouds_stay_in_the_sky (random : nat → Qc) (count : nat)
    (frames : list Qc) (c : Cloud) :
  (∀ j, 0 ≤ random j < 1)%Qc →
  Forall (λ dt, (0 ≤ dt)%Qc) frames →
  c ∈ generateClouds random count →
  let c' := foldl (λ acc dt, update dt acc) c frames in
  (Js.num (-75) ≤ cloudX c < Js.num 75)%Qc
  ∧ inTheSky c ∧ inTheSky c'
  ∧ cloudY c' = cloudY c ∧ cloudZ c' = cloudZ c ∧ cloudSpeed c' = cloudSpeed c.
Proof.
  intros Hr Hf Hc. cbn zeta.
  unfold generateClouds in Hc. apply list_elem_of_fmap in Hc as (i & -> & _).
  destruct (newCloud_inTheSky (random (6 * i)%nat) (random (6 * i + 1)%nat)
              (random (6 * i + 2)%nat) (random (6 * i + 3)%nat)) as [Hs Hx];
    try apply Hr.
  split_and!; [apply Hx|apply Hx|done| | | |].
  all: revert Hs; generalize (newCloud (random (6 * i)%nat) (random (6 * i + 1)%nat)
                               (random (6 * i + 2)%nat) (random (6 * i + 3)%nat)).
  all: induction Hf as [|dt frames Hdt _ IH]; intros c Hs; cbn; try done.
  - apply IH. by apply update_inTheSky.
  - by rewrite IH by (by apply update_inTheSky).
  - by rewrite IH by (by apply update_inTheSky).
  - by rewrite IH by (by apply update_inTheSky).
Qed.

Lemma clouds_stay_in_the_sky_witness :
  let c := newCloud 0 0 0 0 in
  inTheSky (foldl (λ acc dt, update dt acc) c [Js.num 400; Js.num 1]).
Proof.
  cbv zeta.
  pose proof (clouds_stay_in_the_sky (λ _, 0%Qc) 1 [Js.num 400; Js.num 1]
                (newCloud 0 0 0 0)) as H.
  destruct H as (_ & _ & H & _).
  - intros j. split; vm_compute; congruence.
  - repeat constructor; vm_compute; congruence.
  - cbn. apply list_elem_of_singleton. reflexivity.
  - exact H.
Defined.

End CloudProps.

(** ** The allied units *)
Module UnitProps.
Import Units UnitSystem CompareFacts.

(** X25. [spawnUnit] never deploys a unit on the inventory of the game.
    Its first use of the inventory is [hasItem('wood', cost)], a method
    InventorySystem does not have: for each of the five unit types, and for
    each name the table of unit types inherits from [Object.prototype], the
    call throws before any wood is taken and before any unit is made; for any
    other name [spawnUnit] answers [null]; the units and the inventory are
    left as they were. With an inventory object that does have [hasItem],
    the same code takes the cost in wood and appends the unit. *)
Theorem spawnUnit_never_deploys (constructionThrows : bool) (unitType : string)
    (s : State) :
  spawnUnit inventorySystem constructionThrows unitType s
  = (if decide (unitType ∈ ["wolf"; "bear"; "eagle"; "fox"; "deer"]%string
                ∨ unitType ∈ objectPrototype)
     then Threw else Returned None, s)
  ∧ (∀ wood,
       inventory s !! "wood"%string = Some wood → 10 ≤ wood →
       let complete :=
         mkInventoryMethods
           (Some (λ type amount inv,
                    match amount with
                    | Some n => n <=? InventorySystem.getItemCount type inv
                    | None => false
                    end))
           (removeItem inventorySystem) in
       spawnUnit complete false "wolf" s
       = (Returned (Some (mkAnimalUnit (Js.num 100) (Js.num 100) (Js.num 15)
                            wandering)),
          mkState (units s ++ [mkAnimalUnit (Js.num 100) (Js.num 100)
                                 (Js.num 15) wandering])
                  (<["wood"%string := wood - 10]> (inventory s)))).
Proof.
  split.
  - unfold spawnUnit, inventorySystem. cbn [hasItem].
    assert (Hown : is_Some (unitTypes !! unitType)
                   ↔ unitType ∈ ["wolf"; "bear"; "eagle"; "fox"; "deer"]%string).
    { split.
      - intros [t E]. unfold unitTypes in E.
        repeat (apply lookup_insert_Some in E as [[<- _]|[_ E]];
                [set_solver|]).
        done.
      - intros Hin.
        repeat (apply elem_of_cons in Hin as [->|Hin]); try (by eexists).
        by apply elem_of_nil in Hin. }
    unfold lookupUnitType.
    destruct (unitTypes !! unitType) as [t|] eqn:E.
    + rewrite decide_True; [done|]. left. apply Hown. by eexists.
    + case_bool_decide as Hp.
      * rewrite decide_True; [done|]. by right.
      * rewrite decide_False; [done|]. intros [Hin|Hin]; [|done].
        apply Hown in Hin as [? ?]. done.
  - intros wood Hw Hle. cbn zeta. unfold spawnUnit, lookupUnitType.
    set (wolf := mkUnitType (Js.num 100) (Js.num 15) (Js.num 6)
                            (Js.frac 15 10) (Js.frac 12 10) 10).
    assert (unitTypes !! "wolf"%string = Some wolf) as -> by reflexivity.
    assert (newAnimalUnit wolf
            = mkAnimalUnit (Js.num 100) (Js.num 100) (Js.num 15) wandering)
      as -> by reflexivity.
    cbn [hasItem removeItem inventorySystem cost wolf].
    unfold InventorySystem.getItemCount, InventorySystem.removeItem.
    rewrite Hw.
    destruct (10 <=? wood) eqn:E; [|apply Z.leb_gt in E; lia]. done.
Qed.

(** X26. The health of an allied unit stays between 0 and [maxHealth]
    under [takeDamage] and [heal] with amounts that are not negative, and it
    is dead exactly when its health is 0. [heal] does not look at whether the
    unit is dead: a dead unit that is healed before UnitSystem removes it is
    alive again. *)
Theorem animal_health_in_range (amount : Qc) (u : AnimalUnit) :
  (0 ≤ animalHealth u)%Qc → (animalHealth u ≤ animalMaxHealth u)%Qc →
  (0 ≤ amount)%Qc →
  (0 ≤ animalHealth (animalTakeDamage amount u) ≤ animalMaxHealth u)%Qc
  ∧ (0 ≤ animalHealth (heal amount u) ≤ animalMaxHealth u)%Qc
  ∧ (animalIsDead u = true ↔ animalHealth u = 0%Qc)
  ∧ ((0 < amount)%Qc → (0 < animalMaxHealth u)%Qc →
     animalIsDead (heal amount u) = false).
Proof.
  intros H0 Hmax Ha. split; [|split; [|split]].
  - unfold animalTakeDamage. cbn.
    destruct (Js.leb _ 0) eqn:E.
    + split; [apply Qcle_refl|exact (Qcle_trans _ _ _ H0 Hmax)].
    + apply leb_gt in E. split; [by apply Qclt_le_weak|]. qc2q. lra.
  - unfold heal. cbn.
    destruct (min_spec (animalMaxHealth u) (animalHealth u + amount))
      as (Hb & _ & [Hm|Hm]); split; try done; rewrite Hm.
    + exact (Qcle_trans _ _ _ H0 Hmax).
    + qc2q. lra.
  - unfold animalIsDead. rewrite JsFacts.leb_le. split.
    + intros Hle. by apply Qcle_antisym.
    + intros ->. apply Qcle_refl.
  - intros Hpos Hm. unfold animalIsDead, heal. cbn. apply leb_gt.
    destruct (min_spec (animalMaxHealth u) (animalHealth u + amount))
      as (_ & _ & [-> | ->]); [done|]. qc2q. lra.
Qed.

Lemma animal_health_in_range_witness :
  let wolf := mkAnimalUnit 0 (Js.num 100) (Js.num 15) wandering in
  animalIsDead wolf = true ∧ animalIsDead (heal (Js.num 5) wolf) = false.
Proof.
  cbv zeta.
  pose proof (animal_health_in_range (Js.num 5)
                (mkAnimalUnit 0 (Js.num 100) (Js.num 15) wandering)) as H.
  destruct H as (_ & _ & H1 & H2); [done|done|done|].
  split; [by apply H1|by apply H2].
Defined.

Section Enemy.
Context `{Kinematics}.




End Enemy.

(** a goblin within reach of the objective, updated every half second from
    1 s on: it strikes at 1 s, 2 s and 3 s *)
Example goblin_in_reach :
  let e := newEnemyUnit (H := Scenario.atTheGate) 0 goblin
             (EnemySystem.enemyTypes goblin) tt in
  (λ p, (this p.1, this p.2))
    <$> (updates [(Js.num 1000, 0%Qc); (Js.num 1500, 0%Qc); (Js.num 2000, 0%Qc);
                  (Js.num 2500, 0%Qc); (Js.num 3000, 0%Qc)] e).2
  = [(1%Q, 5%Q); (2%Q, 5%Q); (3%Q, 5%Q)].
Proof. vm_compute. reflexivity. Qed.

End UnitProps.

(** ** The director between waves *)
Module WaveProps.
Import Resources Units EnemySystem DirectorSpec DirectorFacts RosterFacts CompareFacts.

Lemma availableTypes_cases (w : Z) :
  (w < 3 ∧ availableTypes w = [goblin])
  ∨ (3 ≤ w < 5 ∧ availableTypes w = [goblin; orc])
  ∨ (5 ≤ w < 7 ∧ availableTypes w = [goblin; orc; troll])
  ∨ (7 ≤ w < 9 ∧ availableTypes w = [goblin; orc; troll; demon])
  ∨ (9 ≤ w ∧ availableTypes w = [goblin; orc; troll; demon; warlock]).
Proof.
  unfold availableTypes.
  destruct (1 <=? w) eqn:E1, (3 <=? w) eqn:E3, (5 <=? w) eqn:E5,
           (7 <=? w) eqn:E7, (9 <=? w) eqn:E9;
    rewrite ?Z.leb_le, ?Z.leb_gt in *; try lia; cbn;
    [do 4 right|do 3 right; left|do 2 right; left|right; left|left|left];
    (split; [lia|done]).
Qed.

(** X28. The enemy types unlock with the waves and never lock again:
    goblins from the start, orcs from wave 3, trolls from wave 5, demons from
    wave 7, warlocks from wave 9; the types of a wave are the first types of
    every later wave. The type of a spawn is drawn among them: for a draw in
    [0, 1) the draw always gives one of the unlocked types. *)
Theorem enemy_types_unlock_with_waves (w w' : Z) (r : Qc) :
  goblin ∈ availableTypes w
  ∧ (orc ∈ availableTypes w ↔ 3 ≤ w)
  ∧ (troll ∈ availableTypes w ↔ 5 ≤ w)
  ∧ (demon ∈ availableTypes w ↔ 7 ≤ w)
  ∧ (warlock ∈ availableTypes w ↔ 9 ≤ w)
  ∧ (w ≤ w' → availableTypes w `prefix_of` availableTypes w')
  ∧ ((0 ≤ r)%Qc → (r < 1)%Qc →
     ∃ t, pick r (availableTypes w) = Some t ∧ t ∈ availableTypes w).
Proof.
  split; [|split; [|split; [|split; [|split; [|split]]]]].
  - destruct (availableTypes_cases w)
      as [[? ->]|[[? ->]|[[? ->]|[[? ->]|[? ->]]]]]; set_solver.
  - destruct (availableTypes_cases w)
      as [[? ->]|[[? ->]|[[? ->]|[[? ->]|[? ->]]]]];
      (split; [intros Hin; try lia; exfalso; set_solver
              |intros Hle; try lia; set_solver]).
  - destruct (availableTypes_cases w)
      as [[? ->]|[[? ->]|[[? ->]|[[? ->]|[? ->]]]]];
      (split; [intros Hin; try lia; exfalso; set_solver
              |intros Hle; try lia; set_solver]).
  - destruct (availableTypes_cases w)
      as [[? ->]|[[? ->]|[[? ->]|[[? ->]|[? ->]]]]];
      (split; [intros Hin; try lia; exfalso; set_solver
              |intros Hle; try lia; set_solver]).
  - destruct (availableTypes_cases w)
      as [[? ->]|[[? ->]|[[? ->]|[[? ->]|[? ->]]]]];
      (split; [intros Hin; try lia; exfalso; set_solver
              |intros Hle; try lia; set_solver]).
  - intros Hw.
    destruct (availableTypes_cases w)
      as [[? ->]|[[? ->]|[[? ->]|[[? ->]|[? ->]]]]];
      destruct (availableTypes_cases w')
        as [[? ->]|[[? ->]|[[? ->]|[[? ->]|[? ->]]]]];
      try lia; by eexists.
  - intros H0 H1. apply pick_in_range; try done.
    destruct (availableTypes_cases w)
      as [[? ->]|[[? ->]|[[? ->]|[[? ->]|[? ->]]]]]; done.
Qed.

Section Director.
Context `{Kinematics}.

Lemma waveTotal_pos w : 0 ≤ w → 0 < Z.min (5 + (w + 1) * 2) 30.
Proof. lia. Qed.

(** X29. Between two waves [update] only counts down: as long as the
    countdown stays above 0 the frame takes [deltaTime] off it and touches
    neither the wave number, the enemies left to spawn nor the timers; the
    frame that takes it to 0 or below starts the next wave in that same call:
    the wave number goes up by one, [min(5 + 2 wave, 30)] enemies are left to
    spawn, and the initial burst is queued, the spawns 500 ms apart. *)
Theorem countdown_starts_the_next_wave (now dt r r1 r2 : Qc) (s : State) :
  waveInProgress s = false →
  0 ≤ waveNumber s →
  let s' := update now dt r r1 r2 s in
  ((0 < timeUntilNextWave s - dt)%Qc →
   waveInProgress s' = false
   ∧ waveNumber s' = waveNumber s
   ∧ timeUntilNextWave s' = (timeUntilNextWave s - dt)%Qc
   ∧ enemiesRemaining s' = enemiesRemaining s
   ∧ timers s' = timers s)
  ∧ ((timeUntilNextWave s - dt ≤ 0)%Qc →
     waveInProgress s' = true
     ∧ waveNumber s' = waveNumber s + 1
     ∧ enemiesRemaining s' = Z.min (5 + (waveNumber s + 1) * 2) 30
     ∧ Timers.pending (timers s')
       = Timers.pending (timers s)
         ++ staggered BurstSpawn now 500 (Timers.nextTimerId (timers s))
              (Z.min (3 + (waveNumber s + 1) / 2) 10)).
Proof.
  intros Hp Hw. cbn zeta. unfold update. cbv zeta.
  assert (E1 : waveWatchdog now s = s).
  { unfold waveWatchdog. rewrite Hp. by destruct (waveStartTime s). }
  rewrite E1.
  set (s1 := setTimeUntilNextWave (timeUntilNextWave s - dt)%Qc s).
  split.
  - intros Hpos. apply leb_gt in Hpos.
    assert (E2 : waveMechanics now dt s = s1).
    { unfold waveMechanics. rewrite Hp. cbv zeta. fold s1. cbn. by rewrite Hpos. }
    rewrite E2.
    assert (E3 : stuckCountdown now s1 = s1).
    { unfold stuckCountdown. cbn. by rewrite Hpos. }
    rewrite E3.
    assert (E4 : spawnWatchdog now r s1 = s1).
    { unfold spawnWatchdog. cbn. rewrite Hp.
      destruct (nextSpawnTimeout s); [|done]. by destruct (lastSpawnTime s). }
    rewrite E4.
    destruct (update_tail now dt r1 r2 s1) as (Hpc & _ & _).
    apply pacing_eq in Hpc as (P1 & P2 & P3 & P4 & P5 & P6).
    change (waveNumber s1) with (waveNumber s) in P1.
    change (enemiesRemaining s1) with (enemiesRemaining s) in P2.
    change (waveInProgress s1) with (waveInProgress s) in P3.
    change (timeUntilNextWave s1) with (timeUntilNextWave s - dt)%Qc in P4.
    change (timers s1) with (timers s) in P6.
    split_and!; congruence.
  - intros Hle. apply JsFacts.leb_le in Hle.
    assert (E2 : waveMechanics now dt s = startNextWave now s1).
    { unfold waveMechanics. rewrite Hp. cbv zeta. fold s1. cbn. by rewrite Hle. }
    rewrite E2.
    pose proof (startNextWave_spec now s1 (waveTotal_pos _ Hw)) as Hs.
    change (waveNumber s1) with (waveNumber s) in Hs.
    change (timers s1) with (timers s) in Hs.
    set (s2 := startNextWave now s1) in *.
    assert (waveInProgress s2 = true
            ∧ waveNumber s2 = waveNumber s + 1
            ∧ enemiesRemaining s2 = Z.min (5 + (waveNumber s + 1) * 2) 30
            ∧ lastSpawnTime s2 = Some (now / Js.num 1000)%Qc
            ∧ Timers.pending (timers s2)
              = Timers.pending (timers s)
                ++ staggered BurstSpawn now 500 (Timers.nextTimerId (timers s))
                     (Z.min (3 + (waveNumber s + 1) / 2) 10))
      as (S1 & S2 & S3 & S4 & S5).
    { rewrite Hs. by split_and!. }
    assert (E3 : stuckCountdown now s2 = s2).
    { unfold stuckCountdown. rewrite S1. by rewrite andb_false_r. }
    rewrite E3.
    assert (E4 : spawnWatchdog now r s2 = s2).
    { unfold spawnWatchdog. destruct (nextSpawnTimeout s2); [|done].
      rewrite S4.
      replace (now / Js.num 1000 - now / Js.num 1000)%Qc with 0%Qc by ring.
      change (Js.ltb (Js.num 30) 0) with false.
      by rewrite andb_false_r. }
    rewrite E4.
    destruct (update_tail now dt r1 r2 s2) as (Hpc & _ & _).
    apply pacing_eq in Hpc as (P1 & P2 & P3 & P4 & P5 & P6).
    split_and!; congruence.
Qed.

(** X30. A wave ends on the first [update] that finds the roster empty
    with nothing left to spawn: wave [w] is completed in that call, the
    inventory receives [3 w] wood and [w] stone, the batch timeout is
    cancelled, and the countdown to the next wave is set to [20 + 2 w]
    seconds. *)
Theorem cleared_wave_is_rewarded (now dt r r1 r2 : Qc) (s : State) :
  waveInProgress s = true →
  enemies s = [] →
  enemiesRemaining s = 0 →
  0 ≤ waveNumber s →
  let s' := update now dt r r1 r2 s in
  waveInProgress s' = false
  ∧ enemies s' = []
  ∧ waveNumber s' = waveNumber s
  ∧ nextSpawnTimeout s' = None
  ∧ timeUntilNextWave s' = Js.num (20 + waveNumber s * 2)
  ∧ inventory s'
    = addItem stone (waveNumber s) (addItem wood (waveNumber s * 3) (inventory s)).
Proof.
  intros Hp He Hr Hw. cbn zeta. unfold update. cbv zeta.
  set (s1 := waveWatchdog now s).
  assert (waveInProgress s1 = true ∧ enemies s1 = [] ∧ enemiesRemaining s1 = 0
          ∧ waveNumber s1 = waveNumber s ∧ inventory s1 = inventory s)
    as (Hp1 & He1 & Hr1 & Hw1 & Hi1).
  { subst s1. unfold waveWatchdog. destruct (waveStartTime s); [|done].
    by destruct (_ && _). }
  assert (E2 : waveMechanics now dt s1 = completeWave s1).
  { unfold waveMechanics. rewrite Hp1, Hr1.
    by rewrite (bool_decide_eq_true_2 _ He1). }
  rewrite E2. set (s2 := completeWave s1).
  destruct (completeWave_spec s1) as (C1 & C2 & C3 & C4 & C5 & C6 & C7 & C8 & C9).
  fold s2 in C1, C2, C3, C4, C5, C6, C7, C8, C9.
  rewrite Hw1, Hr1, Hi1 in *.
  assert (E3 : stuckCountdown now s2 = s2).
  { unfold stuckCountdown. rewrite C7.
    assert (Hpos : Js.leb (Js.num (20 + waveNumber s * 2)) 0%Qc = false).
    { apply leb_gt. unfold Qclt. rewrite JsFacts.this_num.
      change (this 0%Qc) with (inject_Z 0). rewrite <- Zlt_Qlt. lia. }
    by rewrite Hpos. }
  rewrite E3.
  assert (E4 : spawnWatchdog now r s2 = s2).
  { unfold spawnWatchdog. by rewrite C6. }
  rewrite E4.
  destruct (update_tail now dt r1 r2 s2) as (Hpc & Hi & Hl).
  apply pacing_eq in Hpc as (P1 & P2 & P3 & P4 & P5 & P6).
  split_and!.
  - congruence.
  - apply length_zero_nil. by rewrite C1 in Hl.
  - congruence.
  - congruence.
  - congruence.
  - rewrite Hi, C8. f_equal; [f_equal; lia|]. f_equal. lia.
Qed.

End Director.

Lemma countdown_starts_the_next_wave_witness :
  waveInProgress (EnemySystem.new (H := Scenario.still)) = false
  ∧ 0 ≤ waveNumber (EnemySystem.new (H := Scenario.still))
  ∧ waveNumber Scenario.waveOne = 1.
Proof.
  pose proof (countdown_starts_the_next_wave (H := Scenario.still)
                (Js.num 5000) (Js.num 5) 0 0 0 EnemySystem.new eq_refl) as H.
  destruct H as (_ & H); [done|].
  destruct H as (_ & H & _); [vm_compute; discriminate|].
  split_and!; [done|done|exact H].
Defined.

Lemma cleared_wave_is_rewarded_witness :
  let s := setEnemiesRemaining 0 Scenario.spawnFailed in
  waveInProgress (update (H := Scenario.still) (Js.num 9000) (Js.frac 16 1000)
                    0 0 0 s) = false.
Proof.
  cbv zeta.
  pose proof (cleared_wave_is_rewarded (H := Scenario.still) (Js.num 9000)
                (Js.frac 16 1000) 0 0 0
                (setEnemiesRemaining 0 Scenario.spawnFailed)) as H.
  destruct H as (H & _);
    [vm_compute; reflexivity|vm_compute; reflexivity|reflexivity
    |vm_compute; discriminate|exact H].
Defined.

End WaveProps.
